(** * beer: exponential-family priors, mixture sets and VAEs

    A shallow embedding of the numeric core of the [beer] toolkit
    ([beer/utils.py], [beer/expfamilyprior.py], [beer/models/parameters.py],
    [beer/models/mixtureset.py], [beer/models/vae.py],
    [beer/nnet/neuralnetwork.py]) together with the properties its
    specification states about it.

    Conventions.
    - Scalars are real numbers: every tensor entry is an element of [R] and
      [exp], [ln] are the real functions.  Rounding is modelled in one
      place only, [Binary32], for the one property that names a
      tolerance.
    - A tensor is what torch stores: a shape and a row-major flat storage.
    - Python exceptions are values of [exn]; a call either returns or raises.
    - Code that mutates [self] or a shared tensor threads that state
      explicitly ([M]); tensors added to in place live in a store and are
      passed by reference. *)

From Stdlib Require Import Reals Lra Lia.
From stdpp Require Import base list strings gmap.

(** ** Python: exceptions and the two effect layers *)

Module Py.

Inductive exn :=
| ValueError | TypeError | AttributeError | RuntimeError
| KeyError | IndexError | ZeroDivisionError.

Inductive result (A : Type) :=
| Return (a : A)
| Raise (e : exn).
Arguments Return {A} a.
Arguments Raise {A} e.

Definition bind {A B} (m : result A) (k : A -> result B) : result B :=
  match m with
  | Return a => k a
  | Raise e => Raise e
  end.

Fixpoint mapM {A B} (f : A -> result B) (l : list A) : result (list B) :=
  match l with
  | [] => Return []
  | x :: l' =>
      match f x with
      | Return y =>
          match mapM f l' with
          | Return ys => Return (y :: ys)
          | Raise e => Raise e
          end
      | Raise e => Raise e
      end
  end.

(** A [for] loop that updates one variable. *)
Fixpoint foldM {A B} (f : B -> A -> result B) (b : B) (l : list A)
  : result B :=
  match l with
  | [] => Return b
  | x :: l' =>
      match f b x with
      | Return b' => foldM f b' l'
      | Raise e => Raise e
      end
  end.

(** Stateful code: the state survives an exception, as in Python. *)
Definition M (S A : Type) : Type := S -> result A * S.

Definition ret {S A} (a : A) : M S A := fun s => (Return a, s).
Definition raise {S A} (e : exn) : M S A := fun s => (Raise e, s).
Definition lift {S A} (r : result A) : M S A := fun s => (r, s).
Definition get {S} : M S S := fun s => (Return s, s).
Definition put {S} (s : S) : M S unit := fun _ => (Return tt, s).
Definition bindM {S A B} (m : M S A) (k : A -> M S B) : M S B :=
  fun s =>
    match m s with
    | (Return a, s') => k a s'
    | (Raise e, s') => (Raise e, s')
    end.

End Py.
Export Py.

Notation "x <- e ;; k" := (bind e (fun x => k))
  (at level 100, e at next level, right associativity).
Notation "x <~ e ;; k" := (bindM e (fun x => k))
  (at level 100, e at next level, right associativity).
Notation "e ;;; k" := (bindM e (fun _ => k))
  (at level 100, right associativity).

(** ** torch: tensors as shape and row-major storage *)

Module Torch.

Record Tensor := mkTensor { shape : list nat; storage : list R }.

Definition numel (sh : list nat) : nat := foldr Nat.mul 1 sh.

(** Row-major offset of a multi-index, and its inverse. *)
Fixpoint ravel (sh idx : list nat) : nat :=
  match sh, idx with
  | _ :: sh', i :: idx' => i * numel sh' + ravel sh' idx'
  | _, _ => 0
  end.

Fixpoint unravel (sh : list nat) (k : nat) : list nat :=
  match sh with
  | [] => []
  | _ :: sh' => (k / numel sh') :: unravel sh' (k mod numel sh')
  end.

(** [ix l k] is [l[k]], read as 0 outside the list. *)
Definition ix (l : list nat) (k : nat) : nat := nth k l 0.

Definition item (t : Tensor) (idx : list nat) : R :=
  nth (ravel (shape t) idx) (storage t) 0%R.

Definition tabulate (sh : list nat) (f : list nat -> R) : Tensor :=
  mkTensor sh (map (fun k => f (unravel sh k)) (seq 0 (numel sh))).

(** A multi-index addresses an entry of a tensor of shape [sh]. *)
Definition valid (idx sh : list nat) : Prop := Forall2 lt idx sh.

Definition wf (t : Tensor) : Prop := length (storage t) = numel (shape t).

Definition Rsum (l : list R) : R := foldr Rplus 0%R l.

(** [torch.max] of a non-empty list of entries. *)
Fixpoint Rmax_list (x : R) (l : list R) : R :=
  match l with
  | [] => x
  | y :: l' => Rmax x (Rmax_list y l')
  end.

(** The maximum of a list of entries (0 for none). *)
Definition list_max (l : list R) : R :=
  match l with
  | [] => 0%R
  | x :: l' => Rmax_list x l'
  end.

(** *** Construction and reshaping *)

Definition vec (l : list R) : Tensor := mkTensor [length l] l.
Definition full (sh : list nat) (x : R) : Tensor := tabulate sh (fun _ => x).
Definition zeros (sh : list nat) : Tensor := full sh 0%R.
Definition ones (sh : list nat) : Tensor := full sh 1%R.
Definition ones_like (t : Tensor) : Tensor := ones (shape t).
Definition zeros_like (t : Tensor) : Tensor := zeros (shape t).

(** [t.view(sh)] and [t.reshape(sh)] with every size given. *)
Definition view (t : Tensor) (sh : list nat) : result Tensor :=
  if numel sh =? numel (shape t) then Return (mkTensor sh (storage t))
  else Raise RuntimeError.

(** [t.view] with the sizes of a list unpacked into the call: without
    any size the call has no argument and is refused. *)
Definition view_star (t : Tensor) (sh : list nat) : result Tensor :=
  match sh with
  | [] => Raise TypeError
  | _ :: _ => view t sh
  end.

(** [t.view(-1, d1, ..., dk)]: the leading size is inferred. *)
Definition view_infer (t : Tensor) (rest : list nat) : result Tensor :=
  let n := numel (shape t) in
  let r := numel rest in
  if (r =? 0) || negb (n mod r =? 0) then Raise RuntimeError
  else Return (mkTensor ((n / r) :: rest) (storage t)).

(** [len(t)] and [t.size(d)]. *)
Definition len (t : Tensor) : result nat :=
  match shape t with
  | [] => Raise TypeError
  | d :: _ => Return d
  end.

Definition size_at (t : Tensor) (d : nat) : result nat :=
  match shape t !! d with
  | Some n => Return n
  | None => Raise IndexError
  end.

(** *** Pointwise operations and broadcasting *)

Definition tmap (f : R -> R) (t : Tensor) : Tensor :=
  mkTensor (shape t) (map f (storage t)).

Fixpoint broadcast_rev (a b : list nat) : result (list nat) :=
  match a, b with
  | [], _ => Return b
  | _, [] => Return a
  | x :: a', y :: b' =>
      r <- broadcast_rev a' b' ;;
      if x =? y then Return (x :: r)
      else if x =? 1 then Return (y :: r)
      else if y =? 1 then Return (x :: r)
      else Raise RuntimeError
  end.

Definition broadcast_shapes (a b : list nat) : result (list nat) :=
  r <- broadcast_rev (reverse a) (reverse b) ;; Return (reverse r).

(** Along an axis of size one every output position reads entry 0. *)
Definition clamp (d i : nat) : nat := if d =? 1 then 0 else i.

(** The index of the operand entry that feeds output entry [idx]: the
    operand's axes are aligned to the right, axes of size one repeat. *)
Definition bidx (sh idx : list nat) : list nat :=
  zip_with clamp sh (drop (length idx - length sh) idx).

(** Shape [b] fits shape [a]: same rank, and every axis of [b] has the size
    of the axis of [a] or size one. *)
Definition fits (b a : list nat) : Prop :=
  Forall2 (fun y x => y = x \/ y = 1) b a.

Definition map2 (f : R -> R -> R) (a b : Tensor) : result Tensor :=
  sh <- broadcast_shapes (shape a) (shape b) ;;
  Return (tabulate sh (fun i =>
            f (item a (bidx (shape a) i)) (item b (bidx (shape b) i)))).

Definition add := map2 Rplus.
Definition sub := map2 Rminus.
Definition mul := map2 Rmult.
Definition div := map2 Rdiv.

(** *** Reductions along one axis *)

(** A possibly negative axis, as Python resolves it against a rank. *)
Definition norm_dim (rank : nat) (dim : Z) : result nat :=
  if ((0 <=? dim) && (dim <? Z.of_nat rank))%Z then Return (Z.to_nat dim)
  else if ((dim <? 0) && (- Z.of_nat rank <=? dim))%Z
       then Return (Z.to_nat (Z.of_nat rank + dim))
       else Raise IndexError.

Definition insert_at (d k : nat) (idx : list nat) : list nat :=
  take d idx ++ k :: drop d idx.

Definition lane (t : Tensor) (d : nat) (idx : list nat) : list R :=
  map (fun k => item t (insert_at d k idx)) (seq 0 (ix (shape t) d)).

(** [t.sum(dim=d)] *)
Definition sum_dim (t : Tensor) (d : nat) : result Tensor :=
  if d <? length (shape t)
  then Return (tabulate (delete d (shape t)) (fun idx => Rsum (lane t d idx)))
  else Raise IndexError.

(** [t.sum(dim=d, keepdim=True)] *)
Definition sum_dim_keep (t : Tensor) (d : nat) : result Tensor :=
  if d <? length (shape t)
  then Return (tabulate (<[d:=1]> (shape t))
                 (fun idx => Rsum (lane t d (delete d idx))))
  else Raise IndexError.

(** [torch.max(t, dim=d, keepdim=True)[0]]; an empty axis has no maximum. *)
Definition max_dim_keep (t : Tensor) (d : nat) : result Tensor :=
  match shape t !! d with
  | None => Raise IndexError
  | Some 0 => Raise RuntimeError
  | Some (S _) =>
      Return (tabulate (<[d:=1]> (shape t))
                (fun idx => list_max (lane t d (delete d idx))))
  end.

(** [t.sum(dim=dim)] with a possibly negative axis. *)
Definition sum_dimZ (t : Tensor) (dim : Z) : result Tensor :=
  match norm_dim (length (shape t)) dim with
  | Return d => sum_dim t d
  | Raise e => Raise e
  end.

(** [t.sum()] *)
Definition sum_all (t : Tensor) : R := Rsum (storage t).

(** [t.mean(dim=d)] *)
Definition mean_dim (t : Tensor) (d : nat) : result Tensor :=
  s <- sum_dim t d ;;
  Return (tmap (fun x => x / INR (ix (shape t) d))%R s).

(** *** Indexing, concatenation, products *)

(** [t[:, None, ...]] for [d = 1] and [t[:, :, None, ...]] for [d = 2]: the
    [d] slices before the new axis need [d] axes to exist. *)
Definition unsqueeze (t : Tensor) (d : nat) : result Tensor :=
  if d <=? length (shape t)
  then Return (mkTensor (take d (shape t) ++ 1 :: drop d (shape t)) (storage t))
  else Raise IndexError.

(** [t[i]] *)
Definition select (t : Tensor) (i : nat) : result Tensor :=
  match shape t with
  | [] => Raise IndexError
  | d :: sh =>
      if i <? d then Return (tabulate sh (fun idx => item t (i :: idx)))
      else Raise IndexError
  end.

(** Iterating a tensor yields its slices along axis 0. *)
Definition rows (t : Tensor) : result (list Tensor) :=
  match shape t with
  | [] => Raise TypeError
  | d :: sh =>
      Return (map (fun i => tabulate sh (fun idx => item t (i :: idx)))
                  (seq 0 d))
  end.

(** [t.view(pre..., -1)] *)
Definition view_last (t : Tensor) (pre : list nat) : result Tensor :=
  let n := numel (shape t) in
  let r := numel pre in
  if (r =? 0) || negb (n mod r =? 0) then Raise RuntimeError
  else Return (mkTensor (pre ++ [n / r]) (storage t)).

Fixpoint cat_pick (ts : list Tensor) (d : nat) (idx : list nat) : R :=
  match ts with
  | [] => 0%R
  | t :: ts' =>
      let n := ix (shape t) d in
      let k := ix idx d in
      if k <? n then item t idx
      else cat_pick ts' d (<[d := k - n]> idx)
  end.

(** [torch.cat(ts, dim=d)]: the tensors have one rank and agree on every
    axis but [d]. *)
Definition cat (ts : list Tensor) (d : nat) : result Tensor :=
  match ts with
  | [] => Raise RuntimeError
  | t0 :: _ =>
      if (d <? length (shape t0))
         && forallb (fun t =>
                       (length (shape t) =? length (shape t0))
                       && bool_decide (delete d (shape t)
                                       = delete d (shape t0))) ts
      then Return (tabulate
                     (<[d := sum_list (map (fun t => ix (shape t) d) ts)]>
                        (shape t0))
                     (cat_pick ts d))
      else Raise RuntimeError
  end.

(** [torch.cat(ts, dim=dim)] with a possibly negative axis. *)
Definition catZ (ts : list Tensor) (dim : Z) : result Tensor :=
  match ts with
  | [] => Raise RuntimeError
  | t0 :: _ => d <- norm_dim (length (shape t0)) dim ;; cat ts d
  end.

(** [t.shape[-1]] *)
Definition last_size (t : Tensor) : result nat :=
  match last (shape t) with
  | Some n => Return n
  | None => Raise IndexError
  end.

(** [t[i] = v]: the value is broadcast to the shape of the slice. *)
Definition set_row (t : Tensor) (i : nat) (v : Tensor) : result Tensor :=
  match shape t with
  | [] => Raise IndexError
  | d :: sh =>
      if i <? d then
        b <- broadcast_shapes sh (shape v) ;;
        if bool_decide (b = sh)
        then Return (tabulate (shape t)
               (fun idx =>
                  match idx with
                  | j :: idx' =>
                      if j =? i then item v (bidx (shape v) idx')
                      else item t idx
                  | [] => 0%R
                  end))
        else Raise RuntimeError
      else Raise IndexError
  end.

(** [torch.ger(a, b)]: outer product of two vectors. *)
Definition ger (a b : Tensor) : result Tensor :=
  match shape a, shape b with
  | [n], [m] =>
      Return (tabulate [n; m]
                (fun idx => item a [ix idx 0%nat] * item b [ix idx 1%nat])%R)
  | _, _ => Raise RuntimeError
  end.

(** [a @ b] for operands of rank one or two. *)
Definition matmul (a b : Tensor) : result Tensor :=
  match shape a, shape b with
  | [n], [m] =>
      if n =? m
      then Return (tabulate []
             (fun _ => Rsum (map (fun k => item a [k] * item b [k])%R
                                 (seq 0 n))))
      else Raise RuntimeError
  | [p; n], [m] =>
      if n =? m
      then Return (tabulate [p]
             (fun idx => Rsum (map (fun k => item a [ix idx 0%nat; k]
                                             * item b [k])%R (seq 0 n))))
      else Raise RuntimeError
  | [n], [m; q] =>
      if n =? m
      then Return (tabulate [q]
             (fun idx => Rsum (map (fun k => item a [k]
                                             * item b [k; ix idx 0%nat])%R
                                   (seq 0 n))))
      else Raise RuntimeError
  | [p; n], [m; q] =>
      if n =? m
      then Return (tabulate [p; q]
             (fun idx => Rsum (map (fun k => item a [ix idx 0%nat; k]
                                             * item b [k; ix idx 1%nat])%R
                                   (seq 0 n))))
      else Raise RuntimeError
  | _, _ => Raise RuntimeError
  end.

(** A call that returns a tensor of a given shape. *)
Definition returns_shape (r : result Tensor) (sh : list nat) : Prop :=
  exists t, r = Return t /\ shape t = sh.

(** What the code takes from torch without this development defining it:
    the log-gamma function, reverse-mode differentiation of a scalar
    function of a tensor, and matrix inversion. *)
Class TorchExt := {
  lgamma : R -> R;
  autograd : (Tensor -> result R) -> Tensor -> Tensor;
  inverse : Tensor -> result Tensor
}.

End Torch.
Export Torch.

(** ** beer/utils.py *)

Module Utils.

(** [logsumexp(tensor, dim)] *)
Definition logsumexp (tensor : Tensor) (dim : Z) : result Tensor :=
  d <- norm_dim (length (shape tensor)) dim ;;
  tmax <- max_dim_keep tensor d ;;
  centred <- sub tensor tmax ;;
  total <- sum_dim_keep (tmap exp centred) d ;;
  retval <- add tmax (tmap ln total) ;;
  let new_size := delete d (shape tensor) in
  view_star retval new_size.

(** The entries [t[s, m, 0 .. C-1]] of a rank-3 tensor. *)
Definition lane3 (t : Tensor) (C s m : nat) : list R :=
  map (fun k => item t [s; m; k]) (seq 0 C).

(** The stable log-sum-exp of a list of numbers in the words of the
    specification: subtract the maximum, exponentiate, sum, take the
    logarithm, add the maximum back. *)
Definition stable_logsumexp (l : list R) : R :=
  let mx := list_max l in
  (mx + ln (Rsum (map (fun x => exp (x - mx)) l)))%R.

End Utils.
Export Utils.

(** ** beer/expfamilyprior.py *)

Module ExpFamily.

(** Values the functions of this file exchange besides prior objects. *)
#[local] Set Warnings "-register-all".
Inductive pyval :=
| PyNone
| PyFloat (x : R)
| PyInt (n : nat)
| PyTensor (t : Tensor)
| PyTuple (xs : list pyval)
| PyMethod (name : string).

(** [a - b] *)
Definition py_sub (a b : pyval) : result pyval :=
  match a, b with
  | PyFloat x, PyFloat y => Return (PyFloat (x - y))
  | PyTensor x, PyTensor y => t <- sub x y ;; Return (PyTensor t)
  | PyTensor x, PyFloat y => Return (PyTensor (tmap (fun v => v - y)%R x))
  | PyFloat x, PyTensor y => Return (PyTensor (tmap (fun v => x - v)%R y))
  | _, _ => Raise TypeError
  end.

(** [a @ b] *)
Definition py_matmul (a b : pyval) : result pyval :=
  match a, b with
  | PyTensor x, PyTensor y => t <- matmul x y ;; Return (PyTensor t)
  | _, _ => Raise TypeError
  end.

(** [_bregman_divergence]: operands are evaluated left to right. *)
Definition _bregman_divergence (f_val1 f_val2 grad_f_val2 val1 val2 : pyval)
  : result pyval :=
  d <- py_sub f_val1 f_val2 ;;
  dv <- py_sub val1 val2 ;;
  ip <- py_matmul grad_f_val2 dv ;;
  py_sub d ip.

(** *** Tensor objects

    A tensor that takes part in differentiation is an object with an
    identity: [.grad] refers to another tensor object, and two names may
    refer to the same one.  The heap holds them; a reference is an index. *)

Abbreviation loc := nat (only parsing).

Record TensorObj := mkObj {
  data : Tensor;
  grad : option loc;
  requires_grad : bool
}.

Abbreviation heap := (list TensorObj) (only parsing).

(** Reading through a reference.  A run only holds references it got from
    [alloc]; one outside the heap is an error. *)
Definition deref (l : loc) : M heap TensorObj :=
  fun h =>
    match h !! l with
    | Some o => (Return o, h)
    | None => (Raise RuntimeError, h)
    end.

Definition store (l : loc) (o : TensorObj) : M heap unit :=
  fun h => (Return tt, <[l := o]> h).

Definition alloc (o : TensorObj) : M heap loc :=
  fun h => (Return (length h), h ++ [o]).

(** [torch.tensor(x, requires_grad=True)]: a fresh leaf. *)
Definition torch_tensor (x : Tensor) (rg : bool) : M heap loc :=
  alloc (mkObj x None rg).

(** [t.zero_()]: in place. *)
Definition zero_ (l : loc) : M heap unit :=
  o <~ deref l ;;
  store l (mkObj (zeros_like (data o)) (grad o) (requires_grad o)).

(** *** Splitting a flat natural-parameter vector

    The vector is one-dimensional; [l[a:b]] clamps as Python slices do. *)

Definition slice (l : list R) (a b : nat) : list R := drop a (take b l).

(** A tensor holding one number, as indexing a vector returns it. *)
Definition scalar (x : R) : Tensor := mkTensor [] [x].

(** [int(.5 * (-c + math.sqrt(c**2 + 4 * n)))]: the integer part of the
    positive root of [D^2 + c D - n].  With the integer square root this is
    the value the real-number expression has. *)
Definition solve_dim (c n : nat) : nat := (Nat.sqrt (c * c + 4 * n) - c) / 2.

(** [a, b = v] *)
Definition unpack2 (v : pyval) : result (pyval * pyval) :=
  match v with
  | PyTuple [a; b] => Return (a, b)
  | PyTuple _ => Raise ValueError
  | PyTensor t =>
      r <- rows t ;;
      match r with
      | [a; b] => Return (PyTensor a, PyTensor b)
      | _ => Raise ValueError
      end
  | _ => Raise TypeError
  end.

Definition _jointnormalgamma_split_nparams (natural_params : list R)
  (ncomp : nat) : result pyval :=
  let dim := length natural_params / (2 + 2 * ncomp) in
  let np1 := slice natural_params 0 dim in
  let np2s := slice natural_params dim (dim + dim * ncomp) in
  let np3s := slice natural_params (dim + dim * ncomp)
                    (dim + 2 * dim * ncomp) in
  let np4 := drop (dim + 2 * dim * ncomp) natural_params in
  v2 <- view (vec np2s) [ncomp; dim] ;;
  v3 <- view (vec np3s) [ncomp; dim] ;;
  Return (PyTuple [PyTensor (vec np1); PyTensor v2; PyTensor v3;
                   PyTensor (vec np4); PyInt dim]).

Definition _normalwishart_split_nparams (natural_params : list R)
  : result pyval :=
  let n := length natural_params in
  let dim := solve_dim 1 (length (take (n - 2) natural_params)) in
  np1 <- view (vec (slice natural_params 0 (dim * dim))) [dim; dim] ;;
  let np2 := slice natural_params (dim * dim) (n - 2) in
  p <- unpack2 (PyTensor (vec (drop (n - 2) natural_params))) ;;
  Return (PyTuple [PyTensor np1; PyTensor (vec np2); p.1; p.2; PyInt dim]).

Definition _jointnormalwishart_split_nparams (natural_params : list R)
  (ncomp : nat) : result pyval :=
  let n := length natural_params in
  let dim := solve_dim ncomp
               (length (take (n - (ncomp + 1)) natural_params)) in
  np1 <- view (vec (slice natural_params 0 (dim * dim))) [dim; dim] ;;
  np2s <- view (vec (slice natural_params (dim * dim) (n - (ncomp + 1))))
               [ncomp; dim] ;;
  let np3s := slice natural_params (n - (ncomp + 1)) (n - 1) in
  np4 <- select (vec natural_params) (n - 1) ;;
  Return (PyTuple [PyTensor np1; PyTensor np2s; PyTensor (vec np3s);
                   PyTensor np4; PyInt dim]).

Definition _normal_fc_split_nparams (natural_params : list R)
  : result pyval :=
  let dim := solve_dim 1 (length natural_params) in
  np1 <- view (vec (slice natural_params 0 (dim * dim))) [dim; dim] ;;
  let np2 := drop (dim * dim) natural_params in
  Return (PyTuple [PyTensor np1; PyTensor (vec np2); PyInt dim]).

(** The [return] statement of this function is commented out. *)
Definition _normal_iso_split_nparams (natural_params : list R)
  : result pyval :=
  np1 <- select (vec natural_params) 0 ;;
  let np2 := drop 1 natural_params in
  Return PyNone.

(** [len(v)] *)
Definition py_len (v : pyval) : result nat :=
  match v with
  | PyTensor t => len t
  | PyTuple xs => Return (length xs)
  | _ => Raise TypeError
  end.

(** [1 / v], [-2 * v], [torch.log(v)] on a tensor operand. *)
Definition py_tmap (f : R -> R) (v : pyval) : result pyval :=
  match v with
  | PyTensor t => Return (PyTensor (tmap f t))
  | PyFloat x => Return (PyFloat (f x))
  | _ => Raise TypeError
  end.

(** Its [return] statement is commented out as well. *)
Definition _normal_iso_log_norm (natural_params : list R) : result pyval :=
  r <- _normal_iso_split_nparams natural_params ;;
  p <- unpack2 r ;;
  inv_np1 <- py_tmap (fun x => 1 / x)%R p.1 ;;
  n <- py_len p.2 ;;
  logdet <- py_tmap (fun x => INR n * ln (-2 * x))%R p.1 ;;
  Return PyNone.

(** The [return] statement of this function is commented out. *)
Definition _matrixnormal_fc_split_nparams (natural_params : list R)
  (dim1 dim2 : nat) : result pyval :=
  np1 <- view (vec (slice natural_params 0 (dim1 * dim1))) [dim1; dim1] ;;
  np2 <- view (vec (drop (dim1 * dim1) natural_params)) [dim1; dim2] ;;
  Return PyNone.

Section WithTorch.
Context `{TorchExt}.

(** [torch.autograd.backward(f(value))] for a scalar [f(value)] computed
    from the leaf [value]: the gradient is added to [value.grad], which is
    created when absent.  A result that does not depend on a tensor
    requiring gradients cannot be differentiated. *)
Definition backward (f : Tensor -> result R) (value : loc) : M heap unit :=
  v <~ deref value ;;
  if requires_grad v then
    let g := autograd f (data v) in
    match grad v with
    | None =>
        l <~ alloc (mkObj g None false) ;;
        store value (mkObj (data v) (Some l) (requires_grad v))
    | Some gl =>
        go <~ deref gl ;;
        acc <~ lift (add (data go) g) ;;
        store gl (mkObj acc (grad go) (requires_grad go))
    end
  else raise RuntimeError.

(** *** class ExpFamilyPrior

    The two abstract methods are what a subclass supplies. *)
Record PriorClass := mkClass {
  class_name : string;
  log_norm : Tensor -> result R;
  split_sufficient_statistics : Tensor -> pyval
}.

Record ExpFamilyPrior := mkPrior {
  cls : PriorClass;
  _expected_sufficient_statistics : option loc;
  _natural_hparams : option loc
}.

(** The [natural_hparams] setter. *)
Definition set_natural_hparams (self : ExpFamilyPrior) (value : loc)
  : M heap ExpFamilyPrior :=
  v <~ deref value ;;
  (match grad v with
   | Some g => zero_ g ;;; raise TypeError
   | None => ret tt
   end) ;;;
  log_norm_value <~ lift (log_norm (cls self) (data v)) ;;
  backward (log_norm (cls self)) value ;;;
  v' <~ deref value ;;
  ret (mkPrior (cls self) (grad v') (Some value)).

(** [ExpFamilyPrior.__init__] *)
Definition ExpFamilyPrior_init (c : PriorClass) (natural_hparams : loc)
  : M heap ExpFamilyPrior :=
  let self := mkPrior c None None in
  set_natural_hparams self natural_hparams.

(** The read-only properties return [.data] of the private fields. *)
Definition expected_sufficient_statistics (self : ExpFamilyPrior)
  : M heap Tensor :=
  match _expected_sufficient_statistics self with
  | None => raise AttributeError
  | Some l => o <~ deref l ;; ret (data o)
  end.

Definition natural_hparams (self : ExpFamilyPrior) : M heap Tensor :=
  match _natural_hparams self with
  | None => raise AttributeError
  | Some l => o <~ deref l ;; ret (data o)
  end.

(** Names defined in the body of [class ExpFamilyPrior]. *)
Definition ExpFamilyPrior_class_attrs : list string :=
  ["__init__"; "expected_sufficient_statistics"; "natural_hparams";
   "split_sufficient_statistics"; "log_norm"]%string.

(** [ExpFamilyPrior.name]: attribute lookup on the class. *)
Definition class_getattr (name : string) : result pyval :=
  if bool_decide (name ∈ ExpFamilyPrior_class_attrs)
  then Return (PyMethod name)
  else Raise AttributeError.

(** [self.name]: attribute lookup on an instance. *)
Definition getattr (self : ExpFamilyPrior) (name : string) : M heap pyval :=
  if String.eqb name "expected_sufficient_statistics" then
    t <~ expected_sufficient_statistics self ;; ret (PyTensor t)
  else if String.eqb name "natural_hparams" then
    t <~ natural_hparams self ;; ret (PyTensor t)
  else if String.eqb name "_expected_sufficient_statistics" then
    match _expected_sufficient_statistics self with
    | None => ret PyNone
    | Some l => o <~ deref l ;; ret (PyTensor (data o))
    end
  else if String.eqb name "_natural_hparams" then
    match _natural_hparams self with
    | None => ret PyNone
    | Some l => o <~ deref l ;; ret (PyTensor (data o))
    end
  else lift (class_getattr name).

(** [kl_div(model1, model2)] *)
Definition kl_div (model1 model2 : ExpFamilyPrior) : M heap pyval :=
  a1 <~ getattr model2 "log_norm" ;;
  a2 <~ getattr model1 "log_norm" ;;
  a3 <~ getattr model1 "expected_sufficient_statistics" ;;
  a4 <~ getattr model2 "natural_params" ;;
  a5 <~ getattr model1 "natural_params" ;;
  lift (_bregman_divergence a1 a2 a3 a4 a5).

(** *** class DirichletPrior *)

Definition Dirichlet_log_norm (natural_hparams : Tensor) : result R :=
  let np1 := tmap (fun x => x + 1)%R natural_hparams in
  Return (- lgamma (sum_all np1) + sum_all (tmap lgamma np1))%R.

Definition Dirichlet_split_sufficient_statistics (s_stats : Tensor) : pyval :=
  PyTensor s_stats.

Definition DirichletPrior : PriorClass :=
  mkClass "DirichletPrior" Dirichlet_log_norm
          Dirichlet_split_sufficient_statistics.

Definition DirichletPrior_init (concentrations : Tensor)
  : M heap ExpFamilyPrior :=
  natural_hparams <~
    torch_tensor (tmap (fun x => x - 1)%R concentrations) true ;;
  ExpFamilyPrior_init DirichletPrior natural_hparams.

(** A call that hands back no prior: it returns [None] or raises. *)
Definition no_prior (r : result (option ExpFamilyPrior)) : Prop :=
  r = Return None \/ exists e, r = Raise e.

(** *** Construction helpers

    Each builds the natural parameters; in all eight the final [return]
    statement is a comment, so the function falls off its end.  The tensor
    created by [torch.tensor(..., requires_grad=True)] is unreachable then
    and is not allocated here. *)

Definition smul (x : R) (t : Tensor) : Tensor := tmap (Rmult x) t.

Definition NormalGammaPrior (mean precision : Tensor) (prior_counts : R)
  : result (option ExpFamilyPrior) :=
  let n_mean := mean in
  let n_precision := smul prior_counts (ones_like n_mean) in
  let g_shapes := tmap (fun x => x * prior_counts)%R precision in
  let g_rates := prior_counts in
  t1 <- mul n_precision (tmap (fun x => x ^ 2)%R n_mean) ;;
  t2 <- mul n_precision n_mean ;;
  natural_params <-
    cat [tmap (fun x => x + 2 * g_rates)%R t1; t2; n_precision;
         tmap (fun x => 2 * x - 1)%R g_shapes] 0 ;;
  Return None.

Definition JointNormalGammaPrior (means prec : Tensor) (prior_counts : R)
  : result (option ExpFamilyPrior) :=
  dim <- size_at means 1 ;;
  ncomp <- len means ;;
  s <- sum_dim (tmap (fun x => x ^ 2)%R means) 0 ;;
  a <- view_infer
         (tmap (fun x => prior_counts * x + 2 * prior_counts)%R s) [] ;;
  b <- view_infer (smul prior_counts means) [] ;;
  c <- view_infer (tmap (fun x => x * prior_counts)%R (ones [ncomp; dim]))
                  [] ;;
  natural_params <-
    cat [a; b; c; tmap (fun x => 2 * x * prior_counts - 1)%R prec] 0 ;;
  Return None.

Definition NormalWishartPrior (mean cov : Tensor) (prior_counts : R)
  : result (option ExpFamilyPrior) :=
  if negb (length (shape cov) =? 2) then Raise ValueError
  else
    D <- size_at mean 0 ;;
    let dof := (prior_counts + INR D)%R in
    let V := smul dof cov in
    g <- ger mean mean ;;
    m <- add (smul prior_counts g) V ;;
    a <- view_infer m [] ;;
    natural_params <-
      cat [a; smul prior_counts mean;
           tmap (fun x => x * prior_counts)%R (ones [1]);
           tmap (fun x => x * (dof - INR D))%R (ones [1])] 0 ;;
    Return None.

Definition JointNormalWishartPrior (means cov : Tensor) (prior_counts : R)
  : result (option ExpFamilyPrior) :=
  if negb (length (shape cov) =? 2) then Raise ValueError
  else
    D <- size_at means 1 ;;
    let dof := (prior_counts + INR D)%R in
    let V := smul dof cov in
    m1 <- unsqueeze means 1 ;;
    m2 <- unsqueeze means 2 ;;
    outer <- mul m1 m2 ;;
    mmT <- sum_dim outer 0 ;;
    m <- add (smul prior_counts mmT) V ;;
    a <- view_infer m [] ;;
    mv <- view_infer means [] ;;
    k <- size_at means 0 ;;
    natural_params <-
      cat [a; smul prior_counts mv;
           tmap (fun x => x * prior_counts)%R (ones [k]);
           tmap (fun x => x * (dof - INR D))%R (ones [1])] 0 ;;
    Return None.

Definition NormalFullCovariancePrior (mean cov : Tensor)
  : result (option ExpFamilyPrior) :=
  prec <- inverse cov ;;
  a <- view_infer prec [] ;;
  b <- matmul prec mean ;;
  natural_params <- cat [smul (-0.5) a; b] 0 ;;
  Return None.

Definition NormalIsotropicCovariancePrior (mean variance : Tensor)
  : result (option ExpFamilyPrior) :=
  let prec := tmap (fun x => 1 / x)%R variance in
  b <- mul prec mean ;;
  natural_params <- cat [smul (-0.5) prec; b] 0 ;;
  Return None.

Definition MatrixNormalPrior (mean cov : Tensor)
  : result (option ExpFamilyPrior) :=
  prec <- inverse cov ;;
  a <- view_infer prec [] ;;
  pm <- matmul prec mean ;;
  b <- view_infer pm [] ;;
  natural_params <- cat [smul (-0.5) a; b] 0 ;;
  Return None.

Definition GammaPrior (shape_ rate : Tensor)
  : result (option ExpFamilyPrior) :=
  natural_params <-
    cat [tmap (fun x => x - 1)%R shape_; tmap Ropp rate] 0 ;;
  Return None.

End WithTorch.

End ExpFamily.
Export ExpFamily.

(** ** beer/models/parameters.py *)

Module BayesParams.

(** What the models read of a prior: its class and the values of its two
    read-only properties. *)
Record PriorState := mkPriorState {
  prior_class : PriorClass;
  nat_hparams : Tensor;
  exp_s_stats : Tensor
}.

Section WithTorch.
Context `{TorchExt}.

(** The properties of a prior object, read in a given heap. *)
Definition freeze (p : ExpFamilyPrior) : M heap PriorState :=
  e <~ expected_sufficient_statistics p ;;
  n <~ natural_hparams p ;;
  ret (mkPriorState (cls p) n e).

End WithTorch.

(** A parameter is hashed and compared by identity: [ident] stands for the
    object itself. *)
Record BayesianParameter := mkParam {
  ident : nat;
  prior : PriorState;
  posterior : PriorState;
  natural_grad : Tensor
}.

Definition BayesianParameter_init (id : nat) (prior posterior : PriorState)
  : BayesianParameter :=
  mkParam id prior posterior (zeros_like (nat_hparams prior)).

Definition expected_value (self : BayesianParameter) (concatenated : bool)
  : pyval :=
  if concatenated then PyTensor (exp_s_stats (posterior self))
  else split_sufficient_statistics (prior_class (posterior self))
         (exp_s_stats (posterior self)).

Definition zero_natural_grad (self : BayesianParameter) : BayesianParameter :=
  mkParam (ident self) (prior self) (posterior self)
          (zeros_like (natural_grad self)).

(** Calling an attribute of the class [ExpFamilyPrior] on two priors: a
    property object is not callable, the other attributes are functions
    whose body in the abstract class does nothing. *)
Definition call_class_attr (f : pyval) : result pyval :=
  match f with
  | PyMethod name =>
      if bool_decide (name ∈ ["expected_sufficient_statistics";
                              "natural_hparams"]%string)
      then Raise TypeError
      else Return PyNone
  | _ => Raise TypeError
  end.

(** [ExpFamilyPrior.kl_div(self.posterior, self.prior)]: the attribute is
    looked up on the class before anything is called. *)
Definition BayesianParameter_kl_div (self : BayesianParameter)
  : result pyval :=
  f <- class_getattr "kl_div" ;;
  call_class_attr f.

(** [BayesianParameterSet]: a list behind [__len__] and [__getitem__]. *)
Abbreviation BayesianParameterSet := (list BayesianParameter) (only parsing).

Definition param_getitem (ps : BayesianParameterSet) (key : nat)
  : result BayesianParameter :=
  match ps !! key with
  | Some p => Return p
  | None => Raise IndexError
  end.

(** [v] used where a tensor is expected. *)
Definition as_tensor (v : pyval) : result Tensor :=
  match v with
  | PyTensor t => Return t
  | _ => Raise TypeError
  end.

(** [dict(pairs)]: a later pair replaces an earlier one with the same key. *)
Definition dict_of (pairs : list (nat * Tensor)) : gmap nat Tensor :=
  foldl (fun m p => <[p.1 := p.2]> m) ∅ pairs.

End BayesParams.
Export BayesParams.

(** ** beer/models/mixtureset.py *)

Module Mixture.

Section MixtureSet.

(** Statistics and component models belong to the component set. *)
Variables Stats Model : Type.

(** The interface of the shared component set ([BayesianModelSet]). *)
Record BayesianModelSet := mkModelSet {
  ms_len : nat;
  ms_forward : Stats -> result Tensor;
  ms_accumulate : Stats -> option Tensor -> result (gmap nat Tensor);
  ms_getitem : nat -> result Model
}.

Record MixtureSet := mkMixtureSet {
  num_mix : nat;
  num_comp : nat;
  mix_weights : BayesianParameterSet;
  modelset : BayesianModelSet;
  cache : gmap string Tensor
}.

Record MixtureSetElement := mkElement {
  weights : Tensor;
  el_modelset : list Model
}.

Definition set_cache (self : MixtureSet) (key : string) (t : Tensor)
  : MixtureSet :=
  mkMixtureSet (num_mix self) (num_comp self) (mix_weights self)
               (modelset self) (<[key := t]> (cache self)).

Definition cache_get (key : string) : M MixtureSet Tensor :=
  fun self =>
    match cache self !! key with
    | Some t => (Return t, self)
    | None => (Raise KeyError, self)
    end.

(** [MixtureSet.__init__]; [base] is where the identities of the new
    weight parameters start. *)
Definition MixtureSet_init (base : nat)
  (prior_weights posterior_weights : list PriorState)
  (mdls : BayesianModelSet) : result MixtureSet :=
  let num_mix := length prior_weights in
  if num_mix =? 0 then Raise ZeroDivisionError
  else
    let num_comp := ms_len mdls / num_mix in
    params <- mapM (fun i =>
                      match prior_weights !! i, posterior_weights !! i with
                      | Some p, Some q =>
                          Return (BayesianParameter_init (base + i) p q)
                      | _, _ => Raise IndexError
                      end) (seq 0 num_mix) ;;
    Return (mkMixtureSet num_mix num_comp params mdls ∅).

Definition log_weights (self : MixtureSet) : result Tensor :=
  first <- param_getitem (mix_weights self) 0 ;;
  first_value <- as_tensor (expected_value first true) ;;
  let weights := zeros [num_mix self; num_comp self] in
  weights <- foldM (fun weights i =>
                      p <- param_getitem (mix_weights self) i ;;
                      weight <- as_tensor (expected_value p true) ;;
                      set_row weights i weight)
                   weights (seq 0 (num_mix self)) ;;
  view weights [1; num_mix self; num_comp self].

Definition _local_kl_divergence (log_weights log_resps : Tensor)
  : result Tensor :=
  d <- sub log_resps log_weights ;;
  p <- mul (tmap exp log_resps) d ;;
  sum_dimZ p (-1).

Definition forward (s_stats : Stats) : M MixtureSet Tensor :=
  self <~ get ;;
  log_weights <~ lift (log_weights self) ;;
  pc_exp_llhs <~ lift (ms_forward (modelset self) s_stats) ;;
  pc_exp_llhs <~ lift (view_infer pc_exp_llhs
                                  [num_mix self; num_comp self]) ;;
  w_pc_exp_llhs <~ lift (add pc_exp_llhs log_weights) ;;
  log_norm <~ lift (logsumexp w_pc_exp_llhs (-1)) ;;
  log_norm3 <~ lift (unsqueeze log_norm 2) ;;
  log_resps <~ lift (sub w_pc_exp_llhs log_norm3) ;;
  let resps := tmap exp log_resps in
  put (set_cache self "resps" resps) ;;;
  local_kl_div <~ lift (_local_kl_divergence log_weights log_resps) ;;
  weighted <~ lift (mul pc_exp_llhs resps) ;;
  exp_llh <~ lift (sum_dimZ weighted (-1)) ;;
  lift (sub exp_llh local_kl_div).

(** The numbers [forward] normalises for sample [s] and mixture [m]: for
    each component, the expected log-likelihood the component set returned
    ([pc_exp_llhs], read in row-major order) plus the expected log-weight. *)
Definition weighted_lane (self : MixtureSet) (pc_exp_llhs log_weights : Tensor)
  (s m : nat) : list R :=
  map (fun c =>
         (nth (s * (num_mix self * num_comp self) + m * num_comp self + c)
              (storage pc_exp_llhs) 0
          + item log_weights [0%nat; m; c])%R)
      (seq 0 (num_comp self)).

Definition accumulate (s_stats : Stats) (parent_msg : option Tensor)
  : M MixtureSet (gmap nat Tensor) :=
  match parent_msg with
  | None => raise ValueError
  | Some parent_msg =>
      self <~ get ;;
      resps <~ cache_get "resps" ;;
      msg3 <~ lift (unsqueeze parent_msg 2) ;;
      joint_resps <~ lift (mul resps msg3) ;;
      sum_joint_resps <~ lift (sum_dim joint_resps 0) ;;
      per_mix <~ lift (rows sum_joint_resps) ;;
      let ret_val := dict_of (zip (map ident (mix_weights self)) per_mix) in
      child_msg <~ lift (view_infer joint_resps
                                    [num_mix self * num_comp self]) ;;
      acc_stats <~ lift (ms_accumulate (modelset self) s_stats
                                       (Some child_msg)) ;;
      ret (acc_stats ∪ ret_val)
  end.

(** [MixtureSet.__getitem__] for a key that is not negative. *)
Definition getitem (self : MixtureSet) (key : nat)
  : result MixtureSetElement :=
  lw <- log_weights self ;;
  weights <- view (tmap exp lw) [num_mix self; num_comp self] ;;
  mdlset <- mapM (ms_getitem (modelset self))
                 (seq (key * num_comp self) (num_comp self)) ;;
  row <- select weights key ;;
  Return (mkElement (tmap (fun x => x / sum_all weights)%R row) mdlset).

Definition MixtureSet_len (self : MixtureSet) : nat := num_mix self.

End MixtureSet.

Arguments mkModelSet {Stats Model}.
Arguments ms_len {Stats Model}.
Arguments ms_forward {Stats Model}.
Arguments ms_accumulate {Stats Model}.
Arguments ms_getitem {Stats Model}.
Arguments mkMixtureSet {Stats Model}.
Arguments num_mix {Stats Model}.
Arguments num_comp {Stats Model}.
Arguments mix_weights {Stats Model}.
Arguments modelset {Stats Model}.
Arguments cache {Stats Model}.
Arguments mkElement {Model}.
Arguments weights {Model}.
Arguments el_modelset {Model}.
Arguments set_cache {Stats Model}.
Arguments cache_get {Stats Model}.
Arguments MixtureSet_init {Stats Model}.
Arguments log_weights {Stats Model}.
Arguments forward {Stats Model}.
Arguments weighted_lane {Stats Model}.
Arguments accumulate {Stats Model}.
Arguments getitem {Stats Model}.
Arguments MixtureSet_len {Stats Model}.

End Mixture.
Export Mixture.

(** ** beer/models/vae.py *)

Module Vae.

Definition _normal_diag_natural_params (mean var : Tensor) : result Tensor :=
  b <- div mean var ;;
  c <- div (tmap (fun m => - m ^ 2)%R mean) (tmap (fun v => 2 * v)%R var) ;;
  catZ [tmap (fun v => -1 / (2 * v))%R var; b; c;
        tmap (fun v => -0.5 * ln v)%R var] (-1).

Definition _log_likelihood (data means variances : Tensor) : result Tensor :=
  centred <- sub data means ;;
  distance_term <- div (tmap (fun x => 0.5 * x ^ 2)%R centred) variances ;;
  let precision_term := tmap (fun v => 0.5 * ln v)%R variances in
  total <- sub (tmap Ropp distance_term) precision_term ;;
  llh <- sum_dimZ total (-1) ;;
  d <- last_size means ;;
  Return (tmap (fun x => x - 0.5 * INR d * ln (2 * PI))%R llh).

Section VAE.

(** The statistics the latent model hands from [forward] to [accumulate]. *)
Variable LStats : Type.

(** [utils.sample_from_normals] and
    [NormalDiagonalCovariance.sufficient_statistics_from_mean_var] are
    imported by this file; the draws of the first are whatever the sampler
    returns. *)
Variable sample_from_normals : Tensor -> Tensor -> nat -> result Tensor.
Variable sufficient_statistics_from_mean_var :
  Tensor -> Tensor -> result Tensor.

(** The interface of the model of the latent space. *)
Record LatentModel := mkLatent {
  expected_natural_params :
    Tensor -> Tensor -> nat -> result (Tensor * LStats);
  lm_accumulate : LStats -> option Tensor -> result (gmap nat Tensor);
  lm_local_kl_div_posterior_prior : result Tensor
}.

Inductive cacheval :=
| CTensor (t : Tensor)
| CStats (s : LStats).

Record VAE := mkVAE {
  encoder : Tensor -> result (Tensor * Tensor);
  decoder : Tensor -> result (Tensor * Tensor);
  latent_model : LatentModel;
  vcache : gmap string cacheval
}.

Definition set_vcache (key : string) (v : cacheval) : M VAE unit :=
  fun self =>
    (Return tt,
     mkVAE (encoder self) (decoder self) (latent_model self)
           (<[key := v]> (vcache self))).

(** Modelled from the spec: [BayesianModel.clear_cache] is inherited from
    [bayesmodel.py], which is not among these sources; the cache is
    call-scoped and is emptied. *)
Definition clear_cache : M VAE unit :=
  fun self =>
    (Return tt, mkVAE (encoder self) (decoder self) (latent_model self) ∅).

Definition vcache_get (key : string) : M VAE cacheval :=
  fun self =>
    match vcache self !! key with
    | Some v => (Return v, self)
    | None => (Raise KeyError, self)
    end.

Definition _estimate_prior (means variances : Tensor) (nsamples : nat)
  : M VAE Tensor :=
  self <~ get ;;
  r <~ lift (expected_natural_params (latent_model self)
                                     means variances nsamples) ;;
  set_vcache "latent_stats" (CStats r.2) ;;;
  ret r.1.

Definition _compute_local_kl_div (means variances exp_np_params : Tensor)
  : M VAE unit :=
  exp_s_stats <~ lift (sufficient_statistics_from_mean_var means variances) ;;
  nparams <~ lift (_normal_diag_natural_params means variances) ;;
  d <~ lift (sub nparams exp_np_params) ;;
  p <~ lift (mul d exp_s_stats) ;;
  kl <~ lift (sum_dimZ p (-1)) ;;
  set_vcache "kl_divergence" (CTensor kl).

Definition _expected_llh (data means variances : Tensor) (nsamples : nat)
  : M VAE Tensor :=
  self <~ get ;;
  len_data <~ lift (len data) ;;
  samples <~ lift (sample_from_normals means variances nsamples) ;;
  samples <~ lift (view_last samples [nsamples * len_data]) ;;
  dec <~ lift (decoder self samples) ;;
  dec_means <~ lift (view_last dec.1 [nsamples; len_data]) ;;
  dec_variances <~ lift (view_last dec.2 [nsamples; len_data]) ;;
  llh <~ lift (_log_likelihood data dec_means dec_variances) ;;
  lift (mean_dim llh 0).

Definition forward (s_stats : Tensor) (nsamples : nat) : M VAE Tensor :=
  let data := s_stats in
  self <~ get ;;
  enc <~ lift (encoder self data) ;;
  let means := enc.1 in
  let variances := enc.2 in
  exp_np_params <~ _estimate_prior means variances nsamples ;;
  _compute_local_kl_div means variances exp_np_params ;;;
  _expected_llh data means variances nsamples.

Definition local_kl_div_posterior_prior : M VAE Tensor :=
  self <~ get ;;
  v <~ vcache_get "kl_divergence" ;;
  match v with
  | CTensor kl =>
      lkl <~ lift (lm_local_kl_div_posterior_prior (latent_model self)) ;;
      lift (add kl lkl)
  | CStats _ => raise TypeError
  end.

Definition accumulate (parent_msg : option Tensor)
  : M VAE (gmap nat Tensor) :=
  self <~ get ;;
  v <~ vcache_get "latent_stats" ;;
  clear_cache ;;;
  match v with
  | CStats latent_stats =>
      lift (lm_accumulate (latent_model self) latent_stats parent_msg)
  | CTensor _ => raise TypeError
  end.

End VAE.

Arguments mkLatent {LStats}.
Arguments expected_natural_params {LStats}.
Arguments lm_accumulate {LStats}.
Arguments lm_local_kl_div_posterior_prior {LStats}.
Arguments CTensor {LStats}.
Arguments CStats {LStats}.
Arguments mkVAE {LStats}.
Arguments encoder {LStats}.
Arguments decoder {LStats}.
Arguments latent_model {LStats}.
Arguments vcache {LStats}.
Arguments set_vcache {LStats}.
Arguments vcache_get {LStats}.
Arguments clear_cache {LStats}.
Arguments _estimate_prior {LStats}.
Arguments _compute_local_kl_div {LStats}.
Arguments _expected_llh {LStats}.
Arguments forward {LStats}.
Arguments local_kl_div_posterior_prior {LStats}.
Arguments accumulate {LStats}.

End Vae.

(** ** Concrete inputs

    The inputs at which the definitions are run below. *)

Module Samples.

Local Open Scope R_scope.

(** An instance of what is taken from torch, to run definitions that have
    one in scope: the gradient it reports is all ones, the inverse it
    returns is its argument (right for the identity matrix). *)
Definition plain_torch : TorchExt :=
  {| lgamma := fun _ => 0;
     autograd := fun _ t => ones_like t;
     inverse := fun t => Return t |}.

(** A tensor with a populated gradient, and the gradient. *)
Definition used_heap : list TensorObj :=
  [mkObj (vec [0; 0]) (Some 1%nat) true; mkObj (vec [3; 4]) None false].

Section WithTorch.
Context `{TorchExt}.

(** What [DirichletPrior(torch.ones(1))] reads as: one component, natural
    parameter 0, expected log-weight 0. *)
Definition one_component : PriorState :=
  mkPriorState DirichletPrior (vec [0]) (vec [0]).

(** A component set of two models, each scoring every sample 0. *)
Definition two_models : BayesianModelSet nat nat :=
  mkModelSet 2%nat
    (fun batch => Return (zeros [batch; 2%nat]))
    (fun _ _ => Return ∅)
    (fun i => if (i <? 2)%nat then Return i else Raise IndexError).

(** Two mixtures of one component each, as
    [MixtureSet.create(two_models, torch.ones(2, 1))] builds them. *)
Definition two_mixtures : MixtureSet nat nat :=
  mkMixtureSet 2%nat 1%nat
    [mkParam 0 one_component one_component (zeros [1%nat]);
     mkParam 1 one_component one_component (zeros [1%nat])]
    two_models ∅.

(** What [DirichletPrior(torch.ones(2))] reads as: two components,
    natural parameters 0, expected log-weights [digamma(1) - digamma(2)],
    which is -1. *)
Definition two_components : PriorState :=
  mkPriorState DirichletPrior (vec [0; 0]) (vec [-1; -1]).

(** One mixture of the two models. *)
Definition one_mixture : MixtureSet nat nat :=
  mkMixtureSet 1%nat 2%nat
    [mkParam 0 two_components two_components (zeros [2%nat])]
    two_models ∅.

(** The same after [forward] on one sample: with one component per
    mixture every responsibility is 1. *)
Definition fed_mixtures : MixtureSet nat nat :=
  set_cache two_mixtures "resps" (mkTensor [1; 2; 1]%nat [1; 1]).

End WithTorch.

(** Expected sufficient statistics [(x^2, x, 1, 1)] of a diagonal Normal
    with the given mean and variance. *)
Definition normal_stats (mean var : Tensor) : result Tensor :=
  a <- add (tmap (fun x => x ^ 2) mean) var ;;
  catZ [a; mean; ones_like mean; ones_like mean] (-1).

(** A sampler whose every draw is the mean. *)
Definition mean_sampler (means variances : Tensor) (nsamples : nat)
  : result Tensor :=
  Return (tabulate (nsamples :: shape means)
            (fun idx => item means (tail idx))).

(** A latent model whose prior is the Normal of mean 1 and variance 1,
    given by its natural parameters [(-1/2, 1, -1/2, 0)]. *)
Definition shifted_latent : Vae.LatentModel unit :=
  Vae.mkLatent
    (fun _ _ _ => Return (mkTensor [1%nat; 4%nat] [-1/2; 1; -1/2; 0], tt))
    (fun _ _ => Return ∅)
    (Return (mkTensor [] [0])).

(** One scalar sample; the encoder and the decoder both answer with the
    Normal of mean 0 and variance 1. *)
Definition unit_vae : Vae.VAE unit :=
  Vae.mkVAE
    (fun _ => Return (mkTensor [1%nat; 1%nat] [0],
                      mkTensor [1%nat; 1%nat] [1]))
    (fun _ => Return (mkTensor [1%nat; 1%nat] [0],
                      mkTensor [1%nat; 1%nat] [1]))
    shifted_latent ∅.

End Samples.

(** ** beer/utils.py: one-hot encoding *)

Module UtilsIndex.

(** [torch.range(start, end)]: the integers from [start] to [end], both
    included; torch refuses [end < start]. *)
Definition torch_range (start stop : Z) : result (list Z) :=
  if (stop <? start)%Z then Raise RuntimeError
  else Return (map (fun k => (start + Z.of_nat k)%Z)
                   (seq 0 (Z.to_nat (stop - start + 1)))).

(** [t[idx] = v] for one entry. *)
Definition set_item (t : Tensor) (idx : list nat) (v : R) : Tensor :=
  mkTensor (shape t) (<[ravel (shape t) idx := v]> (storage t)).

(** One assignment of [retval[idxs, labels] = 1]: entry [(i, l)] of the
    matrix is set; an index counts from the end when negative and is
    refused outside its axis. *)
Definition put_one (retval : Tensor) (il : Z * Z) : result Tensor :=
  match shape retval with
  | [n; m] =>
      i <- norm_dim n il.1 ;;
      l <- norm_dim m il.2 ;;
      Return (set_item retval [i; l] 1%R)
  | _ => Raise IndexError
  end.

(** A Python integer that fits a 64-bit index. *)
Definition fits_int64 (l : Z) : bool :=
  (- 2 ^ 63 <=? l)%Z && (l <? 2 ^ 63)%Z.

(** The list [labels] used as an index is first converted to a tensor of
    64-bit integers; torch refuses an integer outside that range
    (overflow when unpacking) before it looks at any axis. *)
Definition as_index (labels : list Z) : result (list Z) :=
  if forallb fits_int64 labels then Return labels else Raise RuntimeError.

(** [onehot(labels, max_label, dtype, device)]: the two index sequences of
    [retval[idxs, labels] = 1] have one length, and entry
    [(idxs[k], labels[k])] is set for every [k]. *)
Definition onehot (labels : list Z) (max_label : nat) : result Tensor :=
  let retval := zeros [length labels; max_label] in
  idxs <- torch_range 0 (Z.of_nat (length labels) - 1) ;;
  labels <- as_index labels ;;
  foldM put_one retval (zip idxs labels).

End UtilsIndex.
Export UtilsIndex.

(** ** beer/utils.py: symmetric matrices *)

Module UtilsMatrix.

(** [mat.t()]: the transpose of a matrix; a tensor with fewer axes is
    returned as it is, one with more is refused. *)
Definition tensor_t (mat : Tensor) : result Tensor :=
  match shape mat with
  | [n; m] =>
      Return (tabulate [m; n] (fun idx => item mat [ix idx 1; ix idx 0]))
  | [] | [_] => Return mat
  | _ => Raise RuntimeError
  end.

(** [symmetrize_matrix(mat)] *)
Definition symmetrize_matrix (mat : Tensor) : result Tensor :=
  tr <- tensor_t mat ;;
  s <- add mat tr ;;
  Return (smul 0.5 s).

(** [torch.diag(v)]: the diagonal matrix of a vector, the diagonal of a
    matrix. *)
Definition diag (v : Tensor) : result Tensor :=
  match shape v with
  | [n] =>
      Return (tabulate [n; n]
                (fun idx => if ix idx 0 =? ix idx 1 then item v [ix idx 0]
                            else 0%R))
  | [n; m] =>
      Return (tabulate [n `min` m] (fun idx => item v [ix idx 0; ix idx 0]))
  | _ => Raise RuntimeError
  end.

(** [torch.where(t < threshold, threshold, t)] for a threshold that is one
    number. *)
Definition clamp_below (threshold : R) (t : Tensor) : Tensor :=
  tmap (fun x => if Rlt_dec x threshold then threshold else x) t.

Section MakeSymposdef.

(** [torch.symeig(mat, eigenvectors=True)]: the eigenvalues and the
    eigenvectors torch computes for a symmetric matrix. *)
Variable symeig : Tensor -> result (Tensor * Tensor).

(** [make_symposdef(mat, eval_threshold)] *)
Definition make_symposdef (mat : Tensor) (eval_threshold : R)
  : result Tensor :=
  sym_mat <- symmetrize_matrix mat ;;
  ee <- symeig sym_mat ;;
  let evals := ee.1 in
  let evecs := ee.2 in
  let new_evals := clamp_below eval_threshold evals in
  d <- diag new_evals ;;
  vd <- matmul evecs d ;;
  vt <- tensor_t evecs ;;
  r <- matmul vd vt ;;
  view r (shape mat).

End MakeSymposdef.

End UtilsMatrix.
Export UtilsMatrix.

(** ** beer/expfamilyprior.py: log-normalizers *)

Module LogNormalizers.

Section WithTorch.
Context `{TorchExt}.

(** [_normalgamma_log_norm]: the four rows of [natural_params.view(4, -1)]
    are unpacked, and [+=] adds in place to a tensor of the same shape. *)
Definition _normalgamma_log_norm (natural_params : Tensor) : result R :=
  v <- view_last natural_params [4] ;;
  r <- rows v ;;
  match r with
  | [np1; np2; np3; np4] =>
      let lognorm := tmap (fun x => lgamma (0.5 * (x + 1)))%R np4 in
      lognorm <- add lognorm (tmap (fun x => -0.5 * ln x)%R np3) ;;
      q <- div (tmap (fun x => x ^ 2)%R np2) np3 ;;
      d <- sub np1 q ;;
      s <- mul (tmap (fun x => -0.5 * (x + 1))%R np4)
               (tmap (fun x => ln (0.5 * x))%R d) ;;
      lognorm <- add lognorm s ;;
      Return (sum_all lognorm)
  | _ => Raise ValueError
  end.

(** [_gamma_log_norm] *)
Definition _gamma_log_norm (natural_params : Tensor) : result Tensor :=
  a <- select natural_params 0 ;;
  let lg := tmap (fun x => lgamma (x + 1))%R a in
  a' <- select natural_params 0 ;;
  b <- select natural_params 1 ;;
  m <- mul (tmap (fun x => x + 1)%R a') (tmap (fun x => ln (- x))%R b) ;;
  sub lg m.

(** [_matrixnormal_fc_log_norm]: its [return] statement is a comment. *)
Definition _matrixnormal_fc_log_norm (natural_params : list R)
  (dim1 dim2 : nat) : result pyval :=
  r <- _matrixnormal_fc_split_nparams natural_params dim1 dim2 ;;
  p <- unpack2 r ;;
  np1 <- as_tensor p.1 ;;
  inv_np1 <- inverse np1 ;;
  Return PyNone.

End WithTorch.

(** The tensor [NormalGammaPrior] builds before it falls off its end. *)
Definition NormalGamma_natural_params (mean precision : Tensor)
  (prior_counts : R) : result Tensor :=
  let n_mean := mean in
  let n_precision := smul prior_counts (ones_like n_mean) in
  let g_shapes := tmap (fun x => x * prior_counts)%R precision in
  let g_rates := prior_counts in
  t1 <- mul n_precision (tmap (fun x => x ^ 2)%R n_mean) ;;
  t2 <- mul n_precision n_mean ;;
  cat [tmap (fun x => x + 2 * g_rates)%R t1; t2; n_precision;
       tmap (fun x => 2 * x - 1)%R g_shapes] 0.

(** The tensor [GammaPrior] builds before it falls off its end. *)
Definition Gamma_natural_params (shape_ rate : Tensor) : result Tensor :=
  cat [tmap (fun x => x - 1)%R shape_; tmap Ropp rate] 0.

End LogNormalizers.
Export LogNormalizers.

(** ** beer/models: precision and device conversions *)

Module Conversions.

(** [prior.name()] on a prior object, for a name other than its two
    private fields: the attribute is looked up on the class before
    anything is called.  Of the names the class body defines, the two
    properties yield a tensor, which cannot be called, and the methods
    want an argument. *)
Definition prior_call (p : PriorState) (name : string) : result PriorState :=
  f <- class_getattr name ;;
  Raise TypeError.

(** [BayesianParameter.float_], [double_] and [to_]: each asks the prior
    and the posterior for the method of the same name without the
    underscore; the natural gradient holds the same numbers afterwards. *)
Definition BayesianParameter_convert_ (name : string)
  (self : BayesianParameter) : result BayesianParameter :=
  prior' <- prior_call (prior self) name ;;
  posterior' <- prior_call (posterior self) name ;;
  Return (mkParam (ident self) prior' posterior' (natural_grad self)).

Definition BayesianParameter_float_ := BayesianParameter_convert_ "float".
Definition BayesianParameter_double_ := BayesianParameter_convert_ "double".
Definition BayesianParameter_to_ := BayesianParameter_convert_ "to".

(** Names an instance of [BayesianParameter] answers to: the three fields
    [__init__] sets and the names of the class body. *)
Definition BayesianParameter_attrs : list string :=
  ["prior"; "posterior"; "natural_grad"; "__init__"; "__hash__";
   "expected_value"; "zero_natural_grad"; "kl_div"; "float_"; "double_";
   "to_"]%string.

(** [param.name]: attribute lookup on a parameter. *)
Definition param_getattr (name : string) : result pyval :=
  if bool_decide (name ∈ BayesianParameter_attrs)
  then Return (PyMethod name)
  else Raise AttributeError.

(** [BayesianParameterSet.float_], [double_] and [to_]: a loop that calls
    [param.float()], [param.double()] and [param.to(device)]; none of
    these is a name the loop's lookup finds, and a field or a method of
    another signature would not take the call. *)
Definition BayesianParameterSet_convert_ (name : string)
  (ps : list BayesianParameter) : result unit :=
  foldM (fun _ param => f <- param_getattr name ;; Raise TypeError) tt ps.

Definition BayesianParameterSet_float_ :=
  BayesianParameterSet_convert_ "float".
Definition BayesianParameterSet_double_ :=
  BayesianParameterSet_convert_ "double".
Definition BayesianParameterSet_to_ := BayesianParameterSet_convert_ "to".

Section MixtureSet.
Context {Stats Model : Type}.

(** [self.modelset.double()] and the like belong to the component set. *)
Variable modelset_convert :
  string -> BayesianModelSet Stats Model
  -> result (BayesianModelSet Stats Model).

(** [MixtureSet.double], [float] and [to]: the converted priors, the
    converted posteriors and the converted component set are computed in
    this order and handed to [__init__]; [base] is where the identities of
    the new weight parameters start. *)
Definition MixtureSet_convert (name : string) (base : nat)
  (self : MixtureSet Stats Model) : result (MixtureSet Stats Model) :=
  priors <- mapM (fun weight_param => prior_call (prior weight_param) name)
                 (mix_weights self) ;;
  posteriors <-
    mapM (fun weight_param => prior_call (posterior weight_param) name)
         (mix_weights self) ;;
  mdls <- modelset_convert name (modelset self) ;;
  MixtureSet_init base priors posteriors mdls.

Definition MixtureSet_double := MixtureSet_convert "double".
Definition MixtureSet_float := MixtureSet_convert "float".
Definition MixtureSet_to := MixtureSet_convert "to".

End MixtureSet.

End Conversions.
Export Conversions.

(** ** beer/nnet/neuralnetwork.py *)

Module NeuralNetwork.
Import Stdlib.Strings.Ascii.

(** *** Python strings

    A string is the sequence of its characters; the characters are the
    first 256 code points. *)

(** [c.isspace()] *)
Definition is_space (c : ascii) : bool :=
  let n := nat_of_ascii c in
  ((9 <=? n) && (n <=? 13)) || ((28 <=? n) && (n <=? 32))
  || (n =? 133) || (n =? 160).

(** [c in s] for one character. *)
Fixpoint contains (c : ascii) (s : string) : bool :=
  match s with
  | EmptyString => false
  | String x s' => Ascii.eqb x c || contains c s'
  end.

Fixpoint lstrip (s : string) : string :=
  match s with
  | EmptyString => EmptyString
  | String c s' => if is_space c then lstrip s' else s
  end.

Fixpoint rstrip (s : string) : string :=
  match s with
  | EmptyString => EmptyString
  | String c s' =>
      match rstrip s' with
      | EmptyString => if is_space c then EmptyString else String c EmptyString
      | r => String c r
      end
  end.

(** [s.strip()] *)
Definition strip (s : string) : string := rstrip (lstrip s).

(** [s.split(sep)] for a separator of one character: there is always a
    first piece. *)
Fixpoint split (sep : ascii) (s : string) : list string :=
  match s with
  | EmptyString => [EmptyString]
  | String c s' =>
      if Ascii.eqb c sep then EmptyString :: split sep s'
      else match split sep s' with
           | piece :: rest => String c piece :: rest
           | [] => [String c EmptyString]
           end
  end.

(** [sep.join(pieces)] *)
Fixpoint join (sep : ascii) (pieces : list string) : string :=
  match pieces with
  | [] => EmptyString
  | [p] => p
  | p :: rest => p +:+ String sep (join sep rest)
  end.

(** [s.count(c)] for one character. *)
Fixpoint count (c : ascii) (s : string) : nat :=
  match s with
  | EmptyString => 0
  | String x s' => (if Ascii.eqb x c then 1 else 0) + count c s'
  end.

(** [dict(pairs)] for string keys. *)
Definition kwargs_of (pairs : list (string * string)) : gmap string string :=
  foldl (fun m kv => <[kv.1 := kv.2]> m) ∅ pairs.

(** A text free of [:], [;] and [=]. *)
Definition plain (s : string) : Prop :=
  contains ":" s = false /\ contains ";" s = false /\ contains "=" s = false.

(** The text of an element: the name, a colon, and the [key=value]
    arguments with [;] between them, which is how
    [parse_nnet_element] takes a string apart. *)
Definition element_text (name : string) (kvs : list (string * string))
  : string :=
  name +:+ String ":" (join ";" (map (fun kv => kv.1 +:+ String "=" kv.2) kvs)).

(** *** parse_nnet_element *)

Definition parse_nnet_element (strval : string)
  : result (string * gmap string string) :=
  let str_kwargs : gmap string string := ∅ in
  if contains ":" strval then
    match split ":" (strip strval) with
    | [function_name; args_and_vals] =>
        str_kwargs <-
          foldM (fun str_kwargs arg_and_val =>
                   match split "=" arg_and_val with
                   | [argname; str_argval] =>
                       Return (<[argname := str_argval]> str_kwargs)
                   | _ => Raise ValueError
                   end)
                str_kwargs (split ";" args_and_vals) ;;
        Return (function_name, str_kwargs)
    | _ => Raise ValueError
    end
  else
    let function_name := strval in
    Return (function_name, str_kwargs).

(** *** Layers

    A layer maps a tensor to a tensor or raises. *)

(** [a += b]: the sum has to have the shape of [a]. *)
Definition iadd (a b : Tensor) : result Tensor :=
  sh <- broadcast_shapes (shape a) (shape b) ;;
  if bool_decide (sh = shape a) then add a b else Raise RuntimeError.

(** [ReshapeLayer.forward] for a shape that names every size: the sizes
    are unpacked into [view].  A tensor of this development is contiguous,
    so [view] has no layout to refuse. *)
Definition ReshapeLayer_forward (shape_ : list nat) (data : Tensor)
  : result Tensor :=
  view_star data shape_.


(** *** Tensor objects

    [MergeTransform.forward] adds in place, so it matters which tensors
    share their entries.  A tensor object is a shape over a storage, a
    store holds the storages, and two objects over one storage see each
    other's updates. *)

Record TensorRef := mkRef { cell : nat; ref_shape : list nat }.

(** The tensor an object denotes in a store. *)
Definition tensor_of (st : list (list R)) (r : TensorRef) : Tensor :=
  mkTensor (ref_shape r) (default [] (st !! cell r)).

(** A new tensor has a storage of its own. *)
Definition new_tensor (t : Tensor) : M (list (list R)) TensorRef :=
  fun st => (Return (mkRef (length st) (shape t)), st ++ [storage t]).

(** [a += b] on objects: the sum, which has to have the shape of [a], is
    written into the storage of [a]; both operands are read first. *)
Definition iadd_ (a b : TensorRef) : M (list (list R)) unit :=
  fun st =>
    match iadd (tensor_of st a) (tensor_of st b) with
    | Return r => (Return tt, <[cell a := storage r]> st)
    | Raise e => (Raise e, st)
    end.

(** A layer that computes a new tensor from the value of its input, as
    [torch.nn.Linear] or an activation function does. *)
Definition fresh_layer (f : Tensor -> result Tensor)
  : TensorRef -> M (list (list R)) TensorRef :=
  fun x st =>
    match f (tensor_of st x) with
    | Return y => new_tensor y st
    | Raise e => (Raise e, st)
    end.

(** [ReshapeLayer] as a layer: the view it returns is another object over
    the storage of its input. *)
Definition ReshapeLayer_layer (shape_ : list nat)
  : TensorRef -> M (list (list R)) TensorRef :=
  fun x st =>
    match ReshapeLayer_forward shape_ (tensor_of st x) with
    | Return r => (Return (mkRef (cell x) (shape r)), st)
    | Raise e => (Raise e, st)
    end.

(** A [for] loop of stateful steps. *)
Fixpoint forM_ {S A} (f : A -> M S unit) (l : list A) : M S unit :=
  match l with
  | [] => ret tt
  | x :: l' => f x ;;; forM_ f l'
  end.

(** [MergeTransform.forward] on the tuple of its inputs: [retval] is the
    object the first transform returned, every further output is added
    into it in place, and [zip] stops at the shorter of the remaining
    inputs and the remaining transforms. *)
Definition MergeTransform_forward
  (transforms : list (TensorRef -> M (list (list R)) TensorRef))
  (inputs : list TensorRef) : M (list (list R)) TensorRef :=
  match transforms, inputs with
  | [], _ => raise IndexError
  | _, [] => raise IndexError
  | transform0 :: transforms', input0 :: inputs' =>
      retval <~ transform0 input0 ;;
      forM_ (fun it => y <~ it.2 it.1 ;; iadd_ retval y)
            (zip inputs' transforms') ;;;
      ret retval
  end.

End NeuralNetwork.
Export NeuralNetwork.

(** ** binary32: one lane of [MixtureSet.forward] with rounding

    torch's default tensors hold binary32 numbers and every operation
    rounds its result.  This module follows the computation of the
    responsibilities of one sample and one mixture with that rounding.  A
    binary32 number is the real number it denotes; an addition or a
    subtraction returns the binary32 number nearest the exact result, ties
    going to the even significand; [exp] and [log] are what the platform's
    library computes and are parameters.  Only finite results are
    modelled: nothing here overflows. *)

Module Binary32.
Local Open Scope R_scope.

(** The binade of [x]: the integer [b] with [2^b <= |x| < 2^(b+1)]. *)
Definition binade (x : R) : Z := Zfloor (ln (Rabs x) / ln 2).

(** binary32 numbers around [x] are [2^(quantum x)] apart: 24 significant
    bits, and no exponent below that of the subnormal numbers. *)
Definition quantum (x : R) : Z := Z.max (binade x - 23) (-149).

(** The integer nearest [t]; halfway between two, the even one. *)
Definition nearest_even (t : R) : Z :=
  let f := Zfloor t in
  if Rlt_dec (t - IZR f) (1 / 2) then f
  else if Rlt_dec (1 / 2) (t - IZR f) then (f + 1)%Z
  else if Z.even f then f else (f + 1)%Z.

(** Rounding to nearest, ties to even. *)
Definition round32 (x : R) : R :=
  let q := powerRZ 2 (quantum x) in
  IZR (nearest_even (x / q)) * q.

(** [x] is a binary32 number: a multiple of the spacing at [x]. *)
Definition binary32 (x : R) : Prop :=
  exists n : Z, x = IZR n * powerRZ 2 (quantum x).

(** The arithmetic of one lane of [MixtureSet.forward], for a rounding
    [rnd] of the result of every addition and subtraction and a library's
    [fexp] and [flog]. *)
Section Lane.
Variable rnd : R -> R.
Variables fexp flog : R -> R.

(** [x + y] and [x - y]. *)
Definition fadd (x y : R) : R := rnd (x + y).
Definition fsub (x y : R) : R := rnd (x - y).

(** [t.sum(dim)] along a lane, entry after entry; for a lane of two
    entries this is the one rounded addition, whatever the order. *)
Definition fsum (l : list R) : R := foldl fadd 0 l.

(** [logsumexp(tensor, dim=-1)] on one lane of [tensor]. *)
Definition lane_logsumexp (tensor : list R) : R :=
  let tmax := list_max tensor in
  let total := fsum (map (fun x => fexp (fsub x tmax)) tensor) in
  fadd tmax (flog total).

(** The responsibilities [MixtureSet.forward] caches for one sample and
    one mixture, from the expected log-likelihoods of its components and
    their expected log-weights. *)
Definition lane_responsibilities (pc_exp_llhs log_weights : list R)
  : list R :=
  let w_pc_exp_llhs := zip_with fadd pc_exp_llhs log_weights in
  let log_norm := lane_logsumexp w_pc_exp_llhs in
  let log_resps := map (fun x => fsub x log_norm) w_pc_exp_llhs in
  map fexp log_resps.

End Lane.

(** The lane in binary32: every operation rounds to nearest. *)
Definition responsibilities32 (fexp flog : R -> R)
  (pc_exp_llhs log_weights : list R) : list R :=
  lane_responsibilities round32 fexp flog pc_exp_llhs log_weights.

(** What is assumed of the library's [exp] and [log]: the exact values 1
    at 0, and a relative error of at most [2^-20], eight units in the last
    place of a binary32 number, where the result is far from underflow
    and overflow. *)
Definition accurate_exp (fexp : R -> R) : Prop :=
  fexp 0 = 1
  /\ forall x, binary32 x -> -64 <= x <= 64 ->
       Rabs (fexp x - exp x) <= exp x / 2 ^ 20.

Definition accurate_log (flog : R -> R) : Prop :=
  forall x, binary32 x -> 1 <= x <= 2 ->
    Rabs (flog x - ln x) <= ln x / 2 ^ 20.

End Binary32.

(** * Properties *)

(** Evaluate the list and shape structure of a closed run, leaving the
    arithmetic on reals as written. *)
Ltac run :=
  cbv -[Rplus Rmult Rminus Ropp Rinv Rdiv IZR pow exp ln INR Rmax PI
        lgamma autograd inverse].

(** The same with finite maps left as written. *)
Ltac run_maps :=
  cbv -[Rplus Rmult Rminus Ropp Rinv Rdiv IZR pow exp ln INR Rmax PI
        lgamma autograd inverse map_insert gmap_lookup gmap_empty
        map_union].

(** Shapes that fit, for concrete ranks. *)
Ltac solve_fits :=
  unfold fits;
  repeat (apply List.Forall2_cons; [first [by left | by right]|]);
  apply List.Forall2_nil.

(** ** Tensors: indexing a tabulated tensor *)

Module TorchFacts.

Lemma valid_length idx sh : valid idx sh -> length idx = length sh.
Proof. apply Forall2_length. Qed.

Lemma ravel_lt idx sh : valid idx sh -> ravel sh idx < numel sh.
Proof.
  induction 1 as [|i d idx sh Hi _ IH]; simpl; [lia|].
  unfold numel in *. nia.
Qed.

Lemma unravel_ravel idx sh : valid idx sh -> unravel sh (ravel sh idx) = idx.
Proof.
  induction 1 as [|i d idx sh Hi Hv IH]; simpl; [done|].
  pose proof (ravel_lt _ _ Hv) as Hlt.
  assert (Hn : numel sh <> 0) by lia.
  assert (Hq : (i * numel sh + ravel sh idx) / numel sh = i).
  { rewrite Nat.div_add_l, Nat.div_small by done. lia. }
  assert (Hr : (i * numel sh + ravel sh idx) mod numel sh = ravel sh idx).
  { rewrite Nat.add_comm, Nat.Div0.mod_add. by apply Nat.mod_small. }
  by rewrite Hq, Hr, IH.
Qed.

Lemma nth_tabulate (f : nat -> R) n k :
  k < n -> nth k (map f (seq 0 n)) 0%R = f k.
Proof.
  intros Hk.
  rewrite (nth_indep _ 0%R (f 0)) by (rewrite length_map, length_seq; lia).
  rewrite (map_nth f (seq 0 n) 0 k), seq_nth by done. done.
Qed.

Lemma item_tabulate sh f idx :
  valid idx sh -> item (tabulate sh f) idx = f idx.
Proof.
  intros Hv. unfold item, tabulate. simpl.
  rewrite nth_tabulate by (by apply ravel_lt).
  by rewrite unravel_ravel.
Qed.

Lemma wf_tabulate sh f : wf (tabulate sh f).
Proof. unfold wf, tabulate. simpl. by rewrite length_map, length_seq. Qed.

Lemma shape_tabulate sh f : shape (tabulate sh f) = sh.
Proof. done. Qed.

Lemma item_tmap f t idx :
  wf t -> valid idx (shape t) -> item (tmap f t) idx = f (item t idx).
Proof.
  intros Hwf Hv. unfold item, tmap. simpl.
  pose proof (ravel_lt _ _ Hv) as Hlt. rewrite <- Hwf in Hlt.
  rewrite (nth_indep _ 0%R (f 0%R)) by (by rewrite length_map).
  apply map_nth.
Qed.

Lemma wf_tmap f t : wf t -> wf (tmap f t).
Proof. unfold wf, tmap. simpl. by rewrite length_map. Qed.

(** *** Broadcasting *)

Lemma fits_refl a : fits a a.
Proof. unfold fits. induction a; constructor; auto. Qed.

Lemma broadcast_rev_fits_r b a :
  fits b a -> broadcast_rev a b = Return a.
Proof.
  induction 1 as [|y x b a Hxy _ IH]; simpl; [done|].
  rewrite IH. simpl.
  destruct (x =? y) eqn:E; [done|].
  apply Nat.eqb_neq in E.
  destruct Hxy as [->| ->]; [done|].
  destruct (x =? 1) eqn:E1; [apply Nat.eqb_eq in E1; lia|done].
Qed.

Lemma broadcast_rev_fits_l b a :
  fits b a -> broadcast_rev b a = Return a.
Proof.
  induction 1 as [|y x b a Hxy _ IH]; simpl; [done|].
  rewrite IH. simpl.
  destruct (y =? x) eqn:E; [by apply Nat.eqb_eq in E; subst|].
  apply Nat.eqb_neq in E.
  destruct Hxy as [->| ->]; done.
Qed.

Lemma broadcast_shapes_fits_r b a :
  fits b a -> broadcast_shapes a b = Return a.
Proof.
  intros Hf. unfold broadcast_shapes.
  rewrite broadcast_rev_fits_r by (by apply Forall2_reverse).
  simpl. by rewrite reverse_involutive.
Qed.

Lemma broadcast_shapes_fits_l b a :
  fits b a -> broadcast_shapes b a = Return a.
Proof.
  intros Hf. unfold broadcast_shapes.
  rewrite broadcast_rev_fits_l by (by apply Forall2_reverse).
  simpl. by rewrite reverse_involutive.
Qed.

Lemma broadcast_shapes_refl a : broadcast_shapes a a = Return a.
Proof. apply broadcast_shapes_fits_r, fits_refl. Qed.

(** Reading an operand that fits at an output index. *)
Lemma bidx_fits b a idx :
  fits b a -> valid idx a ->
  valid (bidx b idx) b
  /\ bidx b idx = zip_with clamp b idx.
Proof.
  intros Hf Hv. unfold bidx.
  rewrite (Forall2_length _ _ _ Hv), (Forall2_length _ _ _ Hf).
  rewrite Nat.sub_diag, drop_0. split; [|done].
  revert idx Hv. induction Hf as [|y x b a Hxy _ IH]; intros idx Hv.
  - inversion Hv; subst. constructor.
  - inversion Hv as [|i ? idx' ? Hi Hv']; subst. simpl. constructor.
    + unfold clamp.
      destruct (y =? 1) eqn:E; [apply Nat.eqb_eq in E; lia|].
      apply Nat.eqb_neq in E. lia.
    + by apply IH.
Qed.

Lemma bidx_same a idx : valid idx a -> bidx a idx = idx.
Proof.
  intros Hv. destruct (bidx_fits a a idx (fits_refl a) Hv) as [_ ->].
  induction Hv as [|i d idx a Hi _ IH]; simpl; [done|].
  rewrite IH. unfold clamp. destruct (d =? 1) eqn:E; [|done].
  apply Nat.eqb_eq in E. f_equal. lia.
Qed.

Lemma map2_Return f a b t :
  map2 f a b = Return t ->
  exists sh, broadcast_shapes (shape a) (shape b) = Return sh
             /\ t = tabulate sh (fun i =>
                      f (item a (bidx (shape a) i)) (item b (bidx (shape b) i))).
Proof.
  unfold map2. destruct (broadcast_shapes _ _) as [sh|]; simpl; [|done].
  intros [= <-]. eauto.
Qed.

(** An operand that fits the other one leaves its shape unchanged. *)
Lemma map2_fits_r f a b :
  fits (shape b) (shape a) ->
  map2 f a b = Return (tabulate (shape a) (fun i =>
                  f (item a (bidx (shape a) i)) (item b (bidx (shape b) i)))).
Proof. intros Hf. unfold map2. by rewrite broadcast_shapes_fits_r. Qed.

Lemma map2_fits_l f a b :
  fits (shape a) (shape b) ->
  map2 f a b = Return (tabulate (shape b) (fun i =>
                  f (item a (bidx (shape a) i)) (item b (bidx (shape b) i)))).
Proof. intros Hf. unfold map2. by rewrite broadcast_shapes_fits_l. Qed.

(** *** Sums *)

Lemma Rsum_zero (f : nat -> R) l :
  (forall k, f k = 0%R) -> Rsum (map f l) = 0%R.
Proof.
  intros Hf. induction l as [|k l IH]; simpl; [done|].
  rewrite Hf, IH. lra.
Qed.

Lemma Rsum_ext (f g : nat -> R) l :
  (forall k, In k l -> f k = g k) -> Rsum (map f l) = Rsum (map g l).
Proof.
  induction l as [|k l IH]; intros Hfg; simpl; [done|].
  rewrite Hfg by (by left). rewrite IH; [done|].
  intros j Hj. apply Hfg. by right.
Qed.

Lemma Rsum_scale (c : R) l :
  Rsum (map (fun x => x / c)%R l) = (Rsum l / c)%R.
Proof.
  induction l as [|x l IH]; simpl; [lra|].
  rewrite IH. lra.
Qed.

End TorchFacts.

(** ** Tensors: reductions and reshaping *)

Module ReduceFacts.
Import TorchFacts.

Lemma map_fmap {A B} (f : A -> B) (l : list A) : map f l = f <$> l.
Proof. induction l as [|x l IH]; simpl; [done|]. by rewrite IH. Qed.

Lemma clamp_lt d i : i < d -> clamp d i = i.
Proof.
  unfold clamp. intros Hi. destruct (d =? 1) eqn:E; [|done].
  apply Nat.eqb_eq in E. lia.
Qed.

Lemma bidx3 a b c s m k :
  bidx [a; b; c] [s; m; k] = [clamp a s; clamp b m; clamp c k].
Proof. reflexivity. Qed.

Lemma valid3 B M C s m k :
  s < B -> m < M -> k < C -> valid [s; m; k] [B; M; C].
Proof. intros. repeat constructor; done. Qed.

Lemma item3_tabulate B M C f s m k :
  s < B -> m < M -> k < C -> item (tabulate [B; M; C] f) [s; m; k] = f [s; m; k].
Proof. intros. by apply item_tabulate, valid3. Qed.

Lemma view_Return t sh r :
  view t sh = Return r ->
  r = mkTensor sh (storage t) /\ numel sh = numel (shape t).
Proof.
  unfold view. destruct (numel sh =? numel (shape t)) eqn:E; [|done].
  intros [= <-]. split; [done|]. by apply Nat.eqb_eq.
Qed.

Lemma view_infer_Return t rest r :
  view_infer t rest = Return r ->
  numel rest <> 0
  /\ numel (shape t) = numel (shape t) / numel rest * numel rest
  /\ r = mkTensor (numel (shape t) / numel rest :: rest) (storage t).
Proof.
  unfold view_infer.
  destruct (numel rest =? 0) eqn:E0; simpl; [done|].
  destruct (numel (shape t) mod numel rest =? 0) eqn:Em; simpl; [|done].
  intros [= <-]. apply Nat.eqb_neq in E0. apply Nat.eqb_eq in Em.
  split; [done|]. split; [|done].
  pose proof (Nat.div_mod_eq (numel (shape t)) (numel rest)). lia.
Qed.

Lemma sum_dim_keep_eq t d :
  d < length (shape t) ->
  sum_dim_keep t d
  = Return (tabulate (<[d:=1]> (shape t))
              (fun idx => Rsum (lane t d (delete d idx)))).
Proof.
  intros Hd. unfold sum_dim_keep.
  by destruct (Nat.ltb_spec d (length (shape t))); [|lia].
Qed.

Lemma sum_dim_eq t d :
  d < length (shape t) ->
  sum_dim t d
  = Return (tabulate (delete d (shape t)) (fun idx => Rsum (lane t d idx))).
Proof.
  intros Hd. unfold sum_dim.
  by destruct (Nat.ltb_spec d (length (shape t))); [|lia].
Qed.

Lemma max_dim_keep_eq t d n :
  shape t !! d = Some (S n) ->
  max_dim_keep t d
  = Return (tabulate (<[d:=1]> (shape t))
              (fun idx => list_max (lane t d (delete d idx)))).
Proof. intros Hd. unfold max_dim_keep. by rewrite Hd. Qed.

(** The log-sum-exp over the last axis of a rank-3 tensor: the axis is
    not empty, and entry [(s, m)] is the stable log-sum-exp of the lane
    [w[s, m, :]]. *)
Lemma logsumexp_last3 (w lse : Tensor) B M C :
  shape w = [B; M; C] ->
  logsumexp w (-1) = Return lse ->
  C <> 0 /\ shape lse = [B; M]
  /\ forall s m, s < B -> m < M ->
       item lse [s; m] = stable_logsumexp (lane3 w C s m).
Proof.
  intros Hsh. unfold logsumexp, sub, add. rewrite Hsh.
  change (norm_dim (length [B; M; C]) (-1)) with (Return (A:=nat) 2).
  cbn [bind].
  destruct C as [|C'] eqn:EC.
  { unfold max_dim_keep. by rewrite Hsh. }
  rewrite <- EC in *.
  rewrite (max_dim_keep_eq w 2 C') by (by rewrite Hsh, EC).
  rewrite Hsh. change (<[2:=1]> [B; M; C]) with [B; M; 1].
  set (tmax := tabulate [B; M; 1] _). cbn [bind].
  rewrite (map2_fits_r Rminus w tmax)
    by (rewrite Hsh; solve_fits).
  rewrite Hsh. cbn [bind].
  set (centred := tabulate [B; M; C] _).
  rewrite sum_dim_keep_eq by (simpl; lia).
  change (shape (tmap exp centred)) with [B; M; C].
  change (<[2:=1]> [B; M; C]) with [B; M; 1].
  set (total := tabulate [B; M; 1] _). cbn [bind].
  rewrite (map2_fits_r Rplus tmax (tmap ln total)) by apply fits_refl.
  change (shape tmax) with [B; M; 1].
  change (shape (tmap ln total)) with [B; M; 1].
  set (retval := tabulate [B; M; 1] _). cbn [bind].
  change (delete 2 [B; M; C]) with [B; M]. cbn [view_star].
  intros Hv. apply view_Return in Hv as [-> _].
  split; [lia|]. split; [done|].
  intros s m Hs Hm.
  assert (Hmax : item tmax [s; m; 0] = list_max (lane3 w C s m)).
  { unfold tmax. rewrite item3_tabulate by lia.
    unfold lane. by rewrite Hsh. }
  unfold stable_logsumexp. rewrite <- Hmax. unfold lane3.
  rewrite map_map.
  assert (Hitem : item (mkTensor [B; M] (storage retval)) [s; m]
                  = item retval [s; m; 0]).
  { unfold item. simpl. f_equal; lia. }
  rewrite Hitem. unfold retval.
  rewrite item3_tabulate by lia.
  rewrite !bidx3, !clamp_lt by lia.
  f_equal. rewrite item_tmap by (apply wf_tabulate || (apply valid3; lia)).
  f_equal. unfold total. rewrite item3_tabulate by lia.
  unfold lane.
  change (ix (shape (tmap exp centred)) 2) with C.
  apply Rsum_ext. intros k Hk.
  apply in_seq in Hk.
  change (insert_at 2 k (delete 2 [s; m; 0])) with [s; m; k].
  rewrite item_tmap by (apply wf_tabulate || (apply valid3; lia)).
  f_equal. unfold centred. rewrite item3_tabulate by lia.
  change (shape tmax) with [B; M; 1].
  rewrite !bidx3, !clamp_lt by lia. reflexivity.
Qed.

(** *** Shapes of results *)

Lemma map2_shape_r f a b sa sb :
  shape a = sa -> shape b = sb -> fits sb sa ->
  returns_shape (map2 f a b) sa.
Proof.
  intros <- <- Hf. rewrite map2_fits_r by done. by eexists.
Qed.

Lemma sum_last3_shape t B M C :
  shape t = [B; M; C] -> returns_shape (sum_dimZ t (-1)) [B; M].
Proof.
  intros Hsh. unfold sum_dimZ. rewrite Hsh.
  change (norm_dim (length [B; M; C]) (-1)) with (Return (A:=nat) 2).
  cbv iota. rewrite sum_dim_eq by (rewrite Hsh; simpl; lia).
  rewrite Hsh. by eexists.
Qed.

Lemma logsumexp_last3_shape w B M C :
  shape w = [B; M; C] -> C <> 0 ->
  returns_shape (logsumexp w (-1)) [B; M].
Proof.
  intros Hsh HC. unfold logsumexp, sub, add. rewrite Hsh.
  change (norm_dim (length [B; M; C]) (-1)) with (Return (A:=nat) 2).
  cbn [bind].
  rewrite (max_dim_keep_eq w 2 (C - 1))
    by (rewrite Hsh; simpl; f_equal; lia).
  rewrite Hsh. change (<[2:=1]> [B; M; C]) with [B; M; 1].
  set (tmax := tabulate [B; M; 1] _). cbn [bind].
  destruct (map2_shape_r Rminus w tmax [B; M; C] [B; M; 1])
    as (centred & -> & Hc); [done|done|solve_fits|].
  cbn [bind]. rewrite sum_dim_keep_eq by (simpl; rewrite Hc; simpl; lia).
  cbn [bind shape tmap]. rewrite Hc.
  change (<[2:=1]> [B; M; C]) with [B; M; 1].
  set (total := tabulate [B; M; 1] _).
  destruct (map2_shape_r Rplus tmax (tmap ln total) [B; M; 1] [B; M; 1])
    as (retval & -> & Hr); [done|done|apply fits_refl|].
  cbn [bind]. change (delete 2 [B; M; C]) with [B; M].
  cbn [view_star]. unfold view. rewrite Hr.
  replace (numel [B; M] =? numel [B; M; 1]) with true
    by (symmetry; apply Nat.eqb_eq; simpl; lia).
  by eexists.
Qed.

End ReduceFacts.

(** ** Normalising with the log-sum-exp *)

Module SoftmaxFacts.
Import TorchFacts.
Import ReduceFacts.
Local Open Scope R_scope.

Lemma Rsum_map_pos (f : R -> R) (l : list R) :
  l <> [] -> (forall x, 0 < f x) -> 0 < Rsum (map f l).
Proof.
  intros Hl Hf. destruct l as [|x l]; [done|]. clear Hl. simpl.
  assert (0 <= Rsum (map f l)).
  { induction l as [|y l IH]; simpl; [lra|]. specialize (Hf y). lra. }
  specialize (Hf x). lra.
Qed.

(** Dividing by [exp] of the stable log-sum-exp normalises the
    exponentials of a non-empty list. *)
Lemma softmax_list_sum (l : list R) :
  l <> [] ->
  Rsum (map (fun x => exp (x - stable_logsumexp l)) l) = 1.
Proof.
  intros Hl. unfold stable_logsumexp.
  set (mx := list_max l).
  set (T := Rsum (map (fun x => exp (x - mx)) l)).
  assert (HT : 0 < T) by (apply Rsum_map_pos; [done|]; intros; apply exp_pos).
  assert (Hdiv : forall k : list R,
            Rsum (map (fun x => exp (x - (mx + ln T))) k)
            = Rsum (map (fun x => exp (x - mx)) k) / T).
  { induction k as [|x k IH]; simpl; [lra|]. rewrite IH.
    replace (x - (mx + ln T)) with ((x - mx) + - ln T) by lra.
    rewrite exp_plus, exp_Ropp, exp_ln by done. lra. }
  rewrite Hdiv. fold T. field. lra.
Qed.

End SoftmaxFacts.

(** ** Construction helpers (C1) *)

Module ConstructorFacts.

Lemma no_prior_bind {A} (m : result A) k :
  (forall a, no_prior (k a)) -> no_prior (bind m k).
Proof. destruct m; simpl; [done|]. intros _. right. eauto. Qed.

Lemma no_prior_None : no_prior (Return None).
Proof. by left. Qed.

Lemma no_prior_Raise e : no_prior (Raise e).
Proof. right. eauto. Qed.

Ltac falls_off :=
  repeat first
    [ apply no_prior_None
    | apply no_prior_Raise
    | apply no_prior_bind; intros ?
    | match goal with |- no_prior (if ?b then _ else _) => destruct b end ].

Section WithTorch.
Context `{TorchExt}.

(** C1, on the code.  The calls of the test file,
    [NormalGammaPrior(torch.zeros(2), torch.ones(2), 1.)] and
    [NormalWishartPrior(torch.zeros(2), torch.eye(2), 1.)], and
    [GammaPrior] on one shape and one rate return [None]; and for no
    arguments does any of the eight helpers return a prior. *)
Theorem constructors_return_no_prior :
  NormalGammaPrior (zeros [2]) (ones [2]) 1 = Return None
  /\ NormalWishartPrior (zeros [2]) (mkTensor [2; 2] [1; 0; 0; 1]%R) 1
     = Return None
  /\ GammaPrior (vec [2%R]) (vec [1%R]) = Return None
  /\ (forall mean precision c, no_prior (NormalGammaPrior mean precision c))
  /\ (forall means prec c, no_prior (JointNormalGammaPrior means prec c))
  /\ (forall mean cov c, no_prior (NormalWishartPrior mean cov c))
  /\ (forall means cov c, no_prior (JointNormalWishartPrior means cov c))
  /\ (forall mean cov, no_prior (NormalFullCovariancePrior mean cov))
  /\ (forall mean var, no_prior (NormalIsotropicCovariancePrior mean var))
  /\ (forall mean cov, no_prior (MatrixNormalPrior mean cov))
  /\ (forall shape_ rate, no_prior (GammaPrior shape_ rate)).
Proof.
  split; [reflexivity|]. split; [reflexivity|]. split; [reflexivity|].
  repeat split; intros;
    unfold NormalGammaPrior, JointNormalGammaPrior, NormalWishartPrior,
      JointNormalWishartPrior, NormalFullCovariancePrior,
      NormalIsotropicCovariancePrior, MatrixNormalPrior, GammaPrior;
    falls_off.
Qed.

End WithTorch.
End ConstructorFacts.

(** ** Divergence between priors (C2) *)

Module KlFacts.
Section WithTorch.
Context `{TorchExt}.

(** No prior has an attribute [natural_params]; the properties are called
    [natural_hparams] and [expected_sufficient_statistics]. *)
Lemma getattr_natural_params self h :
  getattr self "natural_params" h = (Raise AttributeError, h).
Proof. reflexivity. Qed.

Lemma getattr_log_norm self h :
  getattr self "log_norm" h = (Return (PyMethod "log_norm"), h).
Proof. reflexivity. Qed.

(** [kl_div] returns for no pair of priors. *)
Lemma kl_div_never_returns model1 model2 h :
  exists e h', kl_div model1 model2 h = (Raise e, h').
Proof.
  unfold kl_div, bindM.
  rewrite !getattr_log_norm.
  destruct (getattr model1 "expected_sufficient_statistics" h)
    as [[a3|e] h'] eqn:E3; [|by eauto].
  rewrite getattr_natural_params. by eauto.
Qed.

(** C2, on the code.  For a prior built by [DirichletPrior(conc)],
    [kl_div(p, p)] raises [AttributeError] instead of returning 0, and
    [BayesianParameter.kl_div] raises it for every parameter: the first
    reads the attribute [natural_params], the second looks [kl_div] up on
    the class, and neither name is defined. *)
Theorem kl_div_raises_AttributeError :
  (forall conc : Tensor,
     ((p <~ DirichletPrior_init conc ;; kl_div p p) []).1
     = Raise AttributeError)
  /\ (forall param : BayesianParameter,
        BayesianParameter_kl_div param = Raise AttributeError).
Proof. split; reflexivity. Qed.

(** The formula itself is sound: on equal log-normalizer values and equal
    parameter vectors it yields a zero. *)
Lemma bregman_divergence_self (a : R) (g v : list R) :
  length g = length v ->
  exists t, _bregman_divergence (PyFloat a) (PyFloat a)
              (PyTensor (vec g)) (PyTensor (vec v)) (PyTensor (vec v))
            = Return (PyTensor t)
            /\ shape t = [] /\ storage t = [0%R].
Proof.
  intros Hlen. eexists. split; [|split].
  - unfold _bregman_divergence, py_sub, py_matmul, sub, map2, matmul.
    simpl. rewrite TorchFacts.broadcast_shapes_refl. simpl.
    rewrite Hlen, Nat.eqb_refl. simpl. reflexivity.
  - reflexivity.
  - simpl. f_equal.
    rewrite TorchFacts.Rsum_zero; [lra|].
    intros k. destruct (decide (k < length v)) as [Hk|Hk].
    + rewrite TorchFacts.item_tabulate by (repeat constructor; done). lra.
    + unfold item at 2. simpl.
      rewrite nth_overflow by (rewrite length_map, length_seq; lia). lra.
Qed.

End WithTorch.
End KlFacts.

(** ** The natural-parameter setter (C3, C10) *)

Module SetterFacts.
Section WithTorch.
Context `{TorchExt}.

(** What a completed assignment leaves behind: for a leaf without a
    gradient, the prior refers to the assigned tensor and to a new tensor
    holding the gradient of the log-normalizer there. *)
Lemma set_natural_hparams_fresh self value h v lnv :
  h !! value = Some v ->
  grad v = None ->
  requires_grad v = true ->
  log_norm (cls self) (data v) = Return lnv ->
  let g := autograd (log_norm (cls self)) (data v) in
  let h' := <[value := mkObj (data v) (Some (length h)) true]>
              (h ++ [mkObj g None false]) in
  let self' := mkPrior (cls self) (Some (length h)) (Some value) in
  set_natural_hparams self value h = (Return self', h')
  /\ expected_sufficient_statistics self' h' = (Return g, h')
  /\ natural_hparams self' h' = (Return (data v), h').
Proof.
  intros Hv Hg Hr Hl g h' self'.
  assert (Hlt : value < length h) by (by eapply lookup_lt_Some).
  assert (H1 : h' !! value = Some (mkObj (data v) (Some (length h)) true)).
  { unfold h'. apply list_lookup_insert_eq. rewrite length_app. lia. }
  assert (H2 : h' !! length h = Some (mkObj g None false)).
  { unfold h'. rewrite list_lookup_insert_ne by lia.
    rewrite lookup_app_r by lia. by rewrite Nat.sub_diag. }
  split; [|split].
  - unfold set_natural_hparams, bindM, deref, lift, ret, backward, bindM,
      deref, alloc, store.
    rewrite Hv, Hg. simpl. rewrite Hl, Hv. simpl. rewrite Hr, Hg. simpl.
    fold g. fold h'. by rewrite H1.
  - unfold expected_sufficient_statistics, self', bindM, deref, ret. simpl.
    by rewrite H2.
  - unfold natural_hparams, self', bindM, deref, ret. simpl.
    by rewrite H1.
Qed.

(** What a model reads of [DirichletPrior(conc)]: the natural parameters
    [conc - 1] and the gradient of the log-normalizer there. *)
Lemma DirichletPrior_init_reads (conc : Tensor) :
  let eta := tmap (fun x => x - 1)%R conc in
  ((p <~ DirichletPrior_init conc ;; freeze p) []).1
  = Return (mkPriorState DirichletPrior eta
              (autograd Dirichlet_log_norm eta)).
Proof. reflexivity. Qed.

(** C10. Assigning a tensor whose [.grad] is populated raises [TypeError]
    (the tensor returned by [zero_()] is called), so an assignment that
    completes was given a tensor without a gradient. *)
Theorem setter_rejects_populated_grad self value h v :
  h !! value = Some v ->
  (forall g, grad v = Some g -> is_Some (h !! g) ->
     (set_natural_hparams self value h).1 = Raise TypeError)
  /\ (forall self' h',
        set_natural_hparams self value h = (Return self', h') ->
        grad v = None).
Proof.
  intros Hv. split.
  - intros g Hg [go Hgo].
    unfold set_natural_hparams, bindM, deref, zero_, bindM, deref, store,
      raise.
    by rewrite Hv, Hg, Hgo.
  - intros self' h'.
    unfold set_natural_hparams, bindM, deref, zero_, bindM, deref, store,
      raise.
    rewrite Hv. destruct (grad v) as [g|]; [|done].
    destruct (h !! g); discriminate.
Qed.

(** C3, at a tensor assigned twice.  [DirichletPrior(conc)] creates the
    parameter tensor at reference 0 and its gradient at reference 1.
    Assigning that tensor again zeroes the gradient in place and raises:
    the prior still refers to both tensors, and its expectation now reads
    as zeros instead of the gradient of the log-normalizer. *)
Theorem reassignment_breaks_expectation (conc : Tensor) :
  let eta := tmap (fun x => x - 1)%R conc in
  let g := autograd Dirichlet_log_norm eta in
  let p := mkPrior DirichletPrior (Some 1) (Some 0) in
  let h1 := [mkObj eta (Some 1) true; mkObj g None false] in
  let h2 := [mkObj eta (Some 1) true; mkObj (zeros_like g) None false] in
  DirichletPrior_init conc [] = (Return p, h1)
  /\ expected_sufficient_statistics p h1 = (Return g, h1)
  /\ set_natural_hparams p 0 h1 = (Raise TypeError, h2)
  /\ natural_hparams p h2 = (Return eta, h2)
  /\ expected_sufficient_statistics p h2 = (Return (zeros_like g), h2).
Proof. repeat split. Qed.

End WithTorch.

#[local] Existing Instance Samples.plain_torch.

Lemma setter_rejects_populated_grad_witness :
  Samples.used_heap !! 0 = Some (mkObj (vec [0; 0]%R) (Some 1) true)
  /\ (set_natural_hparams (mkPrior DirichletPrior None None) 0
        Samples.used_heap).1
     = Raise TypeError.
Proof.
  split; [reflexivity|].
  apply (proj1 (setter_rejects_populated_grad
                  (mkPrior DirichletPrior None None) 0 Samples.used_heap
                  (mkObj (vec [0; 0]%R) (Some 1) true) eq_refl) 1).
  - reflexivity.
  - eexists. reflexivity.
Defined.

End SetterFacts.

(** ** The variational auto-encoder (C4) *)

Module VaeFacts.
Import Vae.

Section VAE.
Variable LStats : Type.
Variable sample_from_normals : Tensor -> Tensor -> nat -> result Tensor.
Variable sufficient_statistics_from_mean_var :
  Tensor -> Tensor -> result Tensor.

#[local] Abbreviation _expected_llh := (_expected_llh sample_from_normals).
#[local] Abbreviation forward :=
  (forward sample_from_normals sufficient_statistics_from_mean_var).

(** Estimating the log-likelihood reads the model and leaves it as it is. *)
Lemma expected_llh_state data means variances nsamples (self : VAE LStats) :
  (_expected_llh data means variances nsamples self).2 = self.
Proof.
  unfold Vae._expected_llh, bindM, lift, get.
  repeat match goal with
         | |- context [match ?r with Return _ => _ | Raise _ => _ end] =>
             destruct r; simpl
         end; reflexivity.
Qed.

(** C4, as the code has it.  When [forward] returns, its value is the
    Monte Carlo expected log-likelihood, the value of [_expected_llh]; the
    local divergence [sum((nparams - exp_np_params) * exp_s_stats, -1)] is
    not subtracted from it but stored in the cache, next to the latent
    statistics, and [local_kl_div_posterior_prior] hands it out, added to
    the divergence of the latent model. *)
Theorem forward_returns_expected_llh (self self' : VAE LStats)
  (data : Tensor) (nsamples : nat) (out : Tensor) :
  forward data nsamples self = (Return out, self') ->
  exists means variances exp_np_params latent_stats exp_s_stats nparams d p kl,
    encoder self data = Return (means, variances)
    /\ expected_natural_params (latent_model self) means variances nsamples
       = Return (exp_np_params, latent_stats)
    /\ sufficient_statistics_from_mean_var means variances
       = Return exp_s_stats
    /\ _normal_diag_natural_params means variances = Return nparams
    /\ sub nparams exp_np_params = Return d
    /\ mul d exp_s_stats = Return p
    /\ sum_dimZ p (-1) = Return kl
    /\ self' = mkVAE (encoder self) (decoder self) (latent_model self)
                 (<["kl_divergence" := CTensor kl]>
                    (<["latent_stats" := CStats latent_stats]>
                       (vcache self)))
    /\ _expected_llh data means variances nsamples self' = (Return out, self')
    /\ local_kl_div_posterior_prior self'
       = (lkl <- lm_local_kl_div_posterior_prior (latent_model self) ;;
          add kl lkl, self').
Proof.
  unfold Vae.forward, _estimate_prior, _compute_local_kl_div.
  unfold bindM at 1 2. unfold get at 1, lift at 1.
  destruct (encoder self data) as [[means variances]|] eqn:Eenc;
    [|discriminate].
  unfold bindM at 1 2 3 4. unfold get at 1, lift at 1.
  destruct (expected_natural_params _ _ _ _) as [[exp_np ls]|] eqn:Eprior;
    [|discriminate].
  unfold set_vcache at 1, ret. cbn [fst snd].
  unfold bindM at 1 2. unfold lift at 1.
  destruct (sufficient_statistics_from_mean_var _ _) as [ess|] eqn:Eess;
    [|discriminate].
  unfold bindM at 1. unfold lift at 1.
  destruct (_normal_diag_natural_params _ _) as [nparams|] eqn:Enp;
    [|discriminate].
  unfold bindM at 1. unfold lift at 1.
  destruct (sub nparams exp_np) as [d|] eqn:Ed; [|discriminate].
  unfold bindM at 1. unfold lift at 1.
  destruct (mul d ess) as [p|] eqn:Ep; [|discriminate].
  unfold bindM at 1. unfold lift at 1.
  destruct (sum_dimZ p (-1)) as [kl|] eqn:Ekl; [|discriminate].
  unfold set_vcache. cbn [encoder decoder latent_model vcache].
  intros Hllh.
  pose proof (expected_llh_state data means variances nsamples
                (mkVAE (encoder self) (decoder self) (latent_model self)
                   (<["kl_divergence" := CTensor kl]>
                      (<["latent_stats" := CStats ls]> (vcache self)))))
    as Hst.
  rewrite Hllh in Hst. simpl in Hst. subst self'.
  exists means, variances, exp_np, ls, ess, nparams, d, p, kl.
  repeat (split; [done|]).
  unfold local_kl_div_posterior_prior, bindM, get, vcache_get, lift.
  cbn [vcache latent_model]. rewrite lookup_insert_eq.
  by destruct (lm_local_kl_div_posterior_prior (latent_model self)).
Qed.

End VAE.

Import Samples.
Local Open Scope R_scope.

Lemma forward_returns_expected_llh_witness :
  let data := mkTensor [1; 1]%nat [0] in
  let r := Vae.forward mean_sampler normal_stats data 1 unit_vae in
  exists out kl,
    r.1 = Return out
    /\ vcache r.2 !! "kl_divergence"%string = Some (CTensor kl)
    /\ Vae._expected_llh mean_sampler data (mkTensor [1; 1]%nat [0])
         (mkTensor [1; 1]%nat [1]) 1 r.2 = (Return out, r.2).
Proof.
  intros data r.
  destruct (forward_returns_expected_llh unit mean_sampler normal_stats
              unit_vae r.2 data 1 _ eq_refl)
    as (means & variances & exp_np & ls & ess & nparams & d & p & kl
        & Henc & _ & _ & _ & _ & _ & _ & Hself & Hllh & _).
  injection Henc as <- <-.
  eexists _, kl. split; [reflexivity|]. split; [|exact Hllh].
  rewrite Hself. apply lookup_insert_eq.
Defined.

(** C4 as stated fails.  For one sample with encoder posterior N(0, 1) and
    latent prior N(1, 1) the cached divergence is 1/2, and [forward]
    returns the expected log-likelihood [- ln(2 pi) / 2] itself: the value
    less the divergence is a different tensor. *)
Lemma forward_does_not_subtract_kl :
  let r := Vae.forward mean_sampler normal_stats (mkTensor [1; 1]%nat [0]) 1
             unit_vae in
  exists llh kl diff,
    r.1 = Return llh
    /\ vcache r.2 !! "kl_divergence"%string = Some (CTensor kl)
    /\ storage llh = [- ln (2 * PI) / 2]
    /\ storage kl = [1 / 2]
    /\ sub llh kl = Return diff
    /\ diff <> llh.
Proof.
  intros r. eexists _, _, _.
  split; [subst r; run; reflexivity|].
  split; [subst r; reflexivity|].
  split; [cbn [storage]; f_equal; rewrite ln_1; simpl; lra|].
  split; [run; f_equal; rewrite ln_1; lra|].
  split; [run; reflexivity|].
  intros [= Heq]. rewrite ln_1 in Heq. simpl in Heq. lra.
Qed.

End VaeFacts.

(** ** Mixture sets: responsibilities (C5) *)

Module ForwardFacts.
Import TorchFacts.
Import ReduceFacts SoftmaxFacts.

Lemma foldM_invariant {A B} (P : B -> Prop) (f : B -> A -> result B) l b :
  (forall b x, P b -> x ∈ l -> exists b', f b x = Return b' /\ P b') ->
  P b -> exists b', foldM f b l = Return b' /\ P b'.
Proof.
  revert b. induction l as [|x l IH]; intros b Hf Hb; simpl; [by eauto|].
  destruct (Hf b x Hb) as (b' & -> & Hb'); [by left|].
  apply IH; [|done]. intros b0 y Hb0 Hy. apply Hf; [done|by right].
Qed.

Section MixtureSet.
Context {Stats Model : Type}.
Implicit Types self : MixtureSet Stats Model.

Lemma mapM_Forall2 {A B} (f : A -> result B) l k :
  mapM f l = Return k -> Forall2 (fun x y => f x = Return y) l k.
Proof.
  revert k. induction l as [|x l IH]; intros k; simpl.
  - intros [= <-]. constructor.
  - destruct (f x) as [y|] eqn:E; [|done].
    destruct (mapM f l) as [ys|]; [|done].
    intros [= <-]. constructor; [done|]. by apply IH.
Qed.

(** What [__init__] builds: as many weight parameters as mixtures, with
    distinct identities, and an empty cache. *)
Lemma MixtureSet_init_weights base prior_weights posterior_weights mdls self :
  MixtureSet_init base prior_weights posterior_weights mdls = Return self ->
  num_mix self = length prior_weights
  /\ num_mix self <> 0
  /\ num_comp self = ms_len mdls / length prior_weights
  /\ length (mix_weights self) = num_mix self
  /\ NoDup (map ident (mix_weights self))
  /\ cache self = ∅.
Proof.
  unfold MixtureSet_init.
  destruct (length prior_weights =? 0) eqn:E0; [done|].
  apply Nat.eqb_neq in E0.
  destruct (mapM _ _) as [params|] eqn:Em; simpl; [|done].
  intros [= <-]. simpl.
  apply mapM_Forall2 in Em.
  assert (Hids : map ident params
                 = map (fun i => base + i) (seq 0 (length prior_weights))).
  { induction Em as [|i p l ps Hp _ IH]; simpl; [done|].
    rewrite IH. f_equal.
    destruct (prior_weights !! i), (posterior_weights !! i);
      try discriminate.
    by injection Hp as <-. }
  repeat split; try done.
  - apply Forall2_length in Em. by rewrite <- Em, length_seq.
  - rewrite Hids, map_fmap. apply NoDup_fmap_2; [|apply NoDup_seq].
    intros x y. lia.
Qed.

Lemma log_weights_shape self lw :
  log_weights self = Return lw ->
  shape lw = [1; num_mix self; num_comp self].
Proof.
  unfold log_weights.
  destruct (param_getitem _ 0) as [first|]; simpl; [|done].
  destruct (foldM _ _ _); simpl; [|done].
  intros Hv. by apply view_Return in Hv as [-> _].
Qed.

Lemma log_weights_returns self :
  num_mix self <> 0 ->
  length (mix_weights self) = num_mix self ->
  Forall (fun p => shape (exp_s_stats (posterior p)) = [num_comp self])
         (mix_weights self) ->
  exists lw, log_weights self = Return lw.
Proof.
  intros HM Hlen Hsh. unfold log_weights.
  set (M := num_mix self) in *. set (C := num_comp self) in *.
  destruct (mix_weights self !! 0) as [first|] eqn:E0.
  2: { apply lookup_ge_None in E0. lia. }
  unfold param_getitem at 1. rewrite E0. simpl.
  match goal with
  | |- context [foldM ?f ?b ?l] =>
      destruct (foldM_invariant (fun t => shape t = [M; C]) f l b)
        as (ws & -> & Hws); [|done|]
  end.
  - intros t i Ht Hi. apply elem_of_seq in Hi.
    destruct (mix_weights self !! i) as [p|] eqn:Ei.
    2: { apply lookup_ge_None in Ei. lia. }
    unfold param_getitem. rewrite Ei. simpl.
    unfold set_row. rewrite Ht.
    destruct (Nat.ltb_spec i M); [|lia].
    rewrite (Forall_lookup_1 _ _ _ _ Hsh Ei).
    rewrite broadcast_shapes_refl. simpl.
    rewrite bool_decide_eq_true_2 by done. eauto.
  - simpl. unfold view. rewrite Hws.
    replace (numel [1; M; C] =? numel [M; C]) with true
      by (symmetry; apply Nat.eqb_eq; simpl; lia).
    eauto.
Qed.

(** [forward] returns on every batch for which the component set returns
    one log-likelihood per sample and component, when the set has mixtures
    and components and every weight posterior has [num_comp] entries. *)
Lemma forward_returns self (s_stats : Stats) pc0 B :
  num_mix self <> 0 -> num_comp self <> 0 ->
  length (mix_weights self) = num_mix self ->
  Forall (fun p => shape (exp_s_stats (posterior p)) = [num_comp self])
         (mix_weights self) ->
  ms_forward (modelset self) s_stats = Return pc0 ->
  numel (shape pc0) = B * (num_mix self * num_comp self) ->
  exists out self', forward s_stats self = (Return out, self').
Proof.
  intros HM HC Hlen Hsh Hpc Hn.
  destruct (log_weights_returns self HM Hlen Hsh) as (lw & Hlw).
  pose proof (log_weights_shape _ _ Hlw) as Hlwsh.
  unfold forward, bindM, get, lift, put. rewrite Hlw, Hpc.
  set (M := num_mix self) in *. set (C := num_comp self) in *.
  assert (Hview : view_infer pc0 [M; C]
                  = Return (mkTensor [B; M; C] (storage pc0))).
  { unfold view_infer.
    assert (Hr : numel [M; C] <> 0) by (simpl; lia).
    replace (numel (shape pc0)) with (B * numel [M; C]) by (simpl; lia).
    rewrite Nat.Div0.mod_mul, Nat.div_mul by done.
    by destruct (numel [M; C] =? 0) eqn:E; [apply Nat.eqb_eq in E|]. }
  rewrite Hview.
  set (pc := mkTensor [B; M; C] (storage pc0)).
  destruct (map2_shape_r Rplus pc lw [B; M; C] [1; M; C])
    as (w & Hw & Hwsh); [done|done|solve_fits|].
  unfold add, sub, mul in *. rewrite Hw.
  destruct (logsumexp_last3_shape w B M C Hwsh HC) as (lse & -> & Hlse).
  unfold unsqueeze. rewrite Hlse.
  change (2 <=? length [B; M]) with true. cbv iota.
  change (take 2 [B; M] ++ 1 :: drop 2 [B; M]) with [B; M; 1].
  set (lse3 := mkTensor [B; M; 1] (storage lse)).
  destruct (map2_shape_r Rminus w lse3 [B; M; C] [B; M; 1])
    as (log_resps & -> & Hlr); [done|done|solve_fits|].
  unfold _local_kl_divergence, sub, mul.
  destruct (map2_shape_r Rminus log_resps lw [B; M; C] [1; M; C])
    as (d & -> & Hd); [done|done|solve_fits|].
  cbn [bind].
  destruct (map2_shape_r Rmult (tmap exp log_resps) d [B; M; C] [B; M; C])
    as (p & -> & Hp); [done|done|apply fits_refl|].
  cbn [bind].
  destruct (sum_last3_shape p B M C Hp) as (kl & -> & Hkl).
  destruct (map2_shape_r Rmult pc (tmap exp log_resps) [B; M; C] [B; M; C])
    as (weighted & -> & Hwe); [done|done|apply fits_refl|].
  destruct (sum_last3_shape weighted B M C Hwe) as (llh & -> & Hllh).
  destruct (map2_shape_r Rminus llh kl [B; M] [B; M])
    as (out & -> & _); [done|done|apply fits_refl|].
  eauto.
Qed.

(** What a returning [forward] leaves in the cache. *)
Lemma forward_resps self self' (s_stats : Stats) out :
  forward s_stats self = (Return out, self') ->
  exists resps w B lw pc0,
    self' = set_cache self "resps" resps
    /\ num_mix self * num_comp self <> 0
    /\ shape resps = [B; num_mix self; num_comp self]
    /\ (forall s m c,
          s < B -> m < num_mix self -> c < num_comp self ->
          item resps [s; m; c]
          = exp (item w [s; m; c]
                 - stable_logsumexp (lane3 w (num_comp self) s m)))
    /\ (forall s m,
          s < B -> m < num_mix self ->
          Rsum (lane3 resps (num_comp self) s m) = 1%R)
    /\ log_weights self = Return lw
    /\ ms_forward (modelset self) s_stats = Return pc0
    /\ numel (shape pc0) = B * (num_mix self * num_comp self)
    /\ (forall s m c,
          s < B -> m < num_mix self -> c < num_comp self ->
          item w [s; m; c]
          = (nth (s * (num_mix self * num_comp self)
                  + m * num_comp self + c) (storage pc0) 0
             + item lw [0%nat; m; c])%R).
Proof.
  unfold forward, bindM, get, lift, put.
  destruct (log_weights self) as [lw|] eqn:Elw0; [|done].
  pose proof (log_weights_shape _ _ Elw0) as Elw.
  destruct (ms_forward (modelset self) s_stats) as [pc0|]; [|done].
  destruct (view_infer pc0 _) as [pc|] eqn:Epc; [|done].
  apply view_infer_Return in Epc as (HMC & Hn & ->).
  set (M := num_mix self) in *. set (C := num_comp self) in *.
  set (B := numel (shape pc0) / numel [M; C]) in *.
  set (pc := mkTensor (B :: [M; C]) (storage pc0)).
  unfold add, sub.
  rewrite (map2_fits_r Rplus pc lw)
    by (rewrite Elw; solve_fits).
  change (shape pc) with [B; M; C].
  set (w := tabulate [B; M; C] _).
  destruct (logsumexp w (-1)) as [lse|] eqn:Else; [|done].
  apply (logsumexp_last3 w lse B M C eq_refl) in Else
    as (HC & Hlse & Hval).
  unfold unsqueeze. rewrite Hlse.
  change (2 <=? length [B; M]) with true. cbv iota.
  change (take 2 [B; M] ++ 1 :: drop 2 [B; M]) with [B; M; 1].
  set (lse3 := mkTensor [B; M; 1] (storage lse)).
  rewrite (map2_fits_r Rminus w lse3) by solve_fits.
  change (shape w) with [B; M; C]. change (shape lse3) with [B; M; 1].
  set (log_resps := tabulate [B; M; C] _).
  destruct (_local_kl_divergence lw log_resps); [|done].
  destruct (mul _ _); [|done].
  destruct (sum_dimZ _ _); [|done].
  destruct (map2 Rminus _ _); [|done].
  intros [= _ <-].
  assert (Hitem : forall s m c, s < B -> m < M -> c < C ->
            item (tmap exp log_resps) [s; m; c]
            = exp (item w [s; m; c] - stable_logsumexp (lane3 w C s m))).
  { intros s m c Hs Hm Hc.
    rewrite item_tmap by (apply wf_tabulate || (apply valid3; lia)).
    f_equal. unfold log_resps. rewrite item3_tabulate by lia.
    rewrite !bidx3, !clamp_lt by lia. f_equal.
    rewrite <- Hval by done. unfold item, lse3. rewrite Hlse. simpl.
    f_equal; lia. }
  exists (tmap exp log_resps), w, B, lw, pc0.
  split; [done|]. split; [simpl in HMC; lia|]. split; [done|].
  split; [done|]. split.
  { intros s m Hs Hm.
    rewrite <- (softmax_list_sum (lane3 w C s m))
      by (unfold lane3; destruct C; done).
    unfold lane3. rewrite map_map. apply Rsum_ext.
    intros c Hc. apply in_seq in Hc. apply Hitem; lia. }
  split; [done|]. split; [done|]. split; [simpl in Hn |- *; lia|].
  intros s m c Hs Hm Hc. unfold w. rewrite item3_tabulate by lia.
  rewrite Elw, !bidx3, !clamp_lt by lia.
  change (clamp 1 s) with 0. f_equal.
  unfold item, pc. cbn [shape storage ravel numel foldr]. f_equal. nia.
Qed.

(** C5.  After a call of [forward] that returns, the cache holds the
    responsibilities, of shape [(batch, num_mix, num_comp)].  With
    [w[s, m, c]] the expected log-likelihood the component set returned
    for sample [s] and component [c] of mixture [m], plus the expected
    log-weight of that component, entry [(s, m, c)] is the exponential of
    [w[s, m, c]] less the stable log-sum-exp of the lane [w[s, m, :]]
    (maximum subtracted, exponentials summed, logarithm taken, maximum
    added back).  In exact arithmetic the entries of every lane add up
    to 1. *)
Theorem responsibilities_sum_to_one self self' (s_stats : Stats) out :
  forward s_stats self = (Return out, self') ->
  exists lw pc0 resps B,
    log_weights self = Return lw
    /\ ms_forward (modelset self) s_stats = Return pc0
    /\ numel (shape pc0) = B * (num_mix self * num_comp self)
    /\ cache self' !! "resps" = Some resps
    /\ shape resps = [B; num_mix self; num_comp self]
    /\ forall s m,
         s < B -> m < num_mix self ->
         (forall c, c < num_comp self ->
            item resps [s; m; c]
            = exp (nth c (weighted_lane self pc0 lw s m) 0
                   - stable_logsumexp (weighted_lane self pc0 lw s m))%R)
         /\ Rsum (lane3 resps (num_comp self) s m) = 1%R.
Proof.
  intros Hf.
  destruct (forward_resps _ _ _ _ Hf)
    as (resps & w & B & lw & pc0 & -> & _ & Hsh & Hitem & Hsum
        & Hlw & Hpc & Hn & Hw).
  exists lw, pc0, resps, B. split; [done|]. split; [done|]. split; [done|].
  split; [apply lookup_insert_eq|]. split; [done|].
  intros s m Hs Hm.
  assert (Hlane : lane3 w (num_comp self) s m = weighted_lane self pc0 lw s m).
  { unfold lane3, weighted_lane. apply map_ext_in.
    intros c Hc. apply in_seq in Hc. apply Hw; lia. }
  split; [|by apply Hsum].
  intros c Hc. rewrite Hitem by done. rewrite <- Hlane. do 2 f_equal.
  unfold lane3.
  rewrite (nth_indep _ 0%R (item w [s; m; 0]))
    by (rewrite length_map, length_seq; lia).
  rewrite (map_nth (fun k => item w [s; m; k]) (seq 0 (num_comp self)) 0 c).
  by rewrite seq_nth by done.
Qed.

(** After [forward] the mixture set is what [accumulate] expects. *)
Lemma forward_fills_cache self self' (s_stats : Stats) out :
  forward s_stats self = (Return out, self') ->
  exists resps B,
    cache self' !! "resps" = Some resps
    /\ shape resps = [B; num_mix self'; num_comp self']
    /\ num_mix self' * num_comp self' <> 0
    /\ mix_weights self' = mix_weights self.
Proof.
  intros Hf.
  destruct (forward_resps _ _ _ _ Hf)
    as (resps & w & B & lw & pc0 & -> & HMC & Hsh & _).
  exists resps, B. split; [apply lookup_insert_eq|]. done.
Qed.

End MixtureSet.

Import Samples.
#[local] Existing Instance plain_torch.

Lemma responsibilities_sum_to_one_witness :
  exists resps,
    cache (forward 1 one_mixture).2 !! "resps" = Some resps
    /\ shape resps = [1; 1; 2]
    /\ Rsum (lane3 resps 2 0 0) = 1%R.
Proof.
  eassert (Hr : forward 1 one_mixture = (Return _, _))
    by (run_maps; reflexivity).
  destruct (responsibilities_sum_to_one _ _ _ _ Hr)
    as (lw & pc0 & resps & B & _ & Hpc & Hn & Hc & Hsh & Hsum).
  rewrite Hr. cbn [snd].
  match type of Hc with
  | ?l = _ => eassert (Ht : l = Some _) by reflexivity
  end.
  rewrite Ht in Hc. injection Hc as <-.
  injection Hsh as <-.
  eexists. split; [exact Ht|]. split; [reflexivity|].
  apply Hsum; simpl; lia.
Defined.

End ForwardFacts.

(** ** Mixture sets: responsibilities in binary32 (C5) *)

Module Binary32Facts.
Import Binary32.
Local Open Scope R_scope.

Lemma Rabs_le_inv (a b : R) : Rabs a <= b -> - b <= a <= b.
Proof. unfold Rabs. destruct (Rcase_abs a); lra. Qed.

Lemma ln2_pos : 0 < ln 2.
Proof. rewrite <- ln_1. apply ln_increasing; lra. Qed.

Lemma powerRZ2_pos e : 0 < powerRZ 2 e.
Proof. apply powerRZ_lt. lra. Qed.

Lemma powerRZ2_exp e : powerRZ 2 e = exp (IZR e * ln 2).
Proof. rewrite powerRZ_Rpower by lra. reflexivity. Qed.

(** The binade of a number is the one it lies in. *)
Lemma binade_eq (x : R) (b : Z) :
  powerRZ 2 b <= Rabs x < powerRZ 2 (b + 1) -> binade x = b.
Proof.
  intros [Hlo Hhi]. unfold binade. apply Zfloor_eq.
  pose proof ln2_pos as H2.
  assert (Hx : 0 < Rabs x) by (pose proof (powerRZ2_pos b); lra).
  rewrite !powerRZ2_exp in *. rewrite plus_IZR in Hhi.
  assert (A : IZR b * ln 2 <= ln (Rabs x)).
  { rewrite <- (ln_exp (IZR b * ln 2)).
    destruct Hlo as [Hlo|Hlo]; [|rewrite Hlo; lra].
    left. apply ln_increasing; [apply exp_pos|done]. }
  assert (B : ln (Rabs x) < (IZR b + 1) * ln 2).
  { rewrite <- (ln_exp ((IZR b + 1) * ln 2)). by apply ln_increasing. }
  split.
  - apply (Rmult_le_reg_r (ln 2)); [done|].
    unfold Rdiv. rewrite Rmult_assoc, Rinv_l by lra. lra.
  - apply (Rmult_lt_reg_r (ln 2)); [done|].
    unfold Rdiv. rewrite Rmult_assoc, Rinv_l by lra. lra.
Qed.

Lemma nearest_even_below (t : R) (n : Z) :
  IZR n <= t < IZR n + 1 / 2 -> nearest_even t = n.
Proof.
  intros [Hlo Hhi]. unfold nearest_even.
  rewrite (Zfloor_eq n t) by lra.
  destruct (Rlt_dec (t - IZR n) (1 / 2)); [done|lra].
Qed.

Lemma nearest_even_IZR (n : Z) : nearest_even (IZR n) = n.
Proof. apply nearest_even_below. lra. Qed.

Lemma nearest_even_error (t : R) : Rabs (IZR (nearest_even t) - t) <= 1 / 2.
Proof.
  unfold nearest_even. pose proof (Zfloor_bound t) as [Hlo Hhi].
  set (f := Zfloor t) in *.
  destruct (Rlt_dec (t - IZR f) (1 / 2)) as [H|H].
  - apply Rabs_le; lra.
  - destruct (Rlt_dec (1 / 2) (t - IZR f)) as [H'|H'].
    + rewrite plus_IZR. apply Rabs_le; lra.
    + destruct (Z.even f); [|rewrite plus_IZR]; apply Rabs_le; lra.
Qed.


Lemma quantum_normal (x : R) (b : Z) :
  powerRZ 2 b <= Rabs x < powerRZ 2 (b + 1) -> (-126 <= b)%Z ->
  quantum x = (b - 23)%Z.
Proof. intros Hx Hb. unfold quantum. rewrite (binade_eq x b Hx). lia. Qed.

Lemma round32_0 : round32 0 = 0.
Proof.
  unfold round32. replace (0 / _) with (IZR 0) by (unfold Rdiv; ring).
  rewrite nearest_even_IZR. ring.
Qed.

(** A multiple of the spacing of its binade is kept by rounding. *)
Lemma round32_exact (x : R) (b n : Z) :
  powerRZ 2 b <= Rabs x < powerRZ 2 (b + 1) -> (-126 <= b)%Z ->
  x = IZR n * powerRZ 2 (b - 23) ->
  round32 x = x /\ binary32 x.
Proof.
  intros Hx Hb Hn. pose proof (quantum_normal x b Hx Hb) as Hq.
  pose proof (powerRZ2_pos (b - 23)) as Hp.
  unfold round32, binary32. rewrite Hq. split; [|by exists n].
  replace (x / powerRZ 2 (b - 23)) with (IZR n)
    by (rewrite Hn at 1; field; lra).
  by rewrite nearest_even_IZR.
Qed.

(** Rounding moves a number by half the spacing of its binade at most. *)
Lemma round32_error (x : R) (b : Z) :
  powerRZ 2 b <= Rabs x < powerRZ 2 (b + 1) -> (-126 <= b)%Z ->
  exists n : Z,
    round32 x = IZR n * powerRZ 2 (b - 23)
    /\ Rabs (round32 x - x) <= powerRZ 2 (b - 23) / 2.
Proof.
  intros Hx Hb. pose proof (quantum_normal x b Hx Hb) as Hq.
  pose proof (powerRZ2_pos (b - 23)) as Hp.
  unfold round32. rewrite Hq. set (q := powerRZ 2 (b - 23)) in *.
  exists (nearest_even (x / q)). split; [done|].
  pose proof (nearest_even_error (x / q)) as He.
  replace (IZR (nearest_even (x / q)) * q - x)
    with ((IZR (nearest_even (x / q)) - x / q) * q) by (field; lra).
  rewrite Rabs_mult, (Rabs_pos_eq q) by lra.
  apply (Rmult_le_compat_r q) in He; lra.
Qed.

(** [e^-11] lies between 12 and 20 millionths. *)
Lemma exp_pow (x : R) (n : nat) : exp (INR n * x) = exp x ^ n.
Proof.
  induction n as [|n IH].
  - simpl. by rewrite Rmult_0_l, exp_0.
  - rewrite S_INR, Rmult_plus_distr_r, Rmult_1_l, exp_plus, IH. simpl. ring.
Qed.

(** A power of a ratio of integers is bounded from below by comparing
    integers. *)
Lemma pow_ratio_ge (a b c d : Z) (n : nat) :
  (0 < b)%Z -> (0 < d)%Z ->
  (c * b ^ Z.of_nat n <= d * a ^ Z.of_nat n)%Z ->
  IZR c / IZR d <= (IZR a / IZR b) ^ n.
Proof.
  intros Hb Hd H. apply IZR_le in H. rewrite !mult_IZR in H.
  unfold Rdiv. rewrite Rpow_mult_distr, pow_inv, !pow_IZR.
  assert (HB : 0 < IZR (b ^ Z.of_nat n)).
  { apply IZR_lt. by apply Z.pow_pos_nonneg; [|lia]. }
  assert (HD : 0 < IZR d) by (by apply IZR_lt).
  set (A := IZR (a ^ Z.of_nat n)) in *. set (B := IZR (b ^ Z.of_nat n)) in *.
  apply (Rmult_le_reg_r (IZR d * B)); [nra|].
  replace (IZR c * / IZR d * (IZR d * B)) with (IZR c * B) by (field; lra).
  replace (A * / B * (IZR d * B)) with (IZR d * A) by (field; lra).
  exact H.
Qed.

Lemma exp_m11_bounds : 12 / 1000000 <= exp (-11) <= 20 / 1000000.
Proof.
  split.
  - replace (-11) with (INR 352 * (- / 32))
      by (rewrite INR_IZR_INZ; simpl; field).
    rewrite exp_pow.
    transitivity ((31 / 32) ^ 352).
    + apply (pow_ratio_ge 31 32 12 1000000 352); by vm_compute.
    + apply pow_incr. split; [lra|].
      pose proof (exp_ineq1_le (- / 32)). lra.
  - replace (-11) with (- (INR 352 * (/ 32)))
      by (rewrite INR_IZR_INZ; simpl; field).
    rewrite exp_Ropp, exp_pow.
    assert (H : (33 / 32) ^ 352 <= exp (/ 32) ^ 352).
    { apply pow_incr. split; [lra|].
      pose proof (exp_ineq1_le (/ 32)). lra. }
    assert (H0 : 1000000 / 20 <= (33 / 32) ^ 352).
    { apply (pow_ratio_ge 33 32 1000000 20 352); by vm_compute. }
    set (E := exp (/ 32) ^ 352) in *.
    assert (HE : 0 < E) by lra.
    apply (Rmult_le_reg_r E); [done|].
    rewrite Rinv_l by lra. lra.
Qed.


Lemma ln_le_pred (x : R) : 0 < x -> ln x <= x - 1.
Proof.
  intros Hx. pose proof (exp_ineq1_le (x - 1)) as H.
  replace (1 + (x - 1)) with x in H by lra.
  destruct H as [H|H].
  - left. rewrite <- (ln_exp (x - 1)). by apply ln_increasing.
  - rewrite H at 1. rewrite ln_exp. lra.
Qed.

(** *** Without rounding the lane is the closed form *)

Lemma foldl_Rplus (a : R) (l : list R) :
  foldl (fun x y => x + y) a l = a + Rsum l.
Proof.
  revert a. induction l as [|x l IH]; intros a; simpl; [lra|].
  rewrite IH. unfold Rsum. lra.
Qed.

(** With exact additions and the real [exp] and [ln], the lane is the
    exponential of each weighted entry less the stable log-sum-exp of
    the lane. *)
Lemma lane_responsibilities_exact (pc_exp_llhs log_weights : list R) :
  lane_responsibilities (fun x => x) exp ln pc_exp_llhs log_weights
  = map (fun x => exp (x - stable_logsumexp
                             (zip_with Rplus pc_exp_llhs log_weights)))
        (zip_with Rplus pc_exp_llhs log_weights).
Proof.
  unfold lane_responsibilities, lane_logsumexp, fsum, fsub, fadd.
  change (zip_with (fun x y => x + y) pc_exp_llhs log_weights)
    with (zip_with Rplus pc_exp_llhs log_weights).
  set (w := zip_with Rplus pc_exp_llhs log_weights).
  rewrite foldl_Rplus, Rplus_0_l, map_map. reflexivity.
Qed.

(** The lane of [forward] for sample [s] and mixture [m] is such a lane:
    the expected log-likelihoods of the components of [m], each with its
    expected log-weight added. *)
Lemma weighted_lane_zip {Stats Model} (self : MixtureSet Stats Model)
  (pc_exp_llhs log_weights : Tensor) (s m : nat) :
  weighted_lane self pc_exp_llhs log_weights s m
  = zip_with Rplus
      (map (fun c => nth (s * (num_mix self * num_comp self)
                          + m * num_comp self + c)
                         (storage pc_exp_llhs) 0)
           (seq 0 (num_comp self)))
      (map (fun c => item log_weights [0%nat; m; c])
           (seq 0 (num_comp self))).
Proof.
  unfold weighted_lane. generalize (seq 0 (num_comp self)).
  induction l as [|c l IH]; [done|]. cbn [map zip_with]. by rewrite IH.
Qed.

Section Lane.
Variables fexp flog : R -> R.
Hypothesis Hexp : accurate_exp fexp.
Hypothesis Hlog : accurate_log flog.

(** What the library's [exp] returns at [-11]. *)
Lemma fexp_m11 : 11 / 1000000 <= fexp (-11) <= 21 / 1000000.
Proof.
  destruct Hexp as [_ Hacc].
  assert (Hb : binary32 (-11)).
  { apply (round32_exact (-11) 3 (-11534336)); [|lia|].
    - rewrite Rabs_left by lra.
      change (powerRZ 2 3) with (2 ^ 3).
      change (powerRZ 2 (3 + 1)) with (2 ^ 4). lra.
    - change (powerRZ 2 (3 - 23)) with (/ 2 ^ 20). lra. }
  specialize (Hacc (-11) Hb ltac:(lra)).
  pose proof exp_m11_bounds as [Hlo Hhi].
  apply Rabs_le_inv in Hacc. lra.
Qed.

(** The sum of the two exponentials, rounded. *)
Lemma fsum_exps (u : R) :
  11 / 1000000 <= u <= 21 / 1000000 ->
  binary32 (fsum round32 [1; u])
  /\ 1 <= fsum round32 [1; u] <= 1 + 22 / 1000000.
Proof.
  intros Hu.
  assert (H1 : round32 1 = 1).
  { apply (round32_exact 1 0 8388608); [|lia|].
    - rewrite Rabs_pos_eq by lra.
      change (powerRZ 2 0) with 1. change (powerRZ 2 (0 + 1)) with (2 ^ 1).
      lra.
    - change (powerRZ 2 (0 - 23)) with (/ 2 ^ 23). lra. }
  assert (E : fsum round32 [1; u] = round32 (1 + u)).
  { unfold fsum. cbn [foldl]. unfold fadd.
    replace (0 + 1) with 1 by lra. by rewrite H1. }
  rewrite E.
  assert (Hx : powerRZ 2 0 <= Rabs (1 + u) < powerRZ 2 (0 + 1)).
  { rewrite Rabs_pos_eq by lra.
    change (powerRZ 2 0) with 1. change (powerRZ 2 (0 + 1)) with (2 ^ 1).
    lra. }
  destruct (round32_error (1 + u) 0 Hx) as (n & Hn & Herr); [lia|].
  change (powerRZ 2 (0 - 23)) with (/ 2 ^ 23) in Herr.
  apply Rabs_le_inv in Herr.
  set (s := round32 (1 + u)) in *.
  assert (Hs : 1 <= s <= 1 + 22 / 1000000) by lra.
  split; [|done].
  apply (round32_exact s 0 n); [|lia|exact Hn].
  rewrite Rabs_pos_eq by lra.
  change (powerRZ 2 0) with 1. change (powerRZ 2 (0 + 1)) with (2 ^ 1).
  lra.
Qed.

(** Adding a small logarithm to [-1000] is lost in the rounding. *)
Lemma fadd_absorbs (l : R) :
  0 <= l <= 23 / 1000000 -> fadd round32 (-1000) l = -1000.
Proof.
  intros Hl. unfold fadd, round32.
  assert (Hx : powerRZ 2 9 <= Rabs (-1000 + l) < powerRZ 2 (9 + 1)).
  { rewrite Rabs_left by lra.
    change (powerRZ 2 9) with (2 ^ 9).
    change (powerRZ 2 (9 + 1)) with (2 ^ 10). lra. }
  rewrite (quantum_normal _ 9 Hx) by lia.
  change (powerRZ 2 (9 - 23)) with (/ 2 ^ 14).
  rewrite (nearest_even_below _ (-16384000)).
  - lra.
  - unfold Rdiv. rewrite Rinv_inv. lra.
Qed.

(** The responsibilities of two components whose expected
    log-likelihoods, log-weight included, are -1000 and -1011. *)
Lemma responsibilities32_value :
  responsibilities32 fexp flog [-999; -1010] [-1; -1] = [1; fexp (-11)].
Proof.
  destruct Hexp as [Hexp0 _].
  assert (R1000 : round32 (-1000) = -1000).
  { apply (round32_exact (-1000) 9 (-16384000)); [|lia|].
    - rewrite Rabs_left by lra.
      change (powerRZ 2 9) with (2 ^ 9).
      change (powerRZ 2 (9 + 1)) with (2 ^ 10). lra.
    - change (powerRZ 2 (9 - 23)) with (/ 2 ^ 14). lra. }
  assert (R1011 : round32 (-1011) = -1011).
  { apply (round32_exact (-1011) 9 (-16564224)); [|lia|].
    - rewrite Rabs_left by lra.
      change (powerRZ 2 9) with (2 ^ 9).
      change (powerRZ 2 (9 + 1)) with (2 ^ 10). lra.
    - change (powerRZ 2 (9 - 23)) with (/ 2 ^ 14). lra. }
  assert (R11 : round32 (-11) = -11).
  { apply (round32_exact (-11) 3 (-11534336)); [|lia|].
    - rewrite Rabs_left by lra.
      change (powerRZ 2 3) with (2 ^ 3).
      change (powerRZ 2 (3 + 1)) with (2 ^ 4). lra.
    - change (powerRZ 2 (3 - 23)) with (/ 2 ^ 20). lra. }
  assert (W : zip_with (fadd round32) [-999; -1010] [-1; -1]
              = [-1000; -1011]).
  { cbn [zip_with]. unfold fadd.
    replace (-999 + -1) with (-1000) by lra.
    replace (-1010 + -1) with (-1011) by lra.
    by rewrite R1000, R1011. }
  unfold responsibilities32, lane_responsibilities. rewrite W.
  assert (Hlse : lane_logsumexp round32 fexp flog [-1000; -1011] = -1000).
  { unfold lane_logsumexp. cbn [list_max Rmax_list].
    rewrite (Rmax_left (-1000) (-1011)) by lra.
    cbn [map]. unfold fsub.
    replace (-1000 - -1000) with 0 by lra.
    replace (-1011 - -1000) with (-11) by lra.
    rewrite round32_0, R11, Hexp0.
    destruct (fsum_exps (fexp (-11)) fexp_m11) as [Hb Hs].
    set (s := fsum round32 [1; fexp (-11)]) in *.
    pose proof (Hlog s Hb ltac:(lra)) as Hl. apply Rabs_le_inv in Hl.
    assert (H0 : 0 <= ln s).
    { rewrite <- ln_1. destruct (Req_dec 1 s) as [<-|]; [lra|].
      left. apply ln_increasing; lra. }
    pose proof (ln_le_pred s ltac:(lra)) as H1.
    apply fadd_absorbs. lra. }
  rewrite Hlse. cbn [map]. unfold fsub.
  replace (-1000 - -1000) with 0 by lra.
  replace (-1011 - -1000) with (-11) by lra.
  by rewrite round32_0, R11, Hexp0.
Qed.

Lemma responsibilities32_sum :
  1 + 1 / 100000 < Rsum (responsibilities32 fexp flog [-999; -1010] [-1; -1]).
Proof.
  rewrite responsibilities32_value. pose proof fexp_m11. simpl. lra.
Qed.

End Lane.


(** *** The assumptions on [exp] and [log] can be met *)

Lemma binade_spec (x : R) :
  x <> 0 -> powerRZ 2 (binade x) <= Rabs x < powerRZ 2 (binade x + 1).
Proof.
  intros Hx. pose proof (Rabs_pos_lt x Hx) as Hp.
  pose proof ln2_pos as H2.
  pose proof (Zfloor_bound (ln (Rabs x) / ln 2)) as [Hlo Hhi].
  fold (binade x) in Hlo, Hhi.
  rewrite !powerRZ2_exp, plus_IZR.
  assert (A : IZR (binade x) * ln 2 <= ln (Rabs x)).
  { apply (Rmult_le_compat_r (ln 2)) in Hlo; [|lra].
    unfold Rdiv in Hlo. rewrite Rmult_assoc, Rinv_l, Rmult_1_r in Hlo; lra. }
  assert (B : ln (Rabs x) < (IZR (binade x) + 1) * ln 2).
  { apply (Rmult_lt_compat_r (ln 2)) in Hhi; [|lra].
    unfold Rdiv in Hhi. rewrite Rmult_assoc, Rinv_l, Rmult_1_r in Hhi; lra. }
  split.
  - rewrite <- (exp_ln (Rabs x)) at 1 by done.
    destruct A as [A|A]; [left; by apply exp_increasing|rewrite A; lra].
  - rewrite <- (exp_ln (Rabs x)) at 1 by done. by apply exp_increasing.
Qed.

Lemma powerRZ2_le (a b : Z) : (a <= b)%Z -> powerRZ 2 a <= powerRZ 2 b.
Proof.
  intros H. rewrite !powerRZ2_exp. pose proof ln2_pos.
  apply IZR_le in H. destruct H as [H|H]; [|rewrite H; lra].
  left. apply exp_increasing. nra.
Qed.

(** In the normal range rounding is accurate to one part in [2^24]. *)
Lemma round32_relative (y : R) :
  powerRZ 2 (-126) <= Rabs y -> Rabs (round32 y - y) <= Rabs y / 2 ^ 24.
Proof.
  intros Hy.
  assert (Hy0 : y <> 0).
  { intros ->. rewrite Rabs_R0 in Hy. pose proof (powerRZ2_pos (-126)). lra. }
  pose proof (binade_spec y Hy0) as Hb. set (b := binade y) in *.
  assert (Hb126 : (-126 <= b)%Z).
  { destruct (Z_le_gt_dec (-126) b) as [|Hgt]; [done|exfalso].
    pose proof (powerRZ2_le (b + 1) (-126) ltac:(lia)). lra. }
  destruct (round32_error y b Hb Hb126) as (n & _ & Herr).
  etransitivity; [exact Herr|].
  replace (b - 23)%Z with (b + -23)%Z by lia.
  rewrite powerRZ_add by lra.
  change (powerRZ 2 (-23)) with (/ 2 ^ 23).
  pose proof (powerRZ2_pos b). destruct Hb as [Hb _].
  apply (Rmult_le_reg_r (2 ^ 24)); [lra|].
  replace (Rabs y / 2 ^ 24 * 2 ^ 24) with (Rabs y) by (field).
  lra.
Qed.

Lemma ln_ge_frac (y : R) : 0 <= y -> y / (1 + y) <= ln (1 + y).
Proof.
  intros Hy. pose proof (ln_le_pred (/ (1 + y))) as H.
  rewrite ln_Rinv in H by lra.
  assert (0 < / (1 + y)) by (apply Rinv_0_lt_compat; lra).
  specialize (H ltac:(done)).
  replace (y / (1 + y)) with (1 - / (1 + y)) by (field; lra). lra.
Qed.

Lemma correctly_rounded_accurate :
  accurate_exp (fun x => round32 (exp x))
  /\ accurate_log (fun x => round32 (ln x)).
Proof.
  split; [split|].
  - rewrite exp_0. apply (round32_exact 1 0 8388608); [|lia|].
    + rewrite Rabs_pos_eq by lra.
      change (powerRZ 2 0) with 1. change (powerRZ 2 (0 + 1)) with (2 ^ 1).
      lra.
    + change (powerRZ 2 (0 - 23)) with (/ 2 ^ 23). lra.
  - intros x _ Hx. pose proof (exp_pos x) as Hp.
    assert (Hlow : powerRZ 2 (-126) <= exp x).
    { transitivity (exp (-64)).
      - replace (-64) with (- (INR 64 * 1))
          by (rewrite INR_IZR_INZ; simpl; field).
        rewrite exp_Ropp, exp_pow.
        change (powerRZ 2 (-126)) with (/ 2 ^ 126).
        apply Rinv_le_contravar; [apply pow_lt, exp_pos|].
        transitivity (3 ^ 64).
        + apply pow_incr. split; [left; apply exp_pos|apply exp_le_3].
        + replace 3 with (IZR 3) by done. replace 2 with (IZR 2) by done.
          rewrite !pow_IZR. apply IZR_le. by vm_compute.
      - destruct (Req_dec (-64) x) as [<-|]; [lra|].
        left. apply exp_increasing. lra. }
    pose proof (round32_relative (exp x)) as H.
    rewrite !(Rabs_pos_eq (exp x)) in H by lra.
    specialize (H Hlow). etransitivity; [exact H|].
    apply Rmult_le_compat_l; [lra|].
    apply Rinv_le_contravar; [lra|]. lra.
  - intros x [n Hn] Hx.
    destruct (Req_dec x 1) as [->|Hne].
    { rewrite ln_1, round32_0. rewrite Rminus_diag, Rabs_R0. lra. }
    assert (Hstep : 1 + / 2 ^ 23 <= x).
    { destruct (Req_dec x 2) as [->|Hne2]; [lra|].
      assert (Hb : powerRZ 2 0 <= Rabs x < powerRZ 2 (0 + 1)).
      { rewrite Rabs_pos_eq by lra.
        change (powerRZ 2 0) with 1. change (powerRZ 2 (0 + 1)) with (2 ^ 1).
        lra. }
      rewrite (quantum_normal x 0 Hb) in Hn by lia.
      change (powerRZ 2 (0 - 23)) with (/ 2 ^ 23) in Hn.
      assert (Hlt : (8388608 < n)%Z).
      { apply lt_IZR. apply (Rmult_lt_reg_r (/ 2 ^ 23)); [lra|].
        rewrite <- Hn. lra. }
      assert (Hle : IZR 8388609 <= IZR n) by (apply IZR_le; lia).
      rewrite Hn. lra. }
    assert (Hln : / 2 ^ 24 <= ln x).
    { pose proof (ln_ge_frac (x - 1) ltac:(lra)) as H.
      replace (1 + (x - 1)) with x in H by lra.
      etransitivity; [|exact H].
      apply (Rmult_le_reg_r x); [lra|].
      replace ((x - 1) / x * x) with (x - 1) by (field; lra). lra. }
    pose proof (round32_relative (ln x)) as H.
    rewrite !(Rabs_pos_eq (ln x)) in H by lra.
    assert (Hlow : powerRZ 2 (-126) <= ln x).
    { etransitivity; [|exact Hln].
      change (powerRZ 2 (-126)) with (/ 2 ^ 126).
      apply Rinv_le_contravar; [lra|].
      replace 2 with (IZR 2) by done.
      rewrite !pow_IZR. apply IZR_le. by vm_compute. }
    specialize (H Hlow). etransitivity; [exact H|].
    apply Rmult_le_compat_l; [lra|].
    apply Rinv_le_contravar; lra.
Qed.

(** C5, as stated, fails in binary32.  For one sample and one mixture of
    two components with expected log-likelihoods -999 and -1010 and
    expected log-weights -1 each (all binary32 numbers), the
    responsibilities [forward] computes add up to more than 1 + 1e-5,
    whatever [exp] and [log] the library provides within the assumed
    accuracy: the logarithm added to the maximum -1000 is lost in the
    rounding, the spacing of binary32 numbers being [2^-14] there.  The
    correctly rounded [exp] and [log] meet the assumptions.  The same
    lane without rounding, with the real [exp] and [ln], has the closed
    form whose entries add up to 1. *)
Lemma responsibilities32_exceed_tolerance :
  Forall binary32 [-999; -1010; -1]
  /\ (forall fexp flog, accurate_exp fexp -> accurate_log flog ->
        1 + 1 / 100000
        < Rsum (responsibilities32 fexp flog [-999; -1010] [-1; -1]))
  /\ (accurate_exp (fun x => round32 (exp x))
      /\ accurate_log (fun x => round32 (ln x)))
  /\ lane_responsibilities (fun x => x) exp ln [-999; -1010] [-1; -1]
     = map (fun x => exp (x - stable_logsumexp [-999 + -1; -1010 + -1]))
           [-999 + -1; -1010 + -1].
Proof.
  split; [|split; [|split; [exact correctly_rounded_accurate|]]];
    [| |exact (lane_responsibilities_exact [-999; -1010] [-1; -1])].
  - repeat constructor.
    + apply (round32_exact (-999) 9 (-16367616)); [|lia|].
      * rewrite Rabs_left by lra.
        change (powerRZ 2 9) with (2 ^ 9).
        change (powerRZ 2 (9 + 1)) with (2 ^ 10). lra.
      * change (powerRZ 2 (9 - 23)) with (/ 2 ^ 14). lra.
    + apply (round32_exact (-1010) 9 (-16547840)); [|lia|].
      * rewrite Rabs_left by lra.
        change (powerRZ 2 9) with (2 ^ 9).
        change (powerRZ 2 (9 + 1)) with (2 ^ 10). lra.
      * change (powerRZ 2 (9 - 23)) with (/ 2 ^ 14). lra.
    + apply (round32_exact (-1) 0 (-8388608)); [|lia|].
      * rewrite Rabs_left by lra.
        change (powerRZ 2 0) with 1. change (powerRZ 2 (0 + 1)) with (2 ^ 1).
        lra.
      * change (powerRZ 2 (0 - 23)) with (/ 2 ^ 23). lra.
  - intros fexp flog Hexp Hlog. by apply responsibilities32_sum.
Qed.

End Binary32Facts.

(** ** Mixture sets: accumulation (C6) *)

Module AccumulateFacts.
Import TorchFacts.
Import ReduceFacts.

Lemma lookup_map {A B} (f : A -> B) (l : list A) i :
  map f l !! i = f <$> (l !! i).
Proof.
  rewrite map_fmap. apply list_lookup_fmap.
Qed.

Lemma dict_of_snoc pairs (p : nat * Tensor) :
  dict_of (pairs ++ [p]) = <[p.1 := p.2]> (dict_of pairs).
Proof. unfold dict_of. by rewrite foldl_app. Qed.

(** With distinct keys, [dict(pairs)] maps each key to its value. *)
Lemma dict_of_lookup (pairs : list (nat * Tensor)) k v :
  NoDup (map fst pairs) -> (k, v) ∈ pairs -> dict_of pairs !! k = Some v.
Proof.
  induction pairs as [|p pairs IH] using rev_ind; intros Hnd Hin.
  - by apply elem_of_nil in Hin.
  - rewrite dict_of_snoc. rewrite map_app in Hnd.
    apply NoDup_app in Hnd as (Hnd & Hfresh & _).
    apply elem_of_app in Hin as [Hin|Hin].
    + assert (k <> p.1).
      { intros ->. apply (Hfresh p.1).
        * apply list_elem_of_In, in_map_iff. exists (p.1, v).
          split; [done|]. by apply list_elem_of_In.
        * simpl. by apply list_elem_of_singleton. }
      rewrite lookup_insert_ne by done. by apply IH.
    + apply list_elem_of_singleton in Hin as <-. simpl.
      apply lookup_insert_eq.
Qed.

Lemma dict_of_lookup_None (pairs : list (nat * Tensor)) k :
  k ∉ map fst pairs -> dict_of pairs !! k = None.
Proof.
  induction pairs as [|p pairs IH] using rev_ind; intros Hk.
  - apply lookup_empty.
  - rewrite dict_of_snoc. rewrite map_app in Hk.
    apply not_elem_of_app in Hk as [Hk Hp].
    rewrite lookup_insert_ne; [by apply IH|].
    intros <-. apply Hp. simpl. by apply list_elem_of_singleton.
Qed.

Section MixtureSet.
Context {Stats Model : Type}.
Implicit Types self : MixtureSet Stats Model.

(** C6.  With the responsibilities of a batch in the cache and a parent
    message of shape [(batch, num_mix)], [accumulate] forms the joint
    responsibilities [resps[s,m,c] * parent_msg[s,m]], maps the weight
    parameter of every mixture [m] to the vector whose entry [c] is the
    sum over the samples [s] of [parent_msg[s,m] * resps[s,m,c]], hands
    the joint responsibilities, viewed with shape
    [(batch, num_mix * num_comp)], to the component set as its parent
    message, and returns the mapping of the component set merged over
    the one of the weights. *)
Theorem accumulate_routes_responsibilities self (s_stats : Stats)
  (parent_msg resps : Tensor) (B : nat) :
  cache self !! "resps" = Some resps ->
  shape resps = [B; num_mix self; num_comp self] ->
  shape parent_msg = [B; num_mix self] ->
  num_mix self * num_comp self <> 0 ->
  length (mix_weights self) = num_mix self ->
  NoDup (map ident (mix_weights self)) ->
  exists joint child_msg (per_weight : gmap nat Tensor),
    shape joint = [B; num_mix self; num_comp self]
    /\ (forall s m c,
          s < B -> m < num_mix self -> c < num_comp self ->
          item joint [s; m; c]
          = (item resps [s; m; c] * item parent_msg [s; m])%R
          /\ item child_msg [s; m * num_comp self + c]
             = item joint [s; m; c])
    /\ shape child_msg = [B; num_mix self * num_comp self]
    /\ storage child_msg = storage joint
    /\ (forall m p,
          mix_weights self !! m = Some p ->
          exists v,
            per_weight !! ident p = Some v
            /\ shape v = [num_comp self]
            /\ forall c, c < num_comp self ->
                 item v [c]
                 = Rsum (map (fun s => (item parent_msg [s; m]
                                        * item resps [s; m; c])%R)
                             (seq 0 B)))
    /\ (forall k, k ∉ map ident (mix_weights self) ->
                  per_weight !! k = None)
    /\ accumulate s_stats (Some parent_msg) self
       = (acc_stats <- ms_accumulate (modelset self) s_stats
                         (Some child_msg) ;;
          Return (acc_stats ∪ per_weight), self).
Proof.
  intros Hcache Hsh Hpm HMC Hlen Hnd.
  set (M := num_mix self) in *. set (C := num_comp self) in *.
  set (msg3 := mkTensor [B; M; 1] (storage parent_msg)).
  set (joint := tabulate [B; M; C]
                  (fun i => (item resps (bidx [B; M; C] i)
                             * item msg3 (bidx [B; M; 1%nat] i))%R)).
  set (sums := tabulate [M; C] (fun idx => Rsum (lane joint 0 idx))).
  set (per_mix := map (fun i => tabulate [C]
                                  (fun idx => item sums (i :: idx)))
                      (seq 0 M)).
  set (child := mkTensor [B; M * C] (storage joint)).
  assert (Hjoint : forall s m c, s < B -> m < M -> c < C ->
            item joint [s; m; c]
            = (item resps [s; m; c] * item parent_msg [s; m])%R).
  { intros s m c Hs Hm Hc. unfold joint.
    rewrite item3_tabulate by lia.
    rewrite !bidx3, !clamp_lt by lia. f_equal.
    unfold item, msg3. rewrite Hpm. simpl. f_equal; lia. }
  exists joint, child, (dict_of (zip (map ident (mix_weights self)) per_mix)).
  split; [done|]. split; [|split; [done|split; [done|split; [|split]]]].
  - intros s m c Hs Hm Hc. split; [by apply Hjoint|].
    unfold item, child. simpl. f_equal. lia.
  - intros m p Hp.
    assert (Hm : m < M) by (rewrite <- Hlen; by eapply lookup_lt_Some).
    exists (tabulate [C] (fun idx => item sums (m :: idx))).
    split; [|split; [done|]].
    + apply dict_of_lookup.
      * rewrite map_fmap, fst_zip; [done|].
        unfold per_mix. rewrite !length_map, length_seq. lia.
      * apply (list_elem_of_lookup_2 _ m).
        apply lookup_zip_with_Some.
        eexists _, _. split; [done|]. split.
        -- by rewrite lookup_map, Hp.
        -- unfold per_mix. by rewrite lookup_map, lookup_seq_lt.
    + intros c Hc.
      rewrite item_tabulate by (repeat constructor; done).
      unfold sums. rewrite item_tabulate by (repeat constructor; done).
      unfold lane. change (ix (shape joint) 0) with B.
      apply Rsum_ext. intros s Hs. apply in_seq in Hs.
      change (insert_at 0 s [m; c]) with [s; m; c].
      rewrite Hjoint by lia. lra.
  - intros k Hk. apply dict_of_lookup_None.
    intros Hin. apply Hk.
    apply list_elem_of_In, in_map_iff in Hin as ([k' v] & <- & Hin).
    apply list_elem_of_In, list_elem_of_lookup in Hin as [i Hi].
    apply lookup_zip_with_Some in Hi as (x & y & [= <- <-] & Hx & _).
    by apply list_elem_of_lookup_2 in Hx.
  - assert (Hunsq : unsqueeze parent_msg 2 = Return msg3).
    { unfold unsqueeze. by rewrite Hpm. }
    assert (Hmul : mul resps msg3 = Return joint).
    { unfold mul. rewrite map2_fits_r
        by (rewrite Hsh; solve_fits).
      by rewrite Hsh. }
    assert (Hsum : sum_dim joint 0 = Return sums).
    { by rewrite sum_dim_eq by (simpl; lia). }
    assert (Hrows : rows sums = Return per_mix) by done.
    assert (Hview : view_infer joint [M * C] = Return child).
    { unfold view_infer. change (shape joint) with [B; M; C].
      assert (Hn : numel [B; M; C] = B * numel [M * C]) by (simpl; lia).
      assert (Hr : numel [M * C] <> 0) by (simpl; lia).
      rewrite Hn, Nat.Div0.mod_mul, Nat.div_mul by done.
      by destruct (numel [M * C] =? 0) eqn:E0;
        [apply Nat.eqb_eq in E0|]. }
    unfold accumulate, bindM, get, cache_get, lift, ret.
    rewrite Hcache, Hunsq, Hmul, Hsum, Hrows. fold M C.
    rewrite Hview.
    by destruct (ms_accumulate (modelset self) s_stats (Some child)).
Qed.

End MixtureSet.

Import Samples.
#[local] Existing Instance plain_torch.

Lemma accumulate_routes_responsibilities_witness :
  exists acc v,
    (accumulate 1 (Some (mkTensor [1; 2] [1; 1]%R)) fed_mixtures).1
    = Return acc
    /\ acc !! 0 = Some v
    /\ shape v = [1].
Proof.
  destruct (accumulate_routes_responsibilities fed_mixtures 1
              (mkTensor [1; 2] [1; 1]%R) (mkTensor [1; 2; 1] [1; 1]%R) 1)
    as (joint & child & per_weight & _ & _ & _ & _ & Hw & _ & Hacc).
  - apply lookup_insert_eq.
  - reflexivity.
  - reflexivity.
  - cbn. lia.
  - reflexivity.
  - apply (NoDup_seq 0 2).
  - destruct (Hw 0 _ eq_refl) as (v & Hv & Hshv & _).
    rewrite Hacc. cbn [fed_mixtures set_cache two_mixtures two_models modelset ms_accumulate bind fst].
    exists (∅ ∪ per_weight), v.
    split; [reflexivity|]. split; [|exact Hshv].
    rewrite (left_id_L ∅ (∪)). exact Hv.
Defined.

End AccumulateFacts.

(** ** Mixture sets: indexing, length, missing parent message (C7, C8) *)

Module MixtureFacts.

Lemma mapM_length {A B} (f : A -> result B) l k :
  mapM f l = Return k -> length k = length l.
Proof.
  revert k. induction l as [|x l IH]; intros k; simpl.
  - by intros [= <-].
  - destruct (f x); [|done]. destruct (mapM f l); [|done].
    intros [= <-]. simpl. f_equal. by apply IH.
Qed.

Section MixtureSet.
Context {Stats Model : Type}.
Implicit Types self : MixtureSet Stats Model.

(** The parts of C7 that hold for every mixture set. *)
Lemma len_is_num_mix self : MixtureSet_len self = num_mix self.
Proof. reflexivity. Qed.

Lemma getitem_modelset self key el :
  getitem self key = Return el ->
  mapM (ms_getitem (modelset self))
       (seq (key * num_comp self) (num_comp self))
  = Return (el_modelset el)
  /\ length (el_modelset el) = num_comp self.
Proof.
  unfold getitem.
  destruct (log_weights self); simpl; [|done].
  destruct (view _ _); simpl; [|done].
  destruct (mapM _ _) as [mdls|] eqn:E; simpl; [|done].
  destruct (select _ _); simpl; [|done].
  intros [= <-]. simpl. split; [done|].
  apply mapM_length in E. by rewrite E, length_seq.
Qed.

(** The returned weights are one row of the table of weights divided by
    the sum of the whole table. *)
Lemma getitem_weights self key el :
  getitem self key = Return el ->
  exists lw table row,
    log_weights self = Return lw
    /\ view (tmap exp lw) [num_mix self; num_comp self] = Return table
    /\ select table key = Return row
    /\ sum_all (weights el) = (sum_all row / sum_all table)%R.
Proof.
  unfold getitem.
  destruct (log_weights self) as [lw|]; simpl; [|done].
  destruct (view _ _) as [table|] eqn:Ev; simpl; [|done].
  destruct (mapM _ _); simpl; [|done].
  destruct (select _ _) as [row|] eqn:Es; simpl; [|done].
  intros [= <-]. exists lw, table, row. repeat (split; [done|]).
  unfold sum_all. simpl. apply TorchFacts.Rsum_scale.
Qed.

(** C8.  Without a parent message [accumulate] raises [ValueError]: no
    mapping is returned and the mixture set is left as it was. *)
Theorem accumulate_without_parent_msg self (s_stats : Stats) :
  accumulate s_stats None self = (Raise ValueError, self).
Proof. reflexivity. Qed.

End MixtureSet.

Import Samples.

Section WithTorch.
Context `{TorchExt}.

(** C7, on the code.  Two mixtures of one component each are what
    [MixtureSet.__init__] builds from four one-component Dirichlet priors;
    the set has length 2 and its element 0 holds the one sub-model of the
    slice [0, 1), but the weight vector of that element sums to 1/2: the
    row of weights is divided by the sum over both mixtures. *)
Theorem getitem_weights_sum_to_half :
  MixtureSet_init 0 [one_component; one_component]
                  [one_component; one_component] two_models
  = Return two_mixtures
  /\ MixtureSet_len two_mixtures = 2
  /\ exists el,
       getitem two_mixtures 0 = Return el
       /\ el_modelset el = [0]
       /\ shape (weights el) = [1]
       /\ sum_all (weights el) = (1 / 2)%R.
Proof.
  split; [reflexivity|]. split; [reflexivity|].
  eexists. split; [run; reflexivity|].
  split; [reflexivity|]. split; [reflexivity|].
  run. rewrite exp_0. lra.
Qed.

End WithTorch.
End MixtureFacts.

(** ** Splitting sufficient statistics (C9) *)

Module SplitFacts.

Lemma solve_dim_root c D : solve_dim c (D * D + c * D) = D.
Proof.
  unfold solve_dim.
  replace (c * c + 4 * (D * D + c * D)) with ((2 * D + c) * (2 * D + c))
    by lia.
  rewrite Nat.sqrt_square.
  replace (2 * D + c - c) with (D * 2) by lia.
  by rewrite Nat.div_mul.
Qed.

Lemma slice_app_l (a b : list R) n :
  length a = n -> slice (a ++ b) 0 n = a.
Proof. intros <-. unfold slice. by rewrite take_app_length. Qed.

Lemma slice_app_mid (a b c : list R) n m :
  length a = n -> n + length b = m -> slice (a ++ b ++ c) n m = b.
Proof.
  intros <- <-. unfold slice.
  rewrite app_assoc, <- length_app, take_app_length.
  by rewrite drop_app_length.
Qed.

Lemma drop_app_l (a b : list R) n : length a = n -> drop n (a ++ b) = b.
Proof. intros <-. apply drop_app_length. Qed.

Lemma view_vec (l : list R) sh :
  numel sh = length l -> view (vec l) sh = Return (mkTensor sh l).
Proof.
  intros Hn. unfold view, vec. simpl.
  by rewrite Nat.mul_1_r, Hn, Nat.eqb_refl.
Qed.

(** The identity of [DirichletPrior.split_sufficient_statistics]: there is
    one group. *)
Lemma Dirichlet_split_concat (group : Tensor) :
  Dirichlet_split_sufficient_statistics group = PyTensor group.
Proof. reflexivity. Qed.

(** Normal with full covariance: a [D x D] block, then a [D] block. *)
Lemma normal_fc_split_concat D (np1 np2 : list R) :
  length np1 = D * D -> length np2 = D ->
  _normal_fc_split_nparams (np1 ++ np2)
  = Return (PyTuple [PyTensor (mkTensor [D; D] np1); PyTensor (vec np2);
                     PyInt D]).
Proof.
  intros H1 H2. unfold _normal_fc_split_nparams.
  rewrite length_app, H1, H2.
  replace (D * D + D) with (D * D + 1 * D) by lia.
  rewrite solve_dim_root, slice_app_l by done.
  rewrite view_vec by (simpl; lia). simpl.
  by rewrite drop_app_l.
Qed.

(** Normal-Wishart: a [D x D] block, a [D] block, two scalars. *)
Lemma normalwishart_split_concat D (np1 np2 : list R) (np3 np4 : R) :
  length np1 = D * D -> length np2 = D ->
  _normalwishart_split_nparams (np1 ++ np2 ++ [np3; np4])
  = Return (PyTuple [PyTensor (mkTensor [D; D] np1); PyTensor (vec np2);
                     PyTensor (scalar np3); PyTensor (scalar np4);
                     PyInt D]).
Proof.
  intros H1 H2. unfold _normalwishart_split_nparams.
  assert (Hn : length (np1 ++ np2 ++ [np3; np4]) - 2 = length (np1 ++ np2)).
  { rewrite !length_app. simpl. lia. }
  rewrite Hn.
  assert (Ht : take (length (np1 ++ np2)) (np1 ++ np2 ++ [np3; np4])
               = np1 ++ np2).
  { by rewrite app_assoc, take_app_length. }
  assert (Hd : drop (length (np1 ++ np2)) (np1 ++ np2 ++ [np3; np4])
               = [np3; np4]).
  { by rewrite app_assoc, drop_app_length. }
  rewrite Ht, Hd.
  rewrite length_app, H1, H2.
  replace (D * D + D) with (D * D + 1 * D) by lia.
  rewrite solve_dim_root, slice_app_l by done.
  rewrite view_vec by (simpl; lia). simpl.
  rewrite slice_app_mid by (rewrite ?H2; lia).
  reflexivity.
Qed.

(** Joint Normal-Gamma with [K] components: [D], [K x D], [K x D], [D]. *)
Lemma jointnormalgamma_split_concat K D (np1 np2s np3s np4 : list R) :
  length np1 = D -> length np2s = K * D -> length np3s = K * D ->
  length np4 = D ->
  _jointnormalgamma_split_nparams (np1 ++ np2s ++ np3s ++ np4) K
  = Return (PyTuple [PyTensor (vec np1); PyTensor (mkTensor [K; D] np2s);
                     PyTensor (mkTensor [K; D] np3s); PyTensor (vec np4);
                     PyInt D]).
Proof.
  intros H1 H2 H3 H4. unfold _jointnormalgamma_split_nparams.
  rewrite !length_app, H1, H2, H3, H4.
  replace (D + (K * D + (K * D + D))) with (D * (2 + 2 * K)) by lia.
  rewrite Nat.div_mul by lia.
  rewrite slice_app_l by done.
  rewrite slice_app_mid by lia.
  rewrite view_vec by (simpl; lia). simpl.
  rewrite (app_assoc np1 np2s).
  rewrite slice_app_mid by (rewrite ?length_app; lia).
  rewrite view_vec by (simpl; lia). simpl.
  rewrite !app_assoc.
  by rewrite drop_app_l by (rewrite !length_app; lia).
Qed.

(** Joint Normal-Wishart with [K] components: [D x D], [K x D], [K]
    scalings, one scalar. *)
Lemma jointnormalwishart_split_concat K D (np1 np2s np3s : list R)
  (np4 : R) :
  length np1 = D * D -> length np2s = K * D -> length np3s = K ->
  _jointnormalwishart_split_nparams (np1 ++ np2s ++ np3s ++ [np4]) K
  = Return (PyTuple [PyTensor (mkTensor [D; D] np1);
                     PyTensor (mkTensor [K; D] np2s); PyTensor (vec np3s);
                     PyTensor (scalar np4); PyInt D]).
Proof.
  intros H1 H2 H3. unfold _jointnormalwishart_split_nparams.
  set (l := np1 ++ np2s ++ np3s ++ [np4]).
  assert (Hl : length l = D * D + K * D + K + 1).
  { unfold l. rewrite !length_app, H1, H2, H3. simpl. lia. }
  assert (Hn : length l - (K + 1) = length (np1 ++ np2s)).
  { rewrite Hl, length_app. lia. }
  assert (Ht : take (length (np1 ++ np2s)) l = np1 ++ np2s).
  { unfold l. by rewrite app_assoc, take_app_length. }
  rewrite Hn, Ht, length_app, H1, H2.
  rewrite solve_dim_root.
  unfold l at 1. rewrite slice_app_l by done.
  rewrite view_vec by (simpl; lia). simpl.
  unfold l at 1. rewrite slice_app_mid by lia.
  rewrite view_vec by (simpl; lia). simpl.
  assert (Hs : slice l (D * D + K * D) (length l - 1) = np3s).
  { unfold l. rewrite (app_assoc np1 np2s).
    apply slice_app_mid; rewrite ?length_app, ?H1, ?H2, ?H3; simpl; lia. }
  rewrite Hs.
  unfold select, vec. simpl.
  assert (Hlt : (length l - 1 <? length l) = true)
    by (apply Nat.ltb_lt; lia).
  rewrite Hlt. do 4 f_equal.
  unfold tabulate, item. simpl. unfold scalar. do 3 f_equal.
  rewrite Nat.mul_1_r, Nat.add_0_r.
  unfold l. rewrite !app_assoc.
  rewrite app_nth2 by (rewrite !length_app in *; simpl in *; lia).
  replace (_ - _) with 0 by (rewrite !length_app in *; simpl in *; lia).
  done.
Qed.

(** C9, on the code.  For the isotropic Normal the splitter returns [None]
    for the concatenation of the scalar [np1] and the vector [np2], not the
    two groups, and the log-normalizer that unpacks its result raises; the
    Matrix-Normal splitter returns no groups either. *)
Theorem normal_iso_split_returns_None :
  (forall (np1 : R) (np2 : list R),
     _normal_iso_split_nparams (np1 :: np2) = Return PyNone
     /\ _normal_iso_log_norm (np1 :: np2) = Raise TypeError)
  /\ (forall natural_params dim1 dim2,
        _matrixnormal_fc_split_nparams natural_params dim1 dim2
        = Return PyNone
        \/ exists e, _matrixnormal_fc_split_nparams natural_params dim1 dim2
                     = Raise e).
Proof.
  split.
  - intros np1 np2. split; reflexivity.
  - intros l d1 d2. unfold _matrixnormal_fc_split_nparams.
    destruct (view _ [d1; d1]); simpl; [|by eauto].
    destruct (view _ [d1; d2]); simpl; by eauto.
Qed.

End SplitFacts.

(** ** Tensors: one axis of many *)

Module AxisFacts.
Import TorchFacts ReduceFacts.

Lemma delete_insert_at d k (idx : list nat) :
  d <= length idx -> delete d (insert_at d k idx) = idx.
Proof.
  revert idx. induction d as [|d IH]; intros idx Hd.
  - done.
  - destruct idx as [|i idx]; simpl in *; [lia|].
    unfold insert_at in *. simpl. f_equal. apply IH. lia.
Qed.

Lemma insert_at_cons d k i (idx : list nat) :
  insert_at (S d) k (i :: idx) = i :: insert_at d k idx.
Proof. done. Qed.

Lemma valid_insert_at d k idx sh :
  d < length sh -> valid idx (delete d sh) -> k < ix sh d ->
  valid (insert_at d k idx) sh.
Proof.
  revert idx sh. induction d as [|d IH]; intros idx sh Hd Hv Hk.
  - destruct sh as [|n sh]; simpl in *; [lia|].
    unfold insert_at. simpl. by constructor.
  - destruct sh as [|n sh]; simpl in *; [lia|].
    inversion Hv as [|i ? idx' ? Hi Hv']; subst.
    rewrite insert_at_cons. constructor; [done|].
    apply IH; [lia|done|done].
Qed.

Lemma numel_squeeze d sh :
  d < length sh -> numel (<[d:=1]> sh) = numel (delete d sh).
Proof.
  revert sh. induction d as [|d IH]; intros sh Hd;
    destruct sh as [|n sh]; simpl in *; try lia.
  rewrite IH by lia. done.
Qed.

Lemma ravel_squeeze d sh idx :
  d < length sh -> valid idx (delete d sh) ->
  ravel (<[d:=1]> sh) (insert_at d 0 idx) = ravel (delete d sh) idx.
Proof.
  revert sh idx. induction d as [|d IH]; intros sh idx Hd Hv;
    destruct sh as [|n sh]; simpl in *; try lia.
  - unfold insert_at. simpl. done.
  - inversion Hv as [|i ? idx' ? Hi Hv']; subst.
    rewrite insert_at_cons. simpl.
    rewrite IH by (done || lia).
    fold (numel (<[d:=1]> sh)). fold (numel (delete d sh)).
    by rewrite numel_squeeze by lia.
Qed.

Lemma fits_squeeze d sh : fits (<[d:=1]> sh) sh.
Proof.
  unfold fits. revert d. induction sh as [|n sh IH]; intros d.
  - constructor.
  - destruct d; simpl; constructor; auto. apply fits_refl.
Qed.

Lemma zip_clamp_valid idx sh : valid idx sh -> zip_with clamp sh idx = idx.
Proof.
  induction 1 as [|i m idx sh Hi _ IH]; simpl; [done|].
  rewrite IH. f_equal. by apply clamp_lt.
Qed.

Lemma clamp_squeeze d k idx sh :
  d < length sh -> valid idx (delete d sh) ->
  zip_with clamp (<[d:=1]> sh) (insert_at d k idx) = insert_at d 0 idx.
Proof.
  revert sh idx. induction d as [|d IH]; intros sh idx Hd Hv;
    destruct sh as [|n sh]; simpl in *; try lia.
  - unfold insert_at. simpl. f_equal. by apply zip_clamp_valid.
  - inversion Hv as [|i ? idx' ? Hi Hv']; subst.
    rewrite !insert_at_cons. simpl. rewrite IH by (done || lia).
    f_equal. by apply clamp_lt.
Qed.

Lemma valid_squeeze d idx sh :
  d < length sh -> valid idx (delete d sh) ->
  valid (insert_at d 0 idx) (<[d:=1]> sh).
Proof.
  revert sh idx. induction d as [|d IH]; intros sh idx Hd Hv;
    destruct sh as [|n sh]; simpl in *; try lia.
  - unfold insert_at. simpl. constructor; [lia|done].
  - inversion Hv as [|i ? idx' ? Hi Hv']; subst.
    rewrite insert_at_cons. constructor; [done|]. apply IH; [lia|done].
Qed.

Lemma length_valid_delete d idx (sh : list nat) :
  d < length sh -> valid idx (delete d sh) -> d <= length idx.
Proof.
  intros Hd Hv. apply Forall2_length in Hv.
  rewrite length_delete in Hv by (apply lookup_lt_is_Some; done). lia.
Qed.

Lemma lookup_ix (sh : list nat) d n : sh !! d = Some n -> ix sh d = n.
Proof.
  unfold ix. revert d. induction sh as [|m sh IH]; intros [|d]; simpl; try done.
  - by intros [= ->].
  - apply IH.
Qed.

Lemma norm_dim_lt n z d : norm_dim n z = Return d -> d < n.
Proof.
  unfold norm_dim.
  destruct (Z.leb_spec 0 z), (Z.ltb_spec z (Z.of_nat n)); simpl;
    try (intros [= <-]; lia);
    destruct (Z.ltb_spec z 0), (Z.leb_spec (- Z.of_nat n) z); simpl;
    try discriminate; intros [= <-]; lia.
Qed.

Lemma norm_dim_Raise n z :
  (z < - Z.of_nat n \/ Z.of_nat n <= z)%Z -> norm_dim n z = Raise IndexError.
Proof.
  intros Hz. unfold norm_dim.
  destruct (Z.leb_spec 0 z), (Z.ltb_spec z (Z.of_nat n)); simpl; try lia;
    destruct (Z.ltb_spec z 0), (Z.leb_spec (- Z.of_nat n) z); simpl;
    try lia; done.
Qed.

Local Open Scope R_scope.

Lemma unravel_valid sh k : (k < numel sh)%nat -> valid (unravel sh k) sh.
Proof.
  revert k. induction sh as [|n sh IH]; intros k Hk; simpl in *.
  - constructor.
  - fold (numel sh) in *.
    assert (Hn : numel sh <> 0%nat) by (intros E; rewrite E in Hk; lia).
    constructor.
    + apply Nat.Div0.div_lt_upper_bound. lia.
    + apply IH. by apply Nat.mod_upper_bound.
Qed.

Lemma tabulate_ext sh f g :
  (forall idx, valid idx sh -> f idx = g idx) -> tabulate sh f = tabulate sh g.
Proof.
  intros Hfg. unfold tabulate. f_equal.
  apply map_ext_in. intros k Hk. apply in_seq in Hk.
  apply Hfg, unravel_valid. lia.
Qed.

Lemma valid2 n m i j : (i < n)%nat -> (j < m)%nat -> valid [i; j] [n; m].
Proof. intros. repeat constructor; done. Qed.

Lemma valid2_inv idx n m :
  valid idx [n; m] -> exists i j, idx = [i; j] /\ (i < n)%nat /\ (j < m)%nat.
Proof.
  intros Hv. inversion Hv as [|i ? idx1 ? Hi Hv1]; subst.
  inversion Hv1 as [|j ? idx2 ? Hj Hv2]; subst.
  inversion Hv2; subst. eauto.
Qed.

Lemma item_smul c t idx :
  wf t -> valid idx (shape t) -> item (smul c t) idx = c * item t idx.
Proof. intros. unfold smul. by rewrite item_tmap. Qed.

(** *** Finite sums *)

Lemma Rsum_mult_l (c : R) (f : nat -> R) l :
  c * Rsum (map f l) = Rsum (map (fun i => c * f i) l).
Proof. induction l as [|i l IH]; simpl; [lra|]. rewrite <- IH. lra. Qed.

Lemma Rsum_mult_r (c : R) (f : nat -> R) l :
  Rsum (map f l) * c = Rsum (map (fun i => f i * c) l).
Proof. induction l as [|i l IH]; simpl; [lra|]. rewrite <- IH. lra. Qed.

Lemma Rsum_plus (f g : nat -> R) l :
  Rsum (map (fun i => f i + g i) l) = Rsum (map f l) + Rsum (map g l).
Proof. induction l as [|i l IH]; simpl; [lra|]. rewrite IH. lra. Qed.

Lemma Rsum_swap (f : nat -> nat -> R) (I K : list nat) :
  Rsum (map (fun i => Rsum (map (fun k => f i k) K)) I)
  = Rsum (map (fun k => Rsum (map (fun i => f i k) I)) K).
Proof.
  induction I as [|i I IH]; simpl.
  - symmetry. by apply Rsum_zero.
  - rewrite IH. by rewrite <- Rsum_plus.
Qed.

Lemma Rsum_nonneg (f : nat -> R) l :
  (forall i, 0 <= f i) -> 0 <= Rsum (map f l).
Proof.
  intros Hf. induction l as [|i l IH]; simpl; [lra|].
  specialize (Hf i). lra.
Qed.

(** A sum against an indicator picks one term. *)
Lemma Rsum_delta (f c : nat -> R) (k n : nat) :
  (k < n)%nat ->
  Rsum (map (fun l => f l * (if (l =? k)%nat then c l else 0)) (seq 0 n))
  = f k * c k.
Proof.
  intros Hk.
  assert (Hgen : forall a m,
            Rsum (map (fun l => f l * (if (l =? k)%nat then c l else 0))
                      (seq a m))
            = if decide (a <= k < a + m)%nat then f k * c k else 0).
  { intros a m. revert a. induction m as [|m IH]; intros a; simpl.
    - by rewrite decide_False by lia.
    - rewrite IH. destruct (Nat.eqb_spec a k) as [->|Hne].
      + rewrite decide_False by lia. rewrite decide_True by lia. lra.
      + destruct (decide (S a <= k < S a + m)%nat).
        * rewrite decide_True by lia. lra.
        * rewrite decide_False by lia. lra. }
  rewrite Hgen. by rewrite decide_True by lia.
Qed.

Lemma Rsum_minus (f g : nat -> R) l :
  Rsum (map f l) - Rsum (map g l) = Rsum (map (fun i => f i - g i) l).
Proof. induction l as [|i l IH]; simpl; [lra|]. rewrite <- IH. lra. Qed.

Lemma Rsum_le (f g : nat -> R) l :
  (forall k, In k l -> f k <= g k) -> Rsum (map f l) <= Rsum (map g l).
Proof.
  induction l as [|k l IH]; intros Hfg; simpl; [lra|].
  assert (f k <= g k) by (apply Hfg; by left).
  assert (Rsum (map f l) <= Rsum (map g l))
    by (apply IH; intros j Hj; apply Hfg; by right).
  lra.
Qed.

(** *** Pointwise operations on tensors of one shape *)

Lemma map2_same f a b sh :
  shape a = sh -> shape b = sh ->
  map2 f a b = Return (tabulate sh (fun idx => f (item a idx) (item b idx))).
Proof.
  intros Ha Hb. rewrite map2_fits_r by (rewrite Ha, Hb; apply fits_refl).
  rewrite Ha, Hb. f_equal. apply tabulate_ext. intros idx Hv.
  by rewrite bidx_same.
Qed.

Lemma unravel1 D k : unravel [D] k = [k].
Proof. unfold unravel. cbn [numel foldr]. by rewrite Nat.div_1_r. Qed.

Lemma sum_all_tabulate1 D f :
  sum_all (tabulate [D] f) = Rsum (map (fun k => f [k]) (seq 0 D)).
Proof.
  unfold sum_all, tabulate. cbn [storage numel foldr].
  rewrite Nat.mul_1_r. f_equal. apply map_ext. intros k.
  by rewrite unravel1.
Qed.

Lemma norm_dim_last rank :
  rank <> 0%nat -> norm_dim rank (-1) = Return (rank - 1)%nat.
Proof.
  intros Hr. unfold norm_dim. cbn [Z.leb Z.compare andb].
  destruct (Z.leb_spec (- Z.of_nat rank) (-1)); [|lia].
  cbn. f_equal. lia.
Qed.

End AxisFacts.

(** ** beer/utils.py: logsumexp along any axis (X1, X2, X3) *)

Module LogsumexpFacts.
Import TorchFacts ReduceFacts SoftmaxFacts AxisFacts.

(** The log-sum-exp along any axis, before the final [view]: the tensor
    [retval] has the reduced axis at size one and holds the stable
    log-sum-exp of every lane. *)
Lemma logsumexp_retval (t : Tensor) (dim : Z) (d : nat) :
  norm_dim (length (shape t)) dim = Return d ->
  d < length (shape t) ->
  ix (shape t) d <> 0 ->
  exists retval,
    logsumexp t dim = view_star retval (delete d (shape t))
    /\ shape retval = <[d:=1]> (shape t)
    /\ forall idx, valid idx (delete d (shape t)) ->
         item retval (insert_at d 0 idx) = stable_logsumexp (lane t d idx).
Proof.
  intros Hn Hd Hne. unfold logsumexp. rewrite Hn. cbn [bind].
  set (sh := shape t) in *.
  destruct (sh !! d) as [n|] eqn:En.
  2: { apply lookup_ge_None in En. lia. }
  pose proof (lookup_ix _ _ _ En) as Hix.
  destruct n as [|n']; [lia|].
  rewrite (max_dim_keep_eq t d n') by done. fold sh.
  set (tmax := tabulate (<[d:=1]> sh) _). cbn [bind].
  unfold sub, add.
  rewrite (map2_fits_r Rminus t tmax) by apply fits_squeeze.
  fold sh. change (shape tmax) with (<[d:=1]> sh). cbn [bind].
  set (centred := tabulate sh _).
  rewrite sum_dim_keep_eq by done.
  change (shape (tmap exp centred)) with sh.
  set (total := tabulate (<[d:=1]> sh) _). cbn [bind].
  rewrite (map2_fits_r Rplus tmax (tmap ln total)) by apply fits_refl.
  change (shape tmax) with (<[d:=1]> sh).
  change (shape (tmap ln total)) with (<[d:=1]> sh).
  set (retval := tabulate (<[d:=1]> sh) _). cbn [bind].
  exists retval. split; [done|]. split; [done|].
  intros idx Hv.
  pose proof (length_valid_delete _ _ _ Hd Hv) as Hlen.
  pose proof (valid_squeeze _ _ _ Hd Hv) as Hv1.
  unfold retval. rewrite item_tabulate by done.
  rewrite bidx_same by done.
  assert (Hmax : item tmax (insert_at d 0 idx) = list_max (lane t d idx)).
  { unfold tmax. rewrite item_tabulate by done.
    by rewrite delete_insert_at. }
  rewrite Hmax. unfold stable_logsumexp. f_equal.
  rewrite item_tmap by (apply wf_tabulate || done). f_equal.
  unfold total. rewrite item_tabulate by done.
  rewrite delete_insert_at by done.
  unfold lane at 1. change (shape (tmap exp centred)) with sh.
  unfold lane at 2. fold sh. rewrite map_map.
  apply Rsum_ext. intros k Hk. apply in_seq in Hk.
  assert (Hvk : valid (insert_at d k idx) sh).
  { apply valid_insert_at; [done|done|lia]. }
  rewrite item_tmap by (apply wf_tabulate || done). f_equal.
  unfold centred. rewrite item_tabulate by done.
  rewrite bidx_same by done. f_equal.
  destruct (bidx_fits (<[d:=1]> sh) sh (insert_at d k idx)
              (fits_squeeze d sh) Hvk) as [_ ->].
  rewrite clamp_squeeze by done. exact Hmax.
Qed.

(** With two axes or more the final [view] has sizes to unpack. *)
Lemma logsumexp_lanes (t : Tensor) (dim : Z) (d : nat) :
  norm_dim (length (shape t)) dim = Return d ->
  2 <= length (shape t) ->
  ix (shape t) d <> 0 ->
  exists lse,
    logsumexp t dim = Return lse
    /\ shape lse = delete d (shape t)
    /\ forall idx, valid idx (delete d (shape t)) ->
         item lse idx = stable_logsumexp (lane t d idx).
Proof.
  intros Hn Hrank Hne.
  pose proof (norm_dim_lt _ _ _ Hn) as Hd.
  destruct (logsumexp_retval t dim d Hn Hd Hne) as (retval & -> & Hsh & Hit).
  assert (Hlen : length (delete d (shape t)) = length (shape t) - 1).
  { apply length_delete. by apply lookup_lt_is_Some. }
  assert (Hvs : view_star retval (delete d (shape t))
                = view retval (delete d (shape t))).
  { destruct (delete d (shape t)); [simpl in Hlen; lia|done]. }
  rewrite Hvs. unfold view. rewrite Hsh.
  rewrite numel_squeeze, Nat.eqb_refl by done.
  eexists. split; [done|]. split; [done|].
  intros idx Hv. rewrite <- Hit by done.
  unfold item. cbn [shape storage]. rewrite Hsh.
  by rewrite ravel_squeeze
    by (done || by apply (length_valid_delete _ _ _ Hd)).
Qed.

(** With one axis the final [view] is called without a size. *)
Lemma logsumexp_rank1 (t : Tensor) (dim : Z) (d : nat) :
  norm_dim (length (shape t)) dim = Return d ->
  length (shape t) = 1 ->
  ix (shape t) d <> 0 ->
  logsumexp t dim = Raise TypeError.
Proof.
  intros Hn Hrank Hne.
  pose proof (norm_dim_lt _ _ _ Hn) as Hd.
  destruct (logsumexp_retval t dim d Hn Hd Hne) as (retval & -> & _ & _).
  destruct (shape t) as [|n [|m sh]]; try done.
  by replace d with 0 by (simpl in Hd; lia).
Qed.

Local Open Scope R_scope.

Lemma Rmax_list_ge x l y : In y (x :: l) -> y <= Rmax_list x l.
Proof.
  revert x. induction l as [|z l IH]; intros x Hy; simpl in *.
  - destruct Hy as [->|[]]. lra.
  - destruct Hy as [->|Hy].
    + apply Rmax_l.
    + etransitivity; [apply IH, Hy|apply Rmax_r].
Qed.

Lemma Rmax_list_in x l : In (Rmax_list x l) (x :: l).
Proof.
  revert x. induction l as [|z l IH]; intros x; simpl.
  - by left.
  - unfold Rmax. destruct (Rle_dec x (Rmax_list z l)).
    + right. apply IH.
    + by left.
Qed.

Lemma list_max_ge l y : In y l -> y <= list_max l.
Proof. destruct l as [|x l]; [done|]. apply Rmax_list_ge. Qed.

Lemma list_max_in l : l <> [] -> In (list_max l) l.
Proof. destruct l as [|x l]; [done|]. intros _. apply Rmax_list_in. Qed.

Lemma Rsum_exp_shift (m : R) (l : list R) :
  Rsum (map exp l) = exp m * Rsum (map (fun x => exp (x - m)) l).
Proof.
  induction l as [|x l IH]; simpl; [lra|].
  rewrite IH. replace x with (m + (x - m)) at 1 by lra.
  rewrite exp_plus. lra.
Qed.

(** Subtracting the maximum changes nothing over the reals. *)
Lemma stable_logsumexp_naive (l : list R) :
  l <> [] -> stable_logsumexp l = ln (Rsum (map exp l)).
Proof.
  intros Hl. unfold stable_logsumexp.
  rewrite (Rsum_exp_shift (list_max l) l).
  rewrite ln_mult, ln_exp; [done|apply exp_pos|].
  apply Rsum_map_pos with (f := fun x => exp (x - list_max l)); [done|].
  intros x. apply exp_pos.
Qed.

Lemma Rsum_ge_elem (f : R -> R) (l : list R) y :
  (forall x, 0 <= f x) -> In y l -> f y <= Rsum (map f l).
Proof.
  intros Hf. induction l as [|x l IH]; simpl; [done|].
  assert (0 <= Rsum (map f l)).
  { clear IH. induction l as [|z l IH]; simpl; [lra|]. specialize (Hf z). lra. }
  intros [->|Hy]; [lra|]. specialize (IH Hy). specialize (Hf x). lra.
Qed.

Lemma Rsum_le_length (f : R -> R) (l : list R) :
  (forall x, In x l -> f x <= 1) -> Rsum (map f l) <= INR (length l).
Proof.
  induction l as [|x l IH]; intros Hf.
  - simpl. lra.
  - change (length (x :: l)) with (S (length l)). rewrite S_INR. simpl.
    assert (f x <= 1) by (apply Hf; by left).
    assert (Rsum (map f l) <= INR (length l)).
    { apply IH. intros z Hz. apply Hf. by right. }
    lra.
Qed.

Lemma stable_logsumexp_bounds (l : list R) :
  l <> [] ->
  list_max l <= stable_logsumexp l <= list_max l + ln (INR (length l)).
Proof.
  intros Hl. unfold stable_logsumexp.
  set (mx := list_max l).
  set (T := Rsum (map (fun x => exp (x - mx)) l)).
  assert (H1 : 1 <= T).
  { replace 1 with (exp (mx - mx)) by (rewrite Rminus_diag; apply exp_0).
    apply Rsum_ge_elem with (f := fun x => exp (x - mx)).
    - intros x. left. apply exp_pos.
    - by apply list_max_in. }
  assert (H2 : T <= INR (length l)).
  { apply Rsum_le_length with (f := fun x => exp (x - mx)).
    intros x Hx. pose proof (list_max_ge l x Hx). fold mx in H.
    replace 1 with (exp 0) by apply exp_0.
    destruct (Req_dec (x - mx) 0) as [->|Hne]; [lra|].
    left. apply exp_increasing. lra. }
  split.
  - assert (0 <= ln T); [|lra].
    rewrite <- ln_1. destruct (Req_dec 1 T) as [<-|]; [lra|].
    left. apply ln_increasing; lra.
  - assert (ln T <= ln (INR (length l))); [|lra].
    destruct (Req_dec T (INR (length l))) as [->|]; [lra|].
    left. apply ln_increasing; lra.
Qed.

(** X1.  Along any axis of a tensor of two axes or more, [logsumexp]
    returns the logarithm of the sum of the exponentials of the entries
    along that axis, in a tensor that has lost the axis: subtracting the
    maximum first changes nothing over the reals.  On a tensor of one
    axis it computes the same and then raises [TypeError], because the
    final [view] is called with no size left to unpack. *)
Theorem logsumexp_log_sum_exp (t : Tensor) (dim : Z) (d : nat) :
  norm_dim (length (shape t)) dim = Return d ->
  ix (shape t) d <> 0%nat ->
  (length (shape t) = 1%nat -> logsumexp t dim = Raise TypeError)
  /\ ((2 <= length (shape t))%nat ->
      exists lse,
        logsumexp t dim = Return lse
        /\ shape lse = delete d (shape t)
        /\ forall idx, valid idx (delete d (shape t)) ->
             item lse idx = ln (Rsum (map exp (lane t d idx)))).
Proof.
  intros Hn Hne. split.
  - intros Hrank. by apply (logsumexp_rank1 t dim d).
  - intros Hrank.
    destruct (logsumexp_lanes t dim d Hn Hrank Hne)
      as (lse & Hl & Hsh & Hit).
    exists lse. split; [done|]. split; [done|].
    intros idx Hv. rewrite Hit by done. apply stable_logsumexp_naive.
    unfold lane. destruct (ix (shape t) d); done.
Qed.

Lemma logsumexp_log_sum_exp_witness :
  (exists lse,
     logsumexp (mkTensor [2; 2]%nat [1; 2; 3; 4]) 0 = Return lse
     /\ item lse [1%nat] = ln (exp 2 + (exp 4 + 0)))
  /\ logsumexp (vec [5; 6]) 0 = Raise TypeError.
Proof.
  split.
  - destruct (proj2 (logsumexp_log_sum_exp
                       (mkTensor [2; 2]%nat [1; 2; 3; 4]) 0 0 eq_refl
                       ltac:(done)))
      as (lse & Hl & _ & Hit); [simpl; lia|].
    exists lse. split; [exact Hl|].
    apply (Hit [1%nat]). repeat constructor.
  - apply (proj1 (logsumexp_log_sum_exp (vec [5; 6]) 0 0 eq_refl
                    ltac:(done))).
    reflexivity.
Defined.

(** X2.  On a tensor of two axes or more, the value [logsumexp] returns
    for a lane is at least every entry of the lane and at most the
    greatest entry plus the logarithm of the number of entries. *)
Theorem logsumexp_bounds (t : Tensor) (dim : Z) (d : nat) :
  norm_dim (length (shape t)) dim = Return d ->
  (2 <= length (shape t))%nat ->
  ix (shape t) d <> 0%nat ->
  exists lse,
    logsumexp t dim = Return lse
    /\ forall idx, valid idx (delete d (shape t)) ->
         (forall k, (k < ix (shape t) d)%nat ->
            item t (insert_at d k idx) <= item lse idx)
         /\ item lse idx
            <= list_max (lane t d idx) + ln (INR (ix (shape t) d)).
Proof.
  intros Hn Hrank Hne.
  destruct (logsumexp_lanes t dim d Hn Hrank Hne)
    as (lse & Hl & Hsh & Hit).
  exists lse. split; [done|].
  intros idx Hv. rewrite Hit by done.
  assert (Hlane : lane t d idx <> []).
  { unfold lane. destruct (ix (shape t) d); done. }
  destruct (stable_logsumexp_bounds _ Hlane) as [Hlo Hhi].
  split.
  - intros k Hk. etransitivity; [|exact Hlo].
    apply list_max_ge. unfold lane. apply in_map_iff.
    exists k. split; [done|]. apply in_seq. lia.
  - replace (ix (shape t) d) with (length (lane t d idx)); [done|].
    unfold lane. by rewrite length_map, length_seq.
Qed.

Lemma logsumexp_bounds_witness :
  exists lse,
    logsumexp (mkTensor [2; 2]%nat [1; 2; 3; 4]) (-1) = Return lse
    /\ 3 <= item lse [1%nat] /\ 4 <= item lse [1%nat].
Proof.
  destruct (logsumexp_bounds (mkTensor [2; 2]%nat [1; 2; 3; 4]) (-1) 1
              eq_refl) as (lse & Hl & Hb); [simpl; lia|done|].
  exists lse. split; [exact Hl|].
  destruct (Hb [1%nat]) as [Hlo _]; [repeat constructor|].
  split; [apply (Hlo 0%nat)|apply (Hlo 1%nat)]; unfold ix; simpl; lia.
Defined.

(** X3.  [logsumexp] refuses an axis outside [-rank .. rank - 1] with an
    [IndexError], and never returns for an axis of size zero. *)
Theorem logsumexp_rejects (t : Tensor) (dim : Z) :
  ((dim < - Z.of_nat (length (shape t))
    \/ Z.of_nat (length (shape t)) <= dim)%Z ->
   logsumexp t dim = Raise IndexError)
  /\ (forall d, norm_dim (length (shape t)) dim = Return d ->
        ix (shape t) d = 0%nat ->
        exists e, logsumexp t dim = Raise e).
Proof.
  split.
  - intros Hd. unfold logsumexp. by rewrite norm_dim_Raise.
  - intros d Hn H0. unfold logsumexp. rewrite Hn. cbn [bind].
    pose proof (norm_dim_lt _ _ _ Hn) as Hd.
    unfold max_dim_keep.
    destruct (shape t !! d) as [n|] eqn:En.
    2: { apply lookup_ge_None in En. lia. }
    apply lookup_ix in En. rewrite H0 in En. subst n. eauto.
Qed.

Lemma logsumexp_rejects_witness :
  logsumexp (mkTensor [2; 0]%nat []) 2 = Raise IndexError
  /\ exists e, logsumexp (mkTensor [2; 0]%nat []) 1 = Raise e.
Proof.
  split.
  - apply (proj1 (logsumexp_rejects (mkTensor [2; 0]%nat []) 2)).
    right. simpl. lia.
  - apply (proj2 (logsumexp_rejects (mkTensor [2; 0]%nat []) 1) 1%nat);
      reflexivity.
Defined.

End LogsumexpFacts.

(** ** beer/utils.py: onehot (X4, X5) *)

Module OnehotFacts.
Import TorchFacts ReduceFacts AxisFacts.

Lemma norm_dim_nat n i : i < n -> norm_dim n (0 + Z.of_nat i) = Return i.
Proof.
  intros Hi. unfold norm_dim.
  destruct (Z.leb_spec 0 (0 + Z.of_nat i)); [|lia].
  destruct (Z.ltb_spec (0 + Z.of_nat i) (Z.of_nat n)); [|lia].
  simpl. f_equal. lia.
Qed.




Lemma onehot_fold_bad N M (labels : list Z) k t :
  shape t = [N; M] ->
  Exists (fun l => (l < - Z.of_nat M \/ Z.of_nat M <= l)%Z) labels ->
  k + length labels <= N ->
  foldM put_one t
    (zip (map (fun j => (0 + Z.of_nat j)%Z) (seq k (length labels))) labels)
  = Raise IndexError.
Proof.
  intros Hsh0 Hex. revert k t Hsh0.
  induction labels as [|l labels IH]; intros k t Hsh Hk.
  - by apply Exists_nil in Hex.
  - simpl in Hk. cbn [length seq map zip zip_with foldM].
    unfold put_one at 1. rewrite Hsh. cbn [fst snd].
    rewrite norm_dim_nat by lia. cbn [bind].
    destruct (norm_dim M l) as [c|e] eqn:El.
    + cbn [bind]. apply IH; [|done|lia].
      apply Exists_cons in Hex as [Hbad|]; [|done].
      apply norm_dim_Raise in Hbad. congruence.
    + cbn [bind]. unfold norm_dim in El.
      repeat match type of El with
             | (if ?b then _ else _) = _ => destruct b
             end; congruence.
Qed.


Lemma torch_range_len n :
  n <> 0 ->
  torch_range 0 (Z.of_nat n - 1)
  = Return (map (fun j => (0 + Z.of_nat j)%Z) (seq 0 n)).
Proof.
  intros Hn. unfold torch_range.
  destruct (Z.ltb_spec (Z.of_nat n - 1) 0); [lia|].
  do 3 f_equal. lia.
Qed.




(** X5.  [onehot] refuses an empty sequence of labels (the index range runs
    from 0 to -1) with a [RuntimeError], and so it does a sequence with a
    label that does not fit a 64-bit integer, whatever the other labels
    are.  When every label fits, a label outside
    [-max_label .. max_label - 1] raises [IndexError]; a label equal to
    [max_label] is one. *)
Theorem onehot_rejects (max_label : nat) :
  onehot [] max_label = Raise RuntimeError
  /\ (forall labels,
        forallb fits_int64 labels = false ->
        onehot labels max_label = Raise RuntimeError)
  /\ (forall labels,
        forallb fits_int64 labels = true ->
        Exists (fun l => (l < - Z.of_nat max_label
                          \/ Z.of_nat max_label <= l)%Z) labels ->
        onehot labels max_label = Raise IndexError).
Proof.
  split; [reflexivity|]. split.
  - intros labels H64. unfold onehot, as_index.
    rewrite torch_range_len by (by destruct labels).
    by rewrite H64.
  - intros labels H64 Hex. unfold onehot, as_index.
    rewrite torch_range_len
      by (destruct labels; [by apply Exists_nil in Hex|done]).
    rewrite H64. cbn [bind].
    apply (onehot_fold_bad (length labels) max_label); [done|done|lia].
Qed.

Lemma onehot_rejects_witness :
  onehot [0; 3]%Z 3 = Raise IndexError
  /\ onehot [0; 2 ^ 63]%Z 3 = Raise RuntimeError
  /\ onehot [3; 2 ^ 63]%Z 3 = Raise RuntimeError.
Proof.
  split; [|split].
  - apply (proj2 (proj2 (onehot_rejects 3)) [0; 3]%Z); [reflexivity|].
    apply Exists_cons_tl, Exists_cons_hd. right. simpl. lia.
  - apply (proj1 (proj2 (onehot_rejects 3)) [0; 2 ^ 63]%Z). reflexivity.
  - apply (proj1 (proj2 (onehot_rejects 3)) [3; 2 ^ 63]%Z). reflexivity.
Defined.

End OnehotFacts.

(** ** beer/utils.py: symmetrize_matrix, make_symposdef (X6, X7, X8) *)

Module MatrixFacts.
Import TorchFacts ReduceFacts AxisFacts.
Local Open Scope R_scope.

Lemma symmetrize_square mat n :
  shape mat = [n; n] ->
  symmetrize_matrix mat
  = Return (smul 0.5 (tabulate [n; n]
              (fun idx => item mat idx + item mat [ix idx 1; ix idx 0]))).
Proof.
  intros Hsh. unfold symmetrize_matrix, tensor_t. rewrite Hsh. cbn [bind].
  unfold add. rewrite map2_fits_r by (rewrite Hsh; apply fits_refl).
  rewrite Hsh. cbn [bind]. do 2 f_equal.
  apply tabulate_ext. intros idx Hv.
  change (shape (tabulate [n; n] _)) with [n; n].
  rewrite !bidx_same by done.
  destruct (valid2_inv _ _ _ Hv) as (i & j & -> & Hi & Hj).
  by rewrite item_tabulate by done.
Qed.

(** X6.  A square matrix is made symmetric: entry [(i, j)] of the result is
    the mean of the entries [(i, j)] and [(j, i)], and symmetrizing the
    result again returns it unchanged. *)
Theorem symmetrize_matrix_symmetric (mat : Tensor) (n : nat) :
  shape mat = [n; n] ->
  exists s,
    symmetrize_matrix mat = Return s
    /\ shape s = [n; n]
    /\ (forall i j, (i < n)%nat -> (j < n)%nat ->
          item s [i; j] = 0.5 * (item mat [i; j] + item mat [j; i])
          /\ item s [i; j] = item s [j; i])
    /\ symmetrize_matrix s = Return s.
Proof.
  intros Hsh. rewrite (symmetrize_square mat n Hsh).
  set (s := smul 0.5 _).
  assert (Hs : forall i j, (i < n)%nat -> (j < n)%nat ->
            item s [i; j] = 0.5 * (item mat [i; j] + item mat [j; i])).
  { intros i j Hi Hj. unfold s.
    rewrite item_smul by (apply wf_tabulate || by apply valid2).
    by rewrite item_tabulate by (by apply valid2). }
  exists s. split; [done|]. split; [done|]. split.
  - intros i j Hi Hj. split; [by apply Hs|].
    rewrite !Hs by done. lra.
  - rewrite (symmetrize_square s n) by done.
    unfold s at 3. unfold smul, tmap. f_equal.
    cbn [shape storage tabulate]. f_equal.
    rewrite !map_map. apply map_ext_in. intros k Hk. apply in_seq in Hk.
    destruct (valid2_inv _ _ _ (unravel_valid [n; n] k ltac:(lia)))
      as (i & j & -> & Hi & Hj).
    cbn [ix nth]. rewrite !Hs by done. lra.
Qed.

Lemma symmetrize_matrix_symmetric_witness :
  exists s,
    symmetrize_matrix (mkTensor [2; 2]%nat [1; 2; 4; 3]) = Return s
    /\ item s [0; 1]%nat = 0.5 * (2 + 4)
    /\ item s [0; 1]%nat = item s [1; 0]%nat.
Proof.
  destruct (symmetrize_matrix_symmetric (mkTensor [2; 2]%nat [1; 2; 4; 3])
              2 eq_refl) as (s & Hs & _ & Hit & _).
  exists s. split; [exact Hs|].
  destruct (Hit 0%nat 1%nat) as [H1 H2]; [lia|lia|]. split; [exact H1|exact H2].
Defined.

(** X7.  What [symmetrize_matrix] does with a matrix that is not square: an
    [n x m] matrix with [n <> m] is refused unless one of the sizes is 1,
    and a single row of [m] entries is broadcast to an [m x m] matrix. *)
Theorem symmetrize_matrix_not_square (mat : Tensor) :
  (forall n m, shape mat = [n; m] -> n <> m -> n <> 1%nat -> m <> 1%nat ->
     symmetrize_matrix mat = Raise RuntimeError)
  /\ (forall m, shape mat = [1%nat; m] ->
        exists s, symmetrize_matrix mat = Return s
          /\ shape s = [m; m]
          /\ forall i j, (i < m)%nat -> (j < m)%nat ->
               item s [i; j] = 0.5 * (item mat [0%nat; j] + item mat [0%nat; i])).
Proof.
  split.
  - intros n m Hsh Hnm Hn Hm.
    unfold symmetrize_matrix, tensor_t. rewrite Hsh. cbn [bind].
    unfold add, map2. rewrite Hsh.
    change (shape (tabulate [m; n] _)) with [m; n].
    assert (Hb : broadcast_shapes [n; m] [m; n] = Raise RuntimeError).
    { unfold broadcast_shapes. cbn.
      destruct (Nat.eqb_spec n m); [congruence|].
      destruct (Nat.eqb_spec n 1); [congruence|].
      by destruct (Nat.eqb_spec m 1); [congruence|]. }
    by rewrite Hb.
  - intros m Hsh.
    unfold symmetrize_matrix, tensor_t. rewrite Hsh. cbn [bind].
    unfold add.
    destruct (decide (m = 1%nat)) as [->|Hm].
    + rewrite map2_fits_r by (rewrite Hsh; apply fits_refl).
      rewrite Hsh. cbn [bind]. eexists. split; [done|]. split; [done|].
      intros i j Hi Hj. assert (i = 0%nat) by lia. assert (j = 0%nat) by lia.
      subst. rewrite item_smul by (apply wf_tabulate || by apply valid2).
      rewrite item_tabulate by (by apply valid2).
      change (shape (tabulate [1%nat; 1%nat] _)) with [1%nat; 1%nat].
      cbn [bidx length drop Nat.sub zip_with clamp Nat.eqb].
      by rewrite item_tabulate by (by apply valid2).
    + unfold map2. rewrite Hsh.
      change (shape (tabulate [m; 1%nat] _)) with [m; 1%nat].
      assert (Hb : broadcast_shapes [1%nat; m] [m; 1%nat] = Return [m; m]).
      { unfold broadcast_shapes. cbn.
        destruct (Nat.eqb_spec m 1); [congruence|]. cbn.
        destruct m as [|[|m']]; try done. }
      rewrite Hb. cbn [bind]. eexists. split; [done|]. split; [done|].
      intros i j Hi Hj.
      rewrite item_smul by (apply wf_tabulate || by apply valid2).
      rewrite item_tabulate by (by apply valid2).
      cbn [bidx length drop Nat.sub zip_with].
      unfold clamp at 1 4. cbn [Nat.eqb].
      rewrite !clamp_lt by done.
      by rewrite item_tabulate by (apply valid2; lia).
Qed.


Lemma symmetrize_matrix_not_square_witness :
  symmetrize_matrix (mkTensor [2; 3]%nat [1; 2; 3; 4; 5; 6])
  = Raise RuntimeError.
Proof.
  apply (proj1 (symmetrize_matrix_not_square _) 2%nat 3%nat); [done|lia..].
Defined.

Section MakeSymposdef.
Variable symeig : Tensor -> result (Tensor * Tensor).

(** X8.  Whatever eigenvalues [e] and eigenvectors [V] the eigen-solver
    hands back for the symmetrized matrix, [make_symposdef] returns the
    matrix with entries [sum_k V[i,k] * max(e[k], threshold) * V[j,k]]: it
    is symmetric, and for a threshold that is not negative its quadratic
    form is nowhere negative. *)
Theorem make_symposdef_symmetric (mat sym evals evecs : Tensor)
  (threshold : R) (n : nat) :
  shape mat = [n; n] ->
  symmetrize_matrix mat = Return sym ->
  symeig sym = Return (evals, evecs) ->
  shape evals = [n] -> wf evals -> shape evecs = [n; n] ->
  let d := fun k => Rmax threshold (item evals [k]) in
  exists r,
    make_symposdef symeig mat threshold = Return r
    /\ shape r = [n; n]
    /\ (forall i j, (i < n)%nat -> (j < n)%nat ->
          item r [i; j]
          = Rsum (map (fun k => item evecs [i; k] * d k * item evecs [j; k])
                      (seq 0 n))
          /\ item r [i; j] = item r [j; i])
    /\ (0 <= threshold ->
        forall x : nat -> R,
          0 <= Rsum (map (fun i =>
                      Rsum (map (fun j => x i * item r [i; j] * x j)
                                (seq 0 n))) (seq 0 n))).
Proof.
  intros Hsh Hsym Heig Hev Hwf Hvec d.
  unfold make_symposdef. rewrite Hsym. cbn [bind]. rewrite Heig.
  cbn [bind fst snd].
  unfold diag. change (shape (clamp_below threshold evals)) with (shape evals).
  rewrite Hev. cbn [bind].
  set (D := tabulate [n; n] _).
  unfold matmul at 1. rewrite Hvec. change (shape D) with [n; n].
  cbv beta iota. rewrite Nat.eqb_refl. cbn [bind].
  set (vd := tabulate [n; n] _).
  unfold tensor_t. rewrite Hvec. cbn [bind].
  set (vt := tabulate [n; n] _).
  unfold matmul. change (shape vd) with [n; n]. change (shape vt) with [n; n].
  cbv beta iota. rewrite Nat.eqb_refl. cbn [bind].
  set (r := tabulate [n; n] _).
  unfold view. rewrite Hsh. change (shape r) with [n; n].
  rewrite Nat.eqb_refl.
  assert (Hd : forall k, (k < n)%nat ->
            item (clamp_below threshold evals) [k] = d k).
  { intros k Hk. unfold clamp_below.
    rewrite item_tmap by (done || rewrite Hev; repeat constructor; done).
    unfold d, Rmax.
    destruct (Rlt_dec (item evals [k]) threshold),
             (Rle_dec threshold (item evals [k])); lra. }
  assert (Hvd : forall i k, (i < n)%nat -> (k < n)%nat ->
            item vd [i; k] = item evecs [i; k] * d k).
  { intros i k Hi Hk. unfold vd. rewrite item_tabulate by (by apply valid2).
    cbn [ix nth].
    rewrite <- Hd by done.
    rewrite <- (Rsum_delta (fun l => item evecs [i; l])
                  (fun l => item (clamp_below threshold evals) [l]) k n Hk).
    apply Rsum_ext. intros l Hl. apply in_seq in Hl.
    unfold D. rewrite item_tabulate by (apply valid2; lia). done. }
  assert (Hr : forall i j, (i < n)%nat -> (j < n)%nat ->
            item r [i; j]
            = Rsum (map (fun k => item evecs [i; k] * d k * item evecs [j; k])
                        (seq 0 n))).
  { intros i j Hi Hj. unfold r. rewrite item_tabulate by (by apply valid2).
    cbn [ix nth]. apply Rsum_ext. intros k Hk. apply in_seq in Hk.
    rewrite Hvd by lia. unfold vt.
    by rewrite item_tabulate by (apply valid2; lia). }
  exists (mkTensor [n; n] (storage r)).
  change (mkTensor [n; n] (storage r)) with r.
  split; [done|]. split; [done|]. split.
  - intros i j Hi Hj. split; [by apply Hr|].
    rewrite !Hr by done. apply Rsum_ext. intros k _. lra.
  - intros Hthr x.
    set (y := fun k => Rsum (map (fun i => x i * item evecs [i; k])
                                 (seq 0 n))).
    assert (HQ : Rsum (map (fun i =>
                    Rsum (map (fun j => x i * item r [i; j] * x j)
                              (seq 0 n))) (seq 0 n))
                 = Rsum (map (fun k => d k * (y k * y k)) (seq 0 n))).
    { transitivity
        (Rsum (map (fun i =>
           Rsum (map (fun k =>
             Rsum (map (fun j => (x i * item evecs [i; k]) * d k
                                 * (x j * item evecs [j; k]))
                       (seq 0 n))) (seq 0 n))) (seq 0 n))).
      - apply Rsum_ext. intros i Hi. apply in_seq in Hi.
        rewrite <- Rsum_swap. apply Rsum_ext. intros j Hj. apply in_seq in Hj.
        rewrite Hr by lia. rewrite Rsum_mult_l, Rsum_mult_r.
        apply Rsum_ext. intros k _. lra.
      - rewrite Rsum_swap. apply Rsum_ext. intros k _.
        unfold y. rewrite Rsum_mult_r, Rsum_mult_l.
        apply Rsum_ext. intros i _.
        rewrite !Rsum_mult_l. apply Rsum_ext. intros j _. lra. }
    rewrite HQ. apply Rsum_nonneg. intros k.
    assert (0 <= d k) by (unfold d; pose proof (Rmax_l threshold (item evals [k])); lra).
    assert (0 <= y k * y k) by nra. nra.
Qed.

End MakeSymposdef.

Lemma make_symposdef_symmetric_witness :
  let symeig := fun _ : Tensor =>
    Return (vec [-1; 2], mkTensor [2; 2]%nat [1; 0; 0; 1]) in
  exists r,
    make_symposdef symeig (mkTensor [2; 2]%nat [-1; 0; 0; 2]) (1 / 1000)
    = Return r
    /\ item r [0; 1]%nat = item r [1; 0]%nat.
Proof.
  intros symeig.
  destruct (make_symposdef_symmetric symeig
              (mkTensor [2; 2]%nat [-1; 0; 0; 2]) _ (vec [-1; 2])
              (mkTensor [2; 2]%nat [1; 0; 0; 1]) (1 / 1000) 2
              eq_refl eq_refl eq_refl eq_refl eq_refl eq_refl)
    as (r & Hr & _ & Hit & _).
  exists r. split; [exact Hr|].
  apply (Hit 0%nat 1%nat); lia.
Defined.

End MatrixFacts.

(** ** beer/expfamilyprior.py: log-normalizers (X9, X10, X11) *)

Module LogNormFacts.
Import TorchFacts ReduceFacts AxisFacts.
Local Open Scope R_scope.

Section WithTorch.
Context `{TorchExt}.

Lemma NormalGammaPrior_builds mean precision c :
  NormalGammaPrior mean precision c
  = (np <- NormalGamma_natural_params mean precision c ;; Return None).
Proof.
  unfold NormalGammaPrior, NormalGamma_natural_params.
  destruct (mul _ _); simpl; [|done]. by destruct (mul _ _).
Qed.

Lemma GammaPrior_builds shape_ rate :
  GammaPrior shape_ rate
  = (np <- Gamma_natural_params shape_ rate ;; Return None).
Proof. reflexivity. Qed.

(** X9.  For one shape [a] and one rate [b > 0], each given as a tensor
    of one entry, the vector [GammaPrior] builds is [(a - 1, -b)] and
    [_gamma_log_norm] maps it to [lgamma(a) - a * ln(b)], the
    log-normalizer of the Gamma density; two tensors without an axis,
    which the docstring asks for, cannot be concatenated. *)
Theorem gamma_log_norm_at_prior (a b : R) :
  0 < b ->
  (exists np t,
     Gamma_natural_params (vec [a]) (vec [b]) = Return np
     /\ GammaPrior (vec [a]) (vec [b]) = Return None
     /\ storage np = [a - 1; - b]
     /\ _gamma_log_norm np = Return t
     /\ shape t = []
     /\ item t [] = lgamma a - a * ln b)
  /\ Gamma_natural_params (scalar a) (scalar b) = Raise RuntimeError.
Proof.
  intros _. split; [|reflexivity].
  eexists _, _. split; [reflexivity|]. split; [reflexivity|].
  split; [reflexivity|]. split; [reflexivity|]. split; [reflexivity|].
  run.
  replace (a - 1 + 1) with a by lra.
  replace (- - b) with b by lra. done.
Qed.

Lemma cat_pick_here t ts n j :
  shape t = [n] -> (j < n)%nat -> cat_pick (t :: ts) 0 [j] = item t [j].
Proof.
  intros Ht Hj. cbn [cat_pick]. rewrite Ht. cbn [ix nth].
  by destruct (Nat.ltb_spec j n); [|lia].
Qed.

Lemma cat_pick_next t ts n j :
  shape t = [n] -> (n <= j)%nat ->
  cat_pick (t :: ts) 0 [j] = cat_pick ts 0 [(j - n)%nat].
Proof.
  intros Ht Hj. cbn [cat_pick]. rewrite Ht. cbn [ix nth].
  by destruct (Nat.ltb_spec j n); [lia|].
Qed.

(** Four vectors of one length, concatenated and viewed as four rows. *)
Lemma cat4_rows (a b c e : Tensor) D :
  shape a = [D] -> shape b = [D] -> shape c = [D] -> shape e = [D] ->
  exists np r0 r1 r2 r3,
    cat [a; b; c; e] 0 = Return np
    /\ shape np = [(4 * D)%nat]
    /\ (v <- view_last np [4%nat] ;; rows v) = Return [r0; r1; r2; r3]
    /\ shape r0 = [D] /\ shape r1 = [D] /\ shape r2 = [D] /\ shape r3 = [D]
    /\ wf r0 /\ wf r1 /\ wf r2 /\ wf r3
    /\ forall k, (k < D)%nat ->
         item r0 [k] = item a [k] /\ item r1 [k] = item b [k]
         /\ item r2 [k] = item c [k] /\ item r3 [k] = item e [k].
Proof.
  intros Ha Hb Hc He.
  set (np := tabulate [(4 * D)%nat] (cat_pick [a; b; c; e] 0)).
  assert (Hcat : cat [a; b; c; e] 0 = Return np).
  { unfold cat. rewrite Ha. cbn [length Nat.ltb Nat.leb].
    cbn [forallb]. rewrite Ha, Hb, Hc, He. cbn [length delete list_delete].
    rewrite Nat.eqb_refl, bool_decide_eq_true_2 by done.
    cbn [andb map ix nth sum_list sum_list_with].
    rewrite Ha, Hb, Hc, He. cbn [ix nth]. unfold Datatypes.id.
    change (<[0%nat:=(D + (D + (D + (D + 0))))%nat]> [D])
      with [(D + (D + (D + (D + 0))))%nat].
    by replace (D + (D + (D + (D + 0))))%nat with (4 * D)%nat by lia. }
  set (v := mkTensor [4%nat; D] (storage np)).
  assert (Hview : view_last np [4%nat] = Return v).
  { unfold view_last. change (shape np) with [(4 * D)%nat].
    cbn [numel foldr]. rewrite !Nat.mul_1_r.
    replace (4 * D)%nat with (D * 4)%nat by lia.
    rewrite Nat.Div0.mod_mul, Nat.div_mul by done. done. }
  assert (Hv : forall i k, (i < 4)%nat -> (k < D)%nat ->
            item v [i; k] = cat_pick [a; b; c; e] 0 [(i * D + k)%nat]).
  { intros i k Hi Hk.
    assert (Hnp : item v [i; k] = item np [(i * D + k)%nat]).
    { unfold item, v. change (shape np) with [(4 * D)%nat]. cbn [shape storage ravel numel foldr]. f_equal. nia. }
    rewrite Hnp. unfold np.
    by rewrite item_tabulate by (repeat constructor; nia). }
  exists np, (tabulate [D] (fun idx => item v (0%nat :: idx))),
    (tabulate [D] (fun idx => item v (1%nat :: idx))),
    (tabulate [D] (fun idx => item v (2%nat :: idx))),
    (tabulate [D] (fun idx => item v (3%nat :: idx))).
  split; [done|]. split; [done|].
  split; [by rewrite Hview|]. repeat (split; [done || apply wf_tabulate|]).
  intros k Hk.
  rewrite !item_tabulate by (repeat constructor; done).
  rewrite !Hv by lia.
  repeat split.
  - by rewrite (cat_pick_here _ _ D) by (done || lia).
  - rewrite (cat_pick_next _ _ D) by (done || lia).
    rewrite (cat_pick_here _ _ D) by (done || lia). do 2 f_equal. lia.
  - do 2 rewrite (cat_pick_next _ _ D) by (done || lia).
    rewrite (cat_pick_here _ _ D) by (done || lia). do 2 f_equal. lia.
  - do 3 rewrite (cat_pick_next _ _ D) by (done || lia).
    rewrite (cat_pick_here _ _ D) by (done || lia). do 2 f_equal. lia.
Qed.

(** X10.  At the natural parameters [NormalGammaPrior] builds from a mean,
    a precision and a count [c > 0], the log-normalizer
    [_normalgamma_log_norm] does not depend on the mean: it is the sum
    over the dimensions of
    [lgamma(c * precision) - ln(c) / 2 - c * precision * ln(c)]. *)
Theorem normalgamma_log_norm_at_prior (mean precision : Tensor) (c : R)
  (D : nat) :
  shape mean = [D] -> wf mean ->
  shape precision = [D] -> wf precision ->
  0 < c ->
  exists np,
    NormalGamma_natural_params mean precision c = Return np
    /\ NormalGammaPrior mean precision c = Return None
    /\ shape np = [(4 * D)%nat]
    /\ _normalgamma_log_norm np
       = Return (Rsum (map (fun k =>
                   lgamma (item precision [k] * c) - 0.5 * ln c
                   - item precision [k] * c * ln c) (seq 0 D))).
Proof.
  intros Hm Hwm Hp Hwp Hpos.
  assert (Hc : c <> 0) by lra.
  rewrite NormalGammaPrior_builds.
  unfold NormalGamma_natural_params, mul.
  rewrite (map2_same Rmult _ _ [D]) by done. cbn [bind].
  rewrite (map2_same Rmult _ _ [D]) by done. cbn [bind].
  set (n_prec := smul c (ones_like mean)).
  set (t1 := tabulate [D] _). set (t2 := tabulate [D] _).
  destruct (cat4_rows (tmap (fun x => x + 2 * c) t1) t2 n_prec
              (tmap (fun x => 2 * x - 1) (tmap (fun x => x * c) precision)) D)
    as (np & r0 & r1 & r2 & r3 & Hcat & Hsh & Hrows
        & H0 & H1 & H2 & H3 & W0 & W1 & W2 & W3 & Hit); try done.
  rewrite Hcat. exists np. split; [done|]. split; [done|]. split; [done|].
  unfold _normalgamma_log_norm.
  destruct (view_last np [4%nat]) as [v|] eqn:Ev; [|done].
  cbn [bind] in Hrows |- *. rewrite Hrows. cbn [bind].
  unfold add, div, sub, mul.
  rewrite (map2_same Rplus _ _ [D]) by done. cbn [bind].
  rewrite (map2_same Rdiv _ _ [D]) by done. cbn [bind].
  rewrite (map2_same Rminus _ _ [D]) by done. cbn [bind].
  rewrite (map2_same Rmult _ _ [D]) by done. cbn [bind].
  rewrite (map2_same Rplus _ _ [D]) by done. cbn [bind].
  f_equal. rewrite sum_all_tabulate1. apply Rsum_ext.
  intros k Hk. apply in_seq in Hk.
  assert (Hv : valid [k] [D]) by (repeat constructor; lia).
  destruct (Hit k) as (E0 & E1 & E2 & E3); [lia|].
  set (m := item mean [k]). set (p := item precision [k]).
  assert (Hn : item n_prec [k] = c).
  { unfold n_prec, smul, ones_like, ones, full.
    rewrite item_tmap by (apply wf_tabulate || by rewrite shape_tabulate, Hm).
    rewrite item_tabulate by (by rewrite Hm). lra. }
  assert (A0 : item r0 [k] = c * m ^ 2 + 2 * c).
  { rewrite E0. rewrite item_tmap by (apply wf_tabulate || done).
    unfold t1. rewrite item_tabulate by done.
    rewrite item_tmap by (done || by rewrite Hm). by rewrite Hn. }
  assert (A1 : item r1 [k] = c * m).
  { rewrite E1. unfold t2. rewrite item_tabulate by done. by rewrite Hn. }
  assert (A2 : item r2 [k] = c) by (by rewrite E2).
  assert (A3 : item r3 [k] = 2 * (p * c) - 1).
  { rewrite E3.
    rewrite item_tmap
      by (by apply wf_tmap || (cbn [shape tmap]; by rewrite Hp)).
    by rewrite item_tmap by (done || by rewrite Hp). }
  rewrite !item_tabulate by done.
  rewrite !item_tmap by (done || apply wf_tabulate || by rewrite ?H0, ?H1, ?H2, ?H3).
  rewrite !item_tabulate by done.
  rewrite !item_tmap by (done || apply wf_tabulate || by rewrite ?H0, ?H1, ?H2, ?H3).
  rewrite A0, A1, A2, A3.
  replace (0.5 * (2 * (p * c) - 1 + 1)) with (p * c) by lra.
  assert (Hq : (c * m) ^ 2 / c = c * m ^ 2) by (field; done).
  rewrite Hq.
  replace (0.5 * (c * m ^ 2 + 2 * c - c * m ^ 2)) with c by lra.
  replace (-0.5 * (2 * (p * c) - 1 + 1)) with (- (p * c)) by lra.
  lra.
Qed.

(** X11.  Neither the isotropic nor the Matrix-Normal log-normalizer ever
    returns: each unpacks the [None] its splitter hands back.  The first
    raises [TypeError] ([IndexError] on an empty vector); the second
    raises [TypeError] when the vector has [dim1^2 + dim1 * dim2] entries
    and [RuntimeError], from the reshaping, when it has not. *)
Theorem log_norms_without_return (natural_params : list R) (dim1 dim2 : nat) :
  _normal_iso_log_norm natural_params
  = Raise (if decide (natural_params = []) then IndexError else TypeError)
  /\ _matrixnormal_fc_log_norm natural_params dim1 dim2
     = Raise (if decide (length natural_params
                         = (dim1 * dim1 + dim1 * dim2)%nat)
              then TypeError else RuntimeError).
Proof.
  split.
  - destruct natural_params as [|x l]; reflexivity.
  - unfold _matrixnormal_fc_log_norm, _matrixnormal_fc_split_nparams.
    unfold view. cbn [shape vec numel foldr]. rewrite !Nat.mul_1_r.
    unfold slice. rewrite drop_0, length_take, length_drop.
    destruct (decide (length natural_params
                      = (dim1 * dim1 + dim1 * dim2)%nat)) as [Hn|Hn].
    + rewrite Hn.
      rewrite Nat.min_l by apply Nat.le_add_r.
      rewrite Nat.eqb_refl. cbn [bind].
      replace (dim1 * dim1 + dim1 * dim2 - dim1 * dim1)%nat
        with (dim1 * dim2)%nat by lia.
      by rewrite Nat.eqb_refl.
    + destruct (dim1 * dim1
                =? Nat.min (dim1 * dim1) (length natural_params))%nat
        eqn:E1; [|reflexivity].
      cbn [bind].
      destruct (dim1 * dim2 =? length natural_params - dim1 * dim1)%nat
        eqn:E2; [|reflexivity].
      apply Nat.eqb_eq in E1, E2. lia.
Qed.

End WithTorch.

#[local] Existing Instance Samples.plain_torch.

Lemma gamma_log_norm_at_prior_witness :
  exists np t,
    Gamma_natural_params (vec [2]) (vec [1]) = Return np
    /\ _gamma_log_norm np = Return t
    /\ item t [] = lgamma 2 - 2 * ln 1.
Proof.
  destruct (gamma_log_norm_at_prior 2 1) as [(np & t & Hnp & _ & _ & Ht & _ & Hv) _];
    [lra|].
  exists np, t. split; [exact Hnp|]. split; [exact Ht|exact Hv].
Defined.

Lemma normalgamma_log_norm_at_prior_witness :
  exists np,
    NormalGamma_natural_params (zeros [2%nat]) (ones [2%nat]) 1 = Return np
    /\ _normalgamma_log_norm np
       = Return (Rsum (map (fun k =>
                   lgamma (item (ones [2%nat]) [k] * 1) - 0.5 * ln 1
                   - item (ones [2%nat]) [k] * 1 * ln 1) (seq 0 2))).
Proof.
  destruct (normalgamma_log_norm_at_prior (zeros [2%nat]) (ones [2%nat]) 1 2)
    as (np & Hnp & _ & _ & Hln);
    [reflexivity|apply wf_tabulate|reflexivity|apply wf_tabulate|lra|].
  exists np. split; [exact Hnp|exact Hln].
Defined.

End LogNormFacts.

(** ** beer/expfamilyprior.py: splitting natural parameters (X12 - X15) *)

Module SplitTripFacts.
Import TorchFacts ReduceFacts AxisFacts.
Import SplitFacts.

(** [solve_dim c n] is a root from below: [D^2 + c D <= n]. *)
Lemma solve_dim_le c n : 
  solve_dim c n * solve_dim c n + c * solve_dim c n <= n.
Proof.
  unfold solve_dim.
  set (s := Nat.sqrt (c * c + 4 * n)).
  destruct (Nat.sqrt_spec (c * c + 4 * n)) as [Hlo _]; [lia|]. fold s in Hlo.
  set (D := (s - c) / 2).
  assert (H2 : 2 * D <= s - c) by (apply Nat.Div0.mul_div_le).
  destruct (decide (s < c)) as [Hs|Hs].
  - assert (D = 0) by (unfold D; replace (s - c) with 0 by lia; done).
    lia.
  - nia.
Qed.

Lemma length_slice (l : list R) a b :
  b <= length l -> length (slice l a b) = b - a.
Proof. intros Hb. unfold slice. rewrite length_drop, length_take. lia. Qed.

Lemma slice_drop (l : list R) a :
  a <= length l -> slice l 0 a ++ drop a l = l.
Proof. intros Ha. unfold slice. rewrite drop_0. apply take_drop. Qed.

(** X12.  [_normal_fc_split_nparams] inverts the concatenation of a
    [D x D] block and a [D] block, and it refuses nothing: every vector is
    cut into a leading square block and a rest, and the rest has [dim]
    entries only when the length is [dim^2 + dim]. *)
Theorem normal_fc_split_round_trip :
  (forall D (np1 np2 : list R),
     length np1 = D * D -> length np2 = D ->
     _normal_fc_split_nparams (np1 ++ np2)
     = Return (PyTuple [PyTensor (mkTensor [D; D] np1); PyTensor (vec np2);
                        PyInt D]))
  /\ (forall l : list R,
        exists dim np1 np2,
          _normal_fc_split_nparams l
          = Return (PyTuple [PyTensor (mkTensor [dim; dim] np1);
                             PyTensor (vec np2); PyInt dim])
          /\ np1 ++ np2 = l
          /\ length np1 = dim * dim
          /\ (length np2 = dim <-> length l = dim * dim + dim)).
Proof.
  split; [apply normal_fc_split_concat|].
  intros l. unfold _normal_fc_split_nparams.
  set (dim := solve_dim 1 (length l)).
  pose proof (solve_dim_le 1 (length l)) as Hle. fold dim in Hle.
  assert (Hlen : length (slice l 0 (dim * dim)) = dim * dim)
    by (rewrite length_slice; lia).
  rewrite view_vec by (simpl; lia). cbn [bind].
  exists dim, (slice l 0 (dim * dim)), (drop (dim * dim) l).
  split; [done|]. split; [apply slice_drop; lia|]. split; [done|].
  rewrite length_drop. lia.
Qed.

Lemma normal_fc_split_round_trip_witness :
  _normal_fc_split_nparams ([1; 2; 3; 4] ++ [5; 6])%R
  = Return (PyTuple [PyTensor (mkTensor [2; 2] [1; 2; 3; 4]%R);
                     PyTensor (vec [5; 6]%R); PyInt 2]).
Proof.
  apply (proj1 normal_fc_split_round_trip 2 [1; 2; 3; 4]%R [5; 6]%R);
    reflexivity.
Defined.

(** X13.  [_normalwishart_split_nparams] inverts the concatenation of a
    [D x D] block, a [D] block and two scalars; a vector of fewer than two
    entries cannot be unpacked into the two scalars and raises
    [ValueError]. *)
Theorem normalwishart_split_round_trip :
  (forall D (np1 np2 : list R) (np3 np4 : R),
     length np1 = D * D -> length np2 = D ->
     _normalwishart_split_nparams (np1 ++ np2 ++ [np3; np4])
     = Return (PyTuple [PyTensor (mkTensor [D; D] np1); PyTensor (vec np2);
                        PyTensor (scalar np3); PyTensor (scalar np4);
                        PyInt D]))
  /\ (forall l : list R,
        length l < 2 -> _normalwishart_split_nparams l = Raise ValueError).
Proof.
  split; [apply normalwishart_split_concat|].
  intros [|x [|y l]] Hl; simpl in Hl; try lia; reflexivity.
Qed.

Lemma normalwishart_split_round_trip_witness :
  _normalwishart_split_nparams ([1; 2; 3; 4] ++ [5; 6] ++ [7; 8])%R
  = Return (PyTuple [PyTensor (mkTensor [2; 2] [1; 2; 3; 4]%R);
                     PyTensor (vec [5; 6]%R); PyTensor (scalar 7%R);
                     PyTensor (scalar 8%R); PyInt 2]).
Proof.
  apply (proj1 normalwishart_split_round_trip 2 [1; 2; 3; 4]%R [5; 6]%R);
    reflexivity.
Defined.

Lemma slice_next (l : list R) a b :
  a <= b -> b <= length l -> slice l a b ++ drop b l = drop a l.
Proof.
  intros Hab Hb. unfold slice.
  rewrite <- (take_drop b l) at 3.
  by rewrite drop_app_le by (rewrite length_take; lia).
Qed.

(** X14.  [_jointnormalgamma_split_nparams] inverts the concatenation of
    the blocks [D], [K x D], [K x D], [D], and it refuses nothing: every
    vector [l] is cut, with [D = len(l) // (2 + 2 K)], into its first [D]
    entries, the next [K D] twice (each viewed as [K x D]) and the rest.
    The four pieces put one after the other are [l] again, so no entry is
    lost: the rest has [D + len(l) mod (2 + 2 K)] entries, the surplus
    included. *)
Theorem jointnormalgamma_split_round_trip :
  (forall K D (np1 np2s np3s np4 : list R),
     length np1 = D -> length np2s = K * D -> length np3s = K * D ->
     length np4 = D ->
     _jointnormalgamma_split_nparams (np1 ++ np2s ++ np3s ++ np4) K
     = Return (PyTuple [PyTensor (vec np1); PyTensor (mkTensor [K; D] np2s);
                        PyTensor (mkTensor [K; D] np3s); PyTensor (vec np4);
                        PyInt D]))
  /\ (forall (l : list R) K,
        exists np1 np2s np3s np4,
          _jointnormalgamma_split_nparams l K
          = Return (PyTuple [PyTensor (vec np1);
                             PyTensor (mkTensor [K; length np1] np2s);
                             PyTensor (mkTensor [K; length np1] np3s);
                             PyTensor (vec np4);
                             PyInt (length np1)])
          /\ l = np1 ++ np2s ++ np3s ++ np4
          /\ length np1 = length l / (2 + 2 * K)
          /\ length np2s = K * length np1
          /\ length np3s = K * length np1
          /\ length np4 = length np1 + length l mod (2 + 2 * K)).
Proof.
  split; [apply jointnormalgamma_split_concat|].
  intros l K. unfold _jointnormalgamma_split_nparams.
  set (dim := length l / (2 + 2 * K)).
  assert (Hle : (2 + 2 * K) * dim <= length l)
    by (apply Nat.Div0.mul_div_le).
  assert (Hmod : length l = (2 + 2 * K) * dim + length l mod (2 + 2 * K))
    by (apply Nat.div_mod_eq).
  assert (H1 : length (slice l 0 dim) = dim)
    by (rewrite length_slice; lia).
  rewrite !view_vec by (rewrite length_slice; simpl; nia).
  cbn [bind].
  exists (slice l 0 dim), (slice l dim (dim + dim * K)),
    (slice l (dim + dim * K) (dim + 2 * dim * K)),
    (drop (dim + 2 * dim * K) l).
  rewrite H1. split; [done|]. split.
  - rewrite (slice_next l (dim + dim * K)) by nia.
    rewrite (slice_next l dim) by nia.
    symmetry. apply slice_drop. nia.
  - split; [done|].
    rewrite !length_slice, length_drop by nia.
    repeat split; nia.
Qed.

Lemma jointnormalgamma_split_round_trip_witness :
  _jointnormalgamma_split_nparams ([1] ++ [2; 3] ++ [4; 5] ++ [6])%R 2
  = Return (PyTuple [PyTensor (vec [1%R]);
                     PyTensor (mkTensor [2; 1] [2; 3]%R);
                     PyTensor (mkTensor [2; 1] [4; 5]%R);
                     PyTensor (vec [6%R]); PyInt 1]).
Proof.
  apply (proj1 jointnormalgamma_split_round_trip 2 1 [1%R] [2; 3]%R
           [4; 5]%R [6%R]); reflexivity.
Defined.

(** X15.  [_jointnormalwishart_split_nparams] inverts the concatenation of
    the blocks [D x D], [K x D], [K] and one scalar, and a vector of at
    least [K + 1] entries whose length is not [D^2 + K D + K + 1] for any
    [D] is refused with a [RuntimeError]. *)
Theorem jointnormalwishart_split_round_trip :
  (forall K D (np1 np2s np3s : list R) (np4 : R),
     length np1 = D * D -> length np2s = K * D -> length np3s = K ->
     _jointnormalwishart_split_nparams (np1 ++ np2s ++ np3s ++ [np4]) K
     = Return (PyTuple [PyTensor (mkTensor [D; D] np1);
                        PyTensor (mkTensor [K; D] np2s); PyTensor (vec np3s);
                        PyTensor (scalar np4); PyInt D]))
  /\ (forall (l : list R) K,
        K + 1 <= length l ->
        (forall D, length l <> D * D + K * D + K + 1) ->
        _jointnormalwishart_split_nparams l K = Raise RuntimeError).
Proof.
  split; [apply jointnormalwishart_split_concat|].
  intros l K Hlen Hno. unfold _jointnormalwishart_split_nparams.
  rewrite length_take, Nat.min_l by lia.
  set (n := length l) in *.
  set (dim := solve_dim K (n - (K + 1))).
  pose proof (solve_dim_le K (n - (K + 1))) as Hle. fold dim in Hle.
  assert (H1 : length (slice l 0 (dim * dim)) = dim * dim)
    by (rewrite length_slice; unfold n in *; lia).
  assert (H2 : length (slice l (dim * dim) (n - (K + 1)))
               = n - (K + 1) - dim * dim)
    by (rewrite length_slice; unfold n in *; lia).
  rewrite view_vec by (cbn [numel foldr]; rewrite H1; lia). cbn [bind].
  unfold view. cbn [shape vec numel foldr]. rewrite H2.
  destruct (Nat.eqb_spec (K * (dim * 1)) ((n - (K + 1) - dim * dim) * 1))
    as [Heq|]; [|done].
  exfalso. apply (Hno dim). lia.
Qed.

Lemma jointnormalwishart_split_round_trip_witness :
  _jointnormalwishart_split_nparams ([1] ++ [2; 3] ++ [4; 5] ++ [6])%R 2
  = Return (PyTuple [PyTensor (mkTensor [1; 1] [1%R]);
                     PyTensor (mkTensor [2; 1] [2; 3]%R);
                     PyTensor (vec [4; 5]%R);
                     PyTensor (scalar 6%R); PyInt 1]).
Proof.
  apply (proj1 jointnormalwishart_split_round_trip 2 1 [1%R] [2; 3]%R
           [4; 5]%R 6%R); reflexivity.
Defined.

End SplitTripFacts.

(** ** beer/expfamilyprior.py: building a Dirichlet prior (X16) *)

Module PriorFacts.

Section WithTorch.
Context `{TorchExt}.

(** X16.  [DirichletPrior(concentrations)] never fails: on every heap it
    allocates the parameter tensor [concentrations - 1] and, through the
    setter, a tensor holding the gradient of the log-normalizer there;
    the two properties of the new prior read exactly these, and the
    tensors that existed before are left as they were. *)
Theorem DirichletPrior_init_allocates (conc : Tensor) (h : list TensorObj) :
  let eta := tmap (fun x => x - 1)%R conc in
  let g := autograd Dirichlet_log_norm eta in
  let p := mkPrior DirichletPrior (Some (S (length h))) (Some (length h)) in
  let h' := h ++ [mkObj eta (Some (S (length h))) true; mkObj g None false] in
  DirichletPrior_init conc h = (Return p, h')
  /\ natural_hparams p h' = (Return eta, h')
  /\ expected_sufficient_statistics p h' = (Return g, h')
  /\ (forall l o, h !! l = Some o -> h' !! l = Some o).
Proof.
  intros eta g p h'.
  assert (H0 : h' !! length h = Some (mkObj eta (Some (S (length h))) true)).
  { unfold h'. rewrite lookup_app_r by lia. by rewrite Nat.sub_diag. }
  assert (H1 : h' !! S (length h) = Some (mkObj g None false)).
  { unfold h'. rewrite lookup_app_r by lia.
    by replace (S (length h) - length h) with 1 by lia. }
  split; [|split; [|split]].
  - unfold DirichletPrior_init, torch_tensor, ExpFamilyPrior_init,
      set_natural_hparams, backward, bindM, alloc, deref, store, lift, ret.
    fold eta.
    rewrite lookup_app_r by lia. rewrite Nat.sub_diag. cbn.
    rewrite lookup_app_r by lia. rewrite Nat.sub_diag. cbn.
    rewrite length_app. cbn [length].
    replace (length h + 1) with (S (length h)) by lia.
    assert (Hh : <[length h:=mkObj eta (Some (S (length h))) true]>
                   ((h ++ [mkObj eta None true]) ++ [mkObj g None false])
                 = h').
    { unfold h'. rewrite <- app_assoc. cbn [app].
      rewrite insert_app_r_alt by lia. by rewrite Nat.sub_diag. }
    fold g. rewrite Hh, H0. done.
  - unfold natural_hparams, p, bindM, deref, ret. cbn. by rewrite H0.
  - unfold expected_sufficient_statistics, p, bindM, deref, ret. cbn.
    by rewrite H1.
  - intros l o Hl. unfold h'. by apply lookup_app_l_Some.
Qed.

End WithTorch.

End PriorFacts.

(** ** Conversions and construction of mixture sets (X17, X18, X19) *)

Module ConversionFacts.

Lemma prior_call_missing p name :
  name ∉ ExpFamilyPrior_class_attrs -> prior_call p name = Raise AttributeError.
Proof.
  intros Hn. unfold prior_call, class_getattr.
  by rewrite bool_decide_eq_false_2.
Qed.

Lemma prior_call_raises p name : exists e, prior_call p name = Raise e.
Proof.
  unfold prior_call. destruct (class_getattr name); simpl; eauto.
Qed.

(** X17.  The in-place conversions of [parameters.py] cannot succeed.
    [BayesianParameter.float_], [double_] and [to_] raise
    [AttributeError] for every parameter, because no prior class defines
    [float], [double] or [to]; the conversions of a
    [BayesianParameterSet] call [param.float()], [param.double()] and
    [param.to(device)], names a parameter does not have (its methods end
    in an underscore), so they raise [AttributeError] on every set that
    is not empty and do nothing on the empty one. *)
Theorem parameter_conversions_raise :
  (forall self,
     BayesianParameter_float_ self = Raise AttributeError
     /\ BayesianParameter_double_ self = Raise AttributeError
     /\ BayesianParameter_to_ self = Raise AttributeError)
  /\ (forall ps,
        let r := if decide (ps = []) then Return tt
                 else Raise AttributeError in
        BayesianParameterSet_float_ ps = r
        /\ BayesianParameterSet_double_ ps = r
        /\ BayesianParameterSet_to_ ps = r).
Proof.
  split.
  - intros self. repeat split; reflexivity.
  - intros [|p ps]; repeat split; reflexivity.
Qed.

Section MixtureSet.
Context {Stats Model : Type}.
Variable modelset_convert :
  string -> BayesianModelSet Stats Model
  -> result (BayesianModelSet Stats Model).

Lemma MixtureSet_convert_raises name base (self : MixtureSet Stats Model) :
  exists e, MixtureSet_convert modelset_convert name base self = Raise e.
Proof.
  unfold MixtureSet_convert.
  destruct (mix_weights self) as [|p ps].
  - cbn [mapM bind].
    destruct (modelset_convert name (modelset self)); cbn [bind]; eauto.
  - cbn [mapM]. destruct (prior_call_raises (prior p) name) as [e ->].
    cbn [bind]. eauto.
Qed.

(** X18.  [MixtureSet.double], [MixtureSet.float] and [MixtureSet.to]
    never return a model, whatever the component set does.  With at least
    one mixture the first prior is asked for a method it does not have
    ([AttributeError]); with none, [__init__] divides by the number of
    mixtures. *)
Theorem MixtureSet_conversions_never_return base
  (self : MixtureSet Stats Model) :
  (exists e, MixtureSet_double modelset_convert base self = Raise e)
  /\ (exists e, MixtureSet_float modelset_convert base self = Raise e)
  /\ (exists e, MixtureSet_to modelset_convert base self = Raise e)
  /\ (mix_weights self <> [] ->
      MixtureSet_double modelset_convert base self = Raise AttributeError
      /\ MixtureSet_float modelset_convert base self = Raise AttributeError
      /\ MixtureSet_to modelset_convert base self = Raise AttributeError)
  /\ (mix_weights self = [] ->
      forall mdls, modelset_convert "double" (modelset self) = Return mdls ->
      MixtureSet_double modelset_convert base self = Raise ZeroDivisionError).
Proof.
  split; [apply MixtureSet_convert_raises|].
  split; [apply MixtureSet_convert_raises|].
  split; [apply MixtureSet_convert_raises|].
  split.
  - intros Hne. unfold MixtureSet_double, MixtureSet_float, MixtureSet_to,
      MixtureSet_convert.
    destruct (mix_weights self) as [|p ps]; [done|].
    repeat split; reflexivity.
  - intros Hnil mdls Hm. unfold MixtureSet_double, MixtureSet_convert.
    rewrite Hnil. cbn [mapM bind]. rewrite Hm. reflexivity.
Qed.

(** X19.  What [MixtureSet.__init__] does with its two lists of weights.
    Without a prior it divides by zero; with fewer posteriors than priors
    it raises [IndexError]; otherwise it builds one weight parameter per
    prior (surplus posteriors are ignored), with distinct identities, a
    zero natural gradient of the shape of the prior's parameters, an
    empty cache, and [num_comp] the whole part of
    [len(modelset) / num_mix]. *)
Theorem MixtureSet_init_cases (base : nat)
  (prior_weights posterior_weights : list PriorState)
  (mdls : BayesianModelSet Stats Model) :
  (prior_weights = [] ->
   MixtureSet_init base prior_weights posterior_weights mdls
   = Raise ZeroDivisionError)
  /\ (prior_weights <> [] ->
      length posterior_weights < length prior_weights ->
      MixtureSet_init base prior_weights posterior_weights mdls
      = Raise IndexError)
  /\ (prior_weights <> [] ->
      length prior_weights <= length posterior_weights ->
      exists self,
        MixtureSet_init base prior_weights posterior_weights mdls
        = Return self
        /\ num_mix self = length prior_weights
        /\ num_comp self = ms_len mdls / length prior_weights
        /\ modelset self = mdls
        /\ cache self = ∅
        /\ length (mix_weights self) = length prior_weights
        /\ NoDup (map ident (mix_weights self))
        /\ forall i p q,
             prior_weights !! i = Some p -> posterior_weights !! i = Some q ->
             mix_weights self !! i
             = Some (mkParam (base + i) p q (zeros_like (nat_hparams p)))).
Proof.
  split; [by intros ->|]. split.
  - intros Hne Hlt. unfold MixtureSet_init.
    destruct (Nat.eqb_spec (length prior_weights) 0) as [E|_];
      [by destruct prior_weights|].
    assert (Hm : forall n k, k + n = length prior_weights ->
              k <= length posterior_weights ->
              mapM (fun i =>
                      match prior_weights !! i, posterior_weights !! i with
                      | Some p, Some q =>
                          Return (BayesianParameter_init (base + i) p q)
                      | _, _ => Raise IndexError
                      end) (seq k n) = Raise IndexError).
    { induction n as [|n IH]; intros k Hk Hk'; [lia|].
      cbn [seq mapM].
      destruct (prior_weights !! k) as [p|] eqn:Ep.
      2: { apply lookup_ge_None in Ep. lia. }
      destruct (posterior_weights !! k) as [q|] eqn:Eq; [|done].
      apply lookup_lt_Some in Eq.
      rewrite IH; [done|lia|lia]. }
    by rewrite (Hm (length prior_weights) 0) by lia.
  - intros Hne Hle.
    destruct (MixtureSet_init base prior_weights posterior_weights mdls)
      as [self|e] eqn:E.
    + pose proof (ForwardFacts.MixtureSet_init_weights _ _ _ _ _ E)
        as (H1 & _ & H3 & H4 & H5 & H6).
      exists self. split; [done|]. split; [done|]. split; [done|].
      unfold MixtureSet_init in E.
      destruct (length prior_weights =? 0); [done|].
      destruct (mapM _ _) as [params|] eqn:Em; [|done].
      cbn [bind] in E. injection E as <-. cbn [modelset mix_weights] in *.
      split; [done|]. split; [done|].
      split; [by rewrite H4|]. split; [done|].
      intros i p q Hp Hq.
      apply ForwardFacts.mapM_Forall2 in Em.
      assert (Hi : i < length prior_weights) by (by eapply lookup_lt_Some).
      assert (Hs : seq 0 (length prior_weights) !! i = Some i)
        by (by apply lookup_seq_lt).
      destruct (Forall2_lookup_l _ _ _ _ _ Em Hs) as (x & Hx & Hfx).
      rewrite Hp, Hq in Hfx. injection Hfx as <-. done.
    + exfalso. unfold MixtureSet_init in E.
      destruct (Nat.eqb_spec (length prior_weights) 0) as [E0|_];
        [by destruct prior_weights|].
      assert (Hm : forall l, Forall (fun i => i < length prior_weights) l ->
                exists ps, mapM (fun i =>
                      match prior_weights !! i, posterior_weights !! i with
                      | Some p, Some q =>
                          Return (BayesianParameter_init (base + i) p q)
                      | _, _ => Raise IndexError
                      end) l = Return ps).
      { induction l as [|i l IH]; intros Hl; [by eexists|].
        apply Forall_cons in Hl as [Hi Hl]. cbn [mapM].
        destruct (prior_weights !! i) as [p|] eqn:Ep.
        2: { apply lookup_ge_None in Ep. lia. }
        destruct (posterior_weights !! i) as [q|] eqn:Eq.
        2: { apply lookup_ge_None in Eq. lia. }
        destruct (IH Hl) as (ps & ->). by eexists. }
      destruct (Hm (seq 0 (length prior_weights))) as (ps & Hps).
      { apply Forall_forall. intros i Hi. apply elem_of_seq in Hi. lia. }
      rewrite Hps in E. done.
Qed.

End MixtureSet.

End ConversionFacts.

(** ** beer/models/mixtureset.py: the value of forward (X20) *)

Module EvidenceFacts.
Import TorchFacts ReduceFacts SoftmaxFacts AxisFacts LogsumexpFacts.
Local Open Scope R_scope.

Lemma sum_last3_item (t : Tensor) B M C r s m :
  shape t = [B; M; C] -> sum_dimZ t (-1) = Return r ->
  (s < B)%nat -> (m < M)%nat ->
  shape r = [B; M]
  /\ item r [s; m] = Rsum (map (fun c => item t [s; m; c]) (seq 0 C)).
Proof.
  intros Hsh Hr Hs Hm. unfold sum_dimZ in Hr. rewrite Hsh in Hr.
  change (norm_dim (length [B; M; C]) (-1)) with (Return (A:=nat) 2%nat) in Hr.
  cbv iota in Hr. rewrite sum_dim_eq in Hr by (rewrite Hsh; simpl; lia).
  injection Hr as <-. rewrite Hsh. split; [done|].
  change (delete 2%nat [B; M; C]) with [B; M].
  rewrite item_tabulate by (by apply valid2).
  unfold lane. by rewrite Hsh.
Qed.

Section MixtureSet.
Context {Stats Model : Type}.
Implicit Types self : MixtureSet Stats Model.

(** X20.  When [MixtureSet.forward] returns, its value for sample [s] and
    mixture [m] is the log-evidence of the mixture: the logarithm of the
    sum over the components [c] of the exponential of the component's
    expected log-likelihood plus its expected log-weight.  The expected
    log-likelihood under the responsibilities less the local divergence
    collapses to this number. *)
Theorem forward_returns_log_evidence self self' (s_stats : Stats) out :
  forward s_stats self = (Return out, self') ->
  exists lw pc0 B,
    log_weights self = Return lw
    /\ ms_forward (modelset self) s_stats = Return pc0
    /\ numel (shape pc0) = (B * (num_mix self * num_comp self))%nat
    /\ shape out = [B; num_mix self]
    /\ forall s m, (s < B)%nat -> (m < num_mix self)%nat ->
         item out [s; m]
         = ln (Rsum (map (fun c =>
                 exp (nth (s * (num_mix self * num_comp self)
                           + m * num_comp self + c)%nat (storage pc0) 0
                      + item lw [0%nat; m; c]))
                 (seq 0 (num_comp self)))).
Proof.
  unfold forward, bindM, get, lift, put.
  destruct (log_weights self) as [lw|] eqn:Elw; [|done].
  pose proof (ForwardFacts.log_weights_shape _ _ Elw) as Hlw.
  destruct (ms_forward (modelset self) s_stats) as [pc0|]; [|done].
  destruct (view_infer pc0 _) as [pc|] eqn:Epc; [|done].
  apply view_infer_Return in Epc as (HMC & Hn & ->).
  set (M := num_mix self) in *. set (C := num_comp self) in *.
  set (B := (numel (shape pc0) / numel [M; C])%nat) in *.
  set (pc := mkTensor (B :: [M; C]) (storage pc0)).
  unfold add, sub.
  rewrite (map2_fits_r Rplus pc lw) by (rewrite Hlw; solve_fits).
  change (shape pc) with [B; M; C].
  set (w := tabulate [B; M; C] _).
  destruct (logsumexp w (-1)) as [lse|] eqn:Else; [|done].
  apply (logsumexp_last3 w lse B M C eq_refl) in Else
    as (HC & Hlse & Hval).
  unfold unsqueeze. rewrite Hlse.
  change (2 <=? length [B; M])%nat with true. cbv iota.
  change (take 2 [B; M] ++ 1%nat :: drop 2 [B; M]) with [B; M; 1%nat].
  set (lse3 := mkTensor [B; M; 1%nat] (storage lse)).
  rewrite (map2_fits_r Rminus w lse3) by solve_fits.
  change (shape w) with [B; M; C]. change (shape lse3) with [B; M; 1%nat].
  set (log_resps := tabulate [B; M; C] _).
  unfold _local_kl_divergence, sub, mul.
  rewrite (map2_fits_r Rminus log_resps lw) by (rewrite Hlw; solve_fits).
  change (shape log_resps) with [B; M; C]. cbn [bind].
  set (d := tabulate [B; M; C] _).
  rewrite (map2_fits_r Rmult (tmap exp log_resps) d) by apply fits_refl.
  change (shape (tmap exp log_resps)) with [B; M; C].
  change (shape d) with [B; M; C]. cbn [bind].
  set (p := tabulate [B; M; C] _).
  destruct (sum_dimZ p (-1)) as [kl|] eqn:Ekl; [|done].
  rewrite (map2_fits_r Rmult pc (tmap exp log_resps)) by apply fits_refl.
  change (shape pc) with [B; M; C].
  set (weighted := tabulate [B; M; C] _).
  destruct (sum_dimZ weighted (-1)) as [llh|] eqn:Ellh; [|done].
  assert (Hklsh : shape kl = [B; M]).
  { unfold sum_dimZ in Ekl. change (shape p) with [B; M; C] in Ekl.
    change (norm_dim (length [B; M; C]) (-1)) with (Return (A:=nat) 2%nat) in Ekl.
    cbv iota in Ekl. rewrite sum_dim_eq in Ekl by (simpl; lia).
    by injection Ekl as <-. }
  assert (Hllhsh : shape llh = [B; M]).
  { unfold sum_dimZ in Ellh. change (shape weighted) with [B; M; C] in Ellh.
    change (norm_dim (length [B; M; C]) (-1)) with (Return (A:=nat) 2%nat)
      in Ellh.
    cbv iota in Ellh. rewrite sum_dim_eq in Ellh by (simpl; lia).
    by injection Ellh as <-. }
  rewrite (map2_fits_r Rminus llh kl)
    by (rewrite Hklsh, Hllhsh; apply fits_refl).
  rewrite Hklsh, Hllhsh.
  intros [= <- _].
  exists lw, pc0, B. split; [done|]. split; [done|].
  split; [simpl in Hn |- *; lia|]. split; [done|].
  intros s m Hs Hm.
  rewrite item_tabulate by (by apply valid2).
  rewrite !bidx_same by (by apply valid2).
  destruct (sum_last3_item p B M C kl s m eq_refl Ekl Hs Hm) as [_ ->].
  destruct (sum_last3_item weighted B M C llh s m eq_refl Ellh Hs Hm)
    as [_ ->].
  rewrite Rsum_minus.
  set (L := stable_logsumexp (lane3 w C s m)).
  assert (Hlr : forall c, (c < C)%nat ->
            item log_resps [s; m; c] = item w [s; m; c] - L).
  { intros c Hc. unfold log_resps. rewrite item3_tabulate by lia.
    rewrite !bidx3, !clamp_lt by lia. f_equal.
    unfold L. rewrite <- Hval by done. unfold item, lse3. rewrite Hlse.
    simpl. f_equal; lia. }
  assert (Hw : forall c, (c < C)%nat ->
            item w [s; m; c] = item pc [s; m; c] + item lw [0%nat; m; c]).
  { intros c Hc. unfold w. rewrite item3_tabulate by lia.
    rewrite Hlw, !bidx3, !clamp_lt by lia. done. }
  assert (Hterm : forall c, (c < C)%nat ->
            item weighted [s; m; c] - item p [s; m; c]
            = exp (item w [s; m; c] - L) * L).
  { intros c Hc. unfold weighted, p. rewrite !item3_tabulate by lia.
    rewrite !bidx_same by (apply valid3; lia).
    rewrite item_tmap by (apply wf_tabulate || (apply valid3; lia)).
    unfold d. rewrite item3_tabulate by lia.
    rewrite Hlw, !bidx3, !clamp_lt by lia.
    rewrite Hlr by done. rewrite Hw by done.
    change (clamp 1 s) with 0%nat. ring. }
  transitivity (Rsum (map (fun c => exp (item w [s; m; c] - L) * L)
                          (seq 0 C))).
  { apply Rsum_ext. intros c Hc. apply in_seq in Hc. apply Hterm. lia. }
  rewrite <- Rsum_mult_r.
  assert (Hone : Rsum (map (fun c => exp (item w [s; m; c] - L)) (seq 0 C))
                 = 1).
  { rewrite <- (softmax_list_sum (lane3 w C s m))
      by (unfold lane3; destruct C; done).
    unfold lane3. by rewrite map_map. }
  rewrite Hone, Rmult_1_l. unfold L.
  rewrite stable_logsumexp_naive by (unfold lane3; destruct C; done).
  f_equal. unfold lane3. rewrite map_map. apply Rsum_ext.
  intros c Hc. apply in_seq in Hc. f_equal. rewrite Hw by lia. f_equal.
  unfold item, pc. cbn [shape storage ravel numel foldr]. f_equal. nia.
Qed.

End MixtureSet.

Import Samples.
#[local] Existing Instance plain_torch.

Lemma forward_returns_log_evidence_witness :
  exists out lw pc0,
    (forward 1%nat two_mixtures).1 = Return out
    /\ log_weights two_mixtures = Return lw
    /\ item out [0; 1]%nat
       = ln (Rsum (map (fun c =>
               exp (nth (0 * (2 * 1) + 1 * 1 + c)%nat (storage pc0) 0
                    + item lw [0%nat; 1%nat; c]))
               (seq 0 1))).
Proof.
  eassert (Hr : forward 1%nat two_mixtures = (Return _, _))
    by (run_maps; reflexivity).
  destruct (forward_returns_log_evidence _ _ _ _ Hr)
    as (lw & pc0 & B & Hlw & Hpc & Hn & _ & Hit).
  rewrite Hr. cbn [fst].
  eexists _, lw, pc0. split; [reflexivity|]. split; [exact Hlw|].
  apply (Hit 0%nat 1%nat); [|simpl; lia].
  injection Hpc as <-. simpl in Hn. lia.
Defined.

End EvidenceFacts.

(** ** beer/models/vae.py: the cache between forward and accumulate (X21, X22) *)

Module VaeCacheFacts.
Import Vae.

Section VAE.
Variable LStats : Type.
Variable sample_from_normals : Tensor -> Tensor -> nat -> result Tensor.
Variable sufficient_statistics_from_mean_var :
  Tensor -> Tensor -> result Tensor.

#[local] Abbreviation forward :=
  (Vae.forward sample_from_normals sufficient_statistics_from_mean_var).

(** What a returning [forward] leaves in the model. *)
Lemma forward_state (self self' : VAE LStats) data nsamples out :
  forward data nsamples self = (Return out, self') ->
  exists means variances exp_np_params latent_stats kl,
    encoder self data = Return (means, variances)
    /\ expected_natural_params (latent_model self) means variances nsamples
       = Return (exp_np_params, latent_stats)
    /\ self' = mkVAE (encoder self) (decoder self) (latent_model self)
                 (<["kl_divergence" := CTensor kl]>
                    (<["latent_stats" := CStats latent_stats]>
                       (vcache self))).
Proof.
  unfold Vae.forward, _estimate_prior, _compute_local_kl_div.
  unfold bindM at 1 2. unfold get at 1, lift at 1.
  destruct (encoder self data) as [[means variances]|] eqn:Eenc;
    [|discriminate].
  unfold bindM at 1 2 3 4. unfold get at 1, lift at 1.
  destruct (expected_natural_params _ _ _ _) as [[exp_np ls]|] eqn:Eprior;
    [|discriminate].
  unfold set_vcache at 1, ret. cbn [fst snd].
  unfold bindM at 1 2. unfold lift at 1.
  destruct (sufficient_statistics_from_mean_var _ _) as [ess|];
    [|discriminate].
  unfold bindM at 1. unfold lift at 1.
  destruct (_normal_diag_natural_params _ _) as [nparams|]; [|discriminate].
  unfold bindM at 1. unfold lift at 1.
  destruct (sub nparams exp_np) as [d|]; [|discriminate].
  unfold bindM at 1. unfold lift at 1.
  destruct (mul d ess) as [p|]; [|discriminate].
  unfold bindM at 1. unfold lift at 1.
  destruct (sum_dimZ p (-1)) as [kl|]; [|discriminate].
  unfold set_vcache. cbn [encoder decoder latent_model vcache].
  intros Hllh.
  pose proof (VaeFacts.expected_llh_state LStats sample_from_normals
                data means variances nsamples
                (mkVAE (encoder self) (decoder self) (latent_model self)
                   (<["kl_divergence" := CTensor kl]>
                      (<["latent_stats" := CStats ls]> (vcache self)))))
    as Hst.
  rewrite Hllh in Hst. simpl in Hst. subst self'.
  by exists means, variances, exp_np, ls, kl.
Qed.

(** X21.  After a [forward] that returns, [accumulate] hands the latent
    model the statistics that [expected_natural_params] returned for this
    very batch, together with the caller's [parent_msg], and returns what
    the latent model answers; the encoder, the decoder and the latent
    model are the ones the VAE had. *)
Theorem accumulate_after_forward (self self' : VAE LStats) data nsamples out
  (parent_msg : option Tensor) :
  forward data nsamples self = (Return out, self') ->
  exists means variances exp_np_params latent_stats,
    encoder self data = Return (means, variances)
    /\ expected_natural_params (latent_model self) means variances nsamples
       = Return (exp_np_params, latent_stats)
    /\ (accumulate parent_msg self').1
       = lm_accumulate (latent_model self) latent_stats parent_msg
    /\ encoder (accumulate parent_msg self').2 = encoder self
    /\ decoder (accumulate parent_msg self').2 = decoder self
    /\ latent_model (accumulate parent_msg self').2 = latent_model self.
Proof.
  intros Hf.
  destruct (forward_state _ _ _ _ _ Hf)
    as (means & variances & exp_np & ls & kl & Henc & Hprior & ->).
  exists means, variances, exp_np, ls. split; [done|]. split; [done|].
  unfold accumulate, bindM, get, vcache_get, clear_cache, lift.
  cbn [vcache latent_model encoder decoder].
  rewrite lookup_insert_ne by done. rewrite lookup_insert_eq.
  by destruct (lm_accumulate _ _ _).
Qed.

(** X22.  The two methods that read the cache raise [KeyError] on a model
    whose cache lacks their key, as it does before any [forward], and
    leave the model as it is.  An [accumulate] that finds its statistics
    empties the cache before it asks the latent model, whatever the
    latent model answers: a second [accumulate], or a
    [local_kl_div_posterior_prior], without a new [forward] raises
    [KeyError]. *)
Theorem cache_miss_raises_KeyError (self : VAE LStats)
  (parent_msg : option Tensor) :
  (vcache self !! "latent_stats" = None ->
   accumulate parent_msg self = (Raise KeyError, self))
  /\ (vcache self !! "kl_divergence" = None ->
      local_kl_div_posterior_prior self = (Raise KeyError, self))
  /\ (forall v, vcache self !! "latent_stats" = Some v ->
      let after := (accumulate parent_msg self).2 in
      after = mkVAE (encoder self) (decoder self) (latent_model self) ∅
      /\ (forall pm, accumulate pm after = (Raise KeyError, after))
      /\ local_kl_div_posterior_prior after = (Raise KeyError, after)).
Proof.
  split; [|split].
  - intros Hc. unfold accumulate, bindM, get, vcache_get. by rewrite Hc.
  - intros Hc. unfold local_kl_div_posterior_prior, bindM, get, vcache_get.
    by rewrite Hc.
  - intros v Hv after.
    assert (Hafter : after = mkVAE (encoder self) (decoder self)
                               (latent_model self) ∅).
    { unfold after, accumulate, bindM, get, vcache_get, clear_cache, lift,
        raise.
      rewrite Hv. cbn [fst snd latent_model].
      destruct v as [t|ls]; [done|]. by destruct (lm_accumulate _ _ _). }
    rewrite Hafter. split; [done|]. split.
    + intros pm. unfold accumulate, bindM, get, vcache_get.
      cbn [vcache]. by rewrite lookup_empty.
    + unfold local_kl_div_posterior_prior, bindM, get, vcache_get.
      cbn [vcache]. by rewrite lookup_empty.
Qed.

End VAE.

Import Samples.
Local Open Scope R_scope.

Lemma accumulate_after_forward_witness :
  let r := Vae.forward mean_sampler normal_stats
             (mkTensor [1; 1]%nat [0]) 1 unit_vae in
  (accumulate (Some (mkTensor [1%nat] [1])) r.2).1 = Return ∅.
Proof.
  intros r.
  destruct (accumulate_after_forward unit mean_sampler normal_stats
              unit_vae r.2 (mkTensor [1; 1]%nat [0]) 1 _
              (Some (mkTensor [1%nat] [1])) eq_refl)
    as (means & variances & exp_np & ls & _ & _ & Hacc & _).
  rewrite Hacc. reflexivity.
Defined.

Lemma cache_miss_raises_KeyError_witness :
  accumulate None unit_vae = (Raise KeyError, unit_vae).
Proof.
  apply (proj1 (cache_miss_raises_KeyError unit unit_vae None)).
  reflexivity.
Defined.

End VaeCacheFacts.

(** ** beer/models/vae.py: the decoder log-likelihood (X23) *)

Module VaeDensityFacts.
Import TorchFacts ReduceFacts AxisFacts.
Import Vae.
Local Open Scope R_scope.

(** A matrix against a stack of matrices of its shape. *)
Lemma map2_stack f a b S N D :
  shape a = [N; D] -> shape b = [S; N; D] ->
  map2 f a b
  = Return (tabulate [S; N; D]
              (fun idx => f (item a (drop 1 idx)) (item b idx))).
Proof.
  intros Ha Hb. unfold map2. rewrite Ha, Hb.
  assert (Hbs : broadcast_shapes [N; D] [S; N; D] = Return [S; N; D]).
  { unfold broadcast_shapes. cbn. by rewrite !Nat.eqb_refl. }
  rewrite Hbs. cbn [bind]. f_equal. apply tabulate_ext.
  intros idx Hv.
  inversion Hv as [|s ? idx1 ? Hs Hv1]; subst.
  inversion Hv1 as [|n ? idx2 ? Hn Hv2]; subst.
  inversion Hv2 as [|d ? idx3 ? Hd Hv3]; subst.
  inversion Hv3; subst.
  rewrite (bidx_same [S; N; D]) by done.
  cbn [bidx length drop Nat.sub zip_with].
  by rewrite !clamp_lt by done.
Qed.

(** X23.  For a batch of [N] vectors of [D] entries and [S] stacked
    Normal densities per vector, [_log_likelihood] returns, for draw [s]
    and vector [n], the logarithm of the diagonal Normal density: the sum
    over the dimensions of [-(x - mu)^2 / (2 v) - ln(v) / 2], less
    [D ln(2 pi) / 2]; the data are broadcast over the draws.  Where the
    variances are positive this is the logarithm of the density, and it
    is at most the value at [x = mu]. *)
Theorem log_likelihood_value (data means variances : Tensor) (S N D : nat) :
  shape data = [N; D] ->
  shape means = [S; N; D] ->
  shape variances = [S; N; D] -> wf variances ->
  exists llh,
    _log_likelihood data means variances = Return llh
    /\ shape llh = [S; N]
    /\ forall s n, (s < S)%nat -> (n < N)%nat ->
         (forall d, (d < D)%nat -> 0 < item variances [s; n; d]) ->
         item llh [s; n]
         = Rsum (map (fun d =>
                   - (0.5 * (item data [n; d] - item means [s; n; d]) ^ 2
                      / item variances [s; n; d])
                   - 0.5 * ln (item variances [s; n; d])) (seq 0 D))
           - 0.5 * INR D * ln (2 * PI)
         /\ item llh [s; n]
            <= Rsum (map (fun d => - 0.5 * ln (item variances [s; n; d]))
                         (seq 0 D))
               - 0.5 * INR D * ln (2 * PI).
Proof.
  intros Hd Hm Hv Hwf. unfold _log_likelihood, sub, div.
  rewrite (map2_stack Rminus data means S N D) by done. cbn [bind].
  set (centred := tabulate [S; N; D] _).
  rewrite (map2_same Rdiv _ variances [S; N; D]) by done. cbn [bind].
  set (dist := tabulate [S; N; D] _).
  rewrite (map2_same Rminus _ _ [S; N; D])
    by (done || (cbn [shape tmap]; done)). cbn [bind].
  set (total := tabulate [S; N; D] _).
  destruct (sum_dimZ total (-1)) as [llh|] eqn:El.
  2: { exfalso. unfold sum_dimZ in El. change (shape total) with [S; N; D] in El.
       change (norm_dim (length [S; N; D]) (-1))
         with (Return (A:=nat) 2%nat) in El.
       cbv iota in El. by rewrite sum_dim_eq in El by (simpl; lia). }
  cbn [bind]. unfold last_size. rewrite Hm. cbn [last bind].
  assert (Hllh : shape llh = [S; N] /\ wf llh).
  { unfold sum_dimZ in El. change (shape total) with [S; N; D] in El.
    change (norm_dim (length [S; N; D]) (-1))
      with (Return (A:=nat) 2%nat) in El.
    cbv iota in El. rewrite sum_dim_eq in El by (simpl; lia).
    injection El as <-. split; [done|apply wf_tabulate]. }
  destruct Hllh as [Hsh Hwl].
  eexists. split; [done|]. split; [done|].
  intros s n Hs Hn Hpos.
  assert (Hval : item (tmap (fun x => x - 0.5 * INR D * ln (2 * PI)) llh)
                   [s; n]
         = Rsum (map (fun d =>
                   - (0.5 * (item data [n; d] - item means [s; n; d]) ^ 2
                      / item variances [s; n; d])
                   - 0.5 * ln (item variances [s; n; d])) (seq 0 D))
           - 0.5 * INR D * ln (2 * PI)).
  { rewrite item_tmap by (done || rewrite Hsh; by apply valid2).
    f_equal.
    destruct (EvidenceFacts.sum_last3_item total S N D llh s n eq_refl El
                Hs Hn) as [_ ->].
    apply Rsum_ext. intros d Hdd. apply in_seq in Hdd.
    unfold total. rewrite item3_tabulate by lia.
    rewrite !item_tmap
      by first [ done | apply wf_tabulate | (apply valid3; lia)
               | (rewrite Hv; apply valid3; lia) ].
    unfold dist. rewrite item3_tabulate by lia.
    rewrite item_tmap by (apply wf_tabulate || (apply valid3; lia)).
    unfold centred. rewrite item3_tabulate by lia.
    cbn [drop]. done. }
  split; [exact Hval|].
  rewrite Hval.
  apply Rplus_le_compat_r. apply Rsum_le.
  intros d Hdd. apply in_seq in Hdd.
  specialize (Hpos d ltac:(lia)).
  set (v := item variances [s; n; d]) in *.
  set (e := item data [n; d] - item means [s; n; d]).
  assert (0 <= 0.5 * e ^ 2 / v).
  { apply Rmult_le_pos; [|left; by apply Rinv_0_lt_compat].
    assert (0 <= e ^ 2) by (apply pow2_ge_0). lra. }
  lra.
Qed.

Lemma log_likelihood_value_witness :
  exists llh,
    _log_likelihood (mkTensor [1; 1]%nat [0]) (mkTensor [1; 1; 1]%nat [0])
      (mkTensor [1; 1; 1]%nat [1]) = Return llh
    /\ item llh [0; 0]%nat
       <= Rsum (map (fun d =>
                  - 0.5 * ln (item (mkTensor [1; 1; 1]%nat [1])
                                [0%nat; 0%nat; d]))
                    (seq 0 1))
          - 0.5 * INR 1 * ln (2 * PI).
Proof.
  destruct (log_likelihood_value (mkTensor [1; 1]%nat [0])
              (mkTensor [1; 1; 1]%nat [0]) (mkTensor [1; 1; 1]%nat [1])
              1 1 1 eq_refl eq_refl eq_refl eq_refl)
    as (llh & Hl & _ & Hit).
  exists llh. split; [exact Hl|].
  destruct (Hit 0%nat 0%nat) as [_ Hle]; [lia|lia| |exact Hle].
  intros d Hd. assert (d = 0%nat) as -> by lia.
  unfold item. simpl. lra.
Defined.

End VaeDensityFacts.

(** ** beer/models/vae.py: the local divergence (X24) *)

Module VaeKlFacts.
Import TorchFacts ReduceFacts AxisFacts.
Import Vae.
Local Open Scope R_scope.

Lemma delete_last (sh : list nat) :
  delete (length sh - 1)%nat sh = removelast sh.
Proof.
  induction sh as [|n sh IH]; [done|].
  destruct sh as [|m sh]; [done|].
  cbn [length removelast] in *.
  replace (S (S (length sh)) - 1)%nat with (S (S (length sh) - 1)) by lia.
  cbn [delete list_delete]. f_equal. exact IH.
Qed.

Section VAE.
Variable LStats : Type.
Variable sufficient_statistics_from_mean_var :
  Tensor -> Tensor -> result Tensor.

(** X24.  When the expected natural parameters the latent model returns
    are the natural parameters of the encoder's own Normal (of positive
    variances), the local divergence [_compute_local_kl_div] stores is
    zero for every sample: the divergence of the posterior from itself
    vanishes. *)
Theorem local_kl_div_of_itself (self : VAE LStats)
  (means variances nparams exp_s_stats : Tensor) :
  (forall idx, valid idx (shape variances) -> 0 < item variances idx) ->
  _normal_diag_natural_params means variances = Return nparams ->
  sufficient_statistics_from_mean_var means variances = Return exp_s_stats ->
  shape exp_s_stats = shape nparams ->
  shape nparams <> [] ->
  exists kl,
    _compute_local_kl_div sufficient_statistics_from_mean_var
      means variances nparams self
    = (Return tt,
       mkVAE (encoder self) (decoder self) (latent_model self)
             (<["kl_divergence" := CTensor kl]> (vcache self)))
    /\ shape kl = removelast (shape nparams)
    /\ forall idx, valid idx (shape kl) -> item kl idx = 0.
Proof.
  intros _ Hnp Hess Hsh Hne.
  unfold _compute_local_kl_div, bindM, lift, sub, mul.
  rewrite Hess, Hnp.
  set (sh := shape nparams) in *.
  rewrite (map2_same Rminus _ _ sh) by done.
  set (d := tabulate sh _).
  rewrite (map2_same Rmult _ _ sh) by done.
  set (p := tabulate sh _).
  assert (Hlen : length sh <> 0%nat) by (destruct sh; done).
  unfold sum_dimZ. change (shape p) with sh.
  rewrite norm_dim_last by done.
  rewrite sum_dim_eq by (change (shape p) with sh; lia).
  change (shape p) with sh.
  set (ax := (length sh - 1)%nat).
  assert (Hdel : delete ax sh = removelast sh) by apply delete_last.
  eexists. split; [reflexivity|]. split; [by rewrite <- Hdel|].
  intros idx Hv. cbn [shape tabulate] in Hv.
  rewrite item_tabulate by done.
  unfold lane. change (shape p) with sh.
  rewrite (Rsum_ext _ (fun _ => 0)); [by apply Rsum_zero|].
  intros k Hk. apply in_seq in Hk.
  assert (Hvk : valid (insert_at ax k idx) sh)
    by (apply valid_insert_at; [unfold ax; lia|done|lia]).
  unfold p. rewrite item_tabulate by done.
  unfold d. rewrite item_tabulate by done. lra.
Qed.

End VAE.

Import Samples.

Lemma local_kl_div_of_itself_witness :
  exists nparams kl,
    _normal_diag_natural_params (mkTensor [1; 1]%nat [0])
      (mkTensor [1; 1]%nat [1]) = Return nparams
    /\ (_compute_local_kl_div normal_stats (mkTensor [1; 1]%nat [0])
          (mkTensor [1; 1]%nat [1]) nparams unit_vae).2
       = mkVAE (encoder unit_vae) (decoder unit_vae) (latent_model unit_vae)
               (<["kl_divergence" := CTensor kl]> (vcache unit_vae))
    /\ item kl [0%nat] = 0.
Proof.
  eassert (Hnp : _normal_diag_natural_params (mkTensor [1; 1]%nat [0])
                   (mkTensor [1; 1]%nat [1]) = Return _) by reflexivity.
  assert (Hpos : forall idx,
            valid idx (shape (mkTensor [1; 1]%nat [1])) ->
            0 < item (mkTensor [1; 1]%nat [1]) idx).
  { intros idx Hv. apply valid2_inv in Hv as (i & j & -> & Hi & Hj).
    assert (i = 0%nat) as -> by lia. assert (j = 0%nat) as -> by lia.
    unfold item. simpl. lra. }
  destruct (local_kl_div_of_itself unit normal_stats unit_vae
              (mkTensor [1; 1]%nat [0]) (mkTensor [1; 1]%nat [1]) _ _
              Hpos Hnp eq_refl eq_refl) as (kl & Hkl & Hsh & Hz); [done|].
  eexists _, kl. split; [exact Hnp|]. split; [by rewrite Hkl|].
  apply Hz. rewrite Hsh. repeat constructor.
Defined.

End VaeKlFacts.

(** ** beer/nnet/neuralnetwork.py: parsing an element (X25, X26) *)

Module ParseFacts.
Import Stdlib.Strings.Ascii.

Lemma split_one sep (p : string) :
  contains sep p = false -> split sep p = [p].
Proof.
  induction p as [|c p IH]; [done|].
  cbn [contains split]. intros Hp. apply orb_false_iff in Hp as [Hc Hp].
  by rewrite Hc, IH.
Qed.

Lemma split_app_sep sep (p s : string) :
  contains sep p = false ->
  split sep (p +:+ String sep s) = p :: split sep s.
Proof.
  induction p as [|c p IH]; intros Hp.
  - change (EmptyString +:+ String sep s) with (String sep s).
    cbn [split]. by rewrite Ascii.eqb_refl.
  - cbn [contains] in Hp. apply orb_false_iff in Hp as [Hc Hp].
    change (String c p +:+ String sep s)
      with (String c (p +:+ String sep s)).
    cbn [split]. by rewrite Hc, IH.
Qed.

(** Splitting inverts joining, when no piece holds the separator. *)
Lemma split_join sep (pieces : list string) :
  pieces <> [] ->
  Forall (fun p => contains sep p = false) pieces ->
  split sep (join sep pieces) = pieces.
Proof.
  intros Hne Hall. induction Hall as [|p rest Hp Hrest IH]; [done|].
  destruct rest as [|q rest]; [by apply split_one|].
  change (join sep (p :: q :: rest))
    with (p +:+ String sep (join sep (q :: rest))).
  rewrite split_app_sep by done. f_equal. by apply IH.
Qed.

Lemma contains_app c (a b : string) :
  contains c (a +:+ b) = contains c a || contains c b.
Proof.
  induction a as [|x a IH]; [done|].
  change (String x a +:+ b) with (String x (a +:+ b)).
  cbn [contains]. rewrite IH. by rewrite orb_assoc.
Qed.

Lemma contains_lstrip c s : contains c (lstrip s) = true -> contains c s = true.
Proof.
  induction s as [|x s IH]; [done|]. simpl.
  destruct (is_space x); [|done].
  intros H. rewrite (IH H). apply orb_true_r.
Qed.

Lemma contains_rstrip c s : contains c (rstrip s) = true -> contains c s = true.
Proof.
  induction s as [|x s IH]; [done|]. simpl.
  destruct (rstrip s) as [|y r] eqn:Er.
  - destruct (is_space x); [done|]. simpl. rewrite orb_false_r.
    intros ->. done.
  - simpl. intros H. apply orb_true_iff in H as [->|H]; [done|].
    rewrite IH; [apply orb_true_r|]. exact H.
Qed.

Lemma contains_join c sep (pieces : list string) :
  Ascii.eqb sep c = false ->
  Forall (fun p => contains c p = false) pieces ->
  contains c (join sep pieces) = false.
Proof.
  intros Hsep Hall. induction Hall as [|p rest Hp _ IH]; [done|].
  destruct rest as [|q rest]; [done|].
  change (join sep (p :: q :: rest))
    with (p +:+ String sep (join sep (q :: rest))).
  rewrite contains_app. cbn [contains]. by rewrite Hp, Hsep, IH.
Qed.

Lemma length_split sep (s : string) :
  length (split sep s) = S (count sep s).
Proof.
  induction s as [|c s IH]; [done|]. cbn [split count].
  destruct (Ascii.eqb c sep).
  - cbn [length]. by rewrite IH.
  - destruct (split sep s) as [|p rest]; [done|]. cbn [length] in *. lia.
Qed.

Lemma count_contains c s : count c s <> 0 -> contains c s = true.
Proof.
  induction s as [|x s IH]; [done|]. cbn [count contains].
  destruct (Ascii.eqb x c); [done|]. simpl. apply IH.
Qed.

Lemma foldM_kwargs (kvs : list (string * string)) (m : gmap string string) :
  Forall (fun kv => plain kv.1 /\ plain kv.2) kvs ->
  foldM (fun str_kwargs arg_and_val =>
           match split "=" arg_and_val with
           | [argname; str_argval] =>
               Return (<[argname := str_argval]> str_kwargs)
           | _ => Raise ValueError
           end) m (map (fun kv => kv.1 +:+ String "=" kv.2) kvs)
  = Return (foldl (fun m kv => <[kv.1 := kv.2]> m) m kvs).
Proof.
  intros Hall. revert m.
  induction Hall as [|[k v] kvs [Hk Hv] _ IH]; intros m; [done|].
  cbn [map foldM foldl fst snd].
  rewrite split_app_sep by apply Hk.
  rewrite split_one by apply Hv. apply IH.
Qed.

(** X25.  [parse_nnet_element] reads back what [element_text] writes: for
    a name without a colon and at least one argument whose key and value
    hold none of [:], [;] and [=], the text [name:k1=v1;k2=v2;...]
    (with no blank at either end) parses to the name and the dictionary of
    the arguments, a later argument replacing an earlier one of the same
    key. *)
Theorem parse_nnet_element_round_trip (name : string)
  (kvs : list (string * string)) :
  contains ":" name = false ->
  kvs <> [] ->
  Forall (fun kv => plain kv.1 /\ plain kv.2) kvs ->
  strip (element_text name kvs) = element_text name kvs ->
  parse_nnet_element (element_text name kvs) = Return (name, kwargs_of kvs).
Proof.
  intros Hname Hne Hall Hstrip.
  unfold parse_nnet_element. rewrite Hstrip. unfold element_text.
  set (pieces := map (fun kv => kv.1 +:+ String "=" kv.2) kvs).
  assert (Hcolon : Forall (fun p => contains ":" p = false) pieces).
  { unfold pieces. apply Forall_map. eapply Forall_impl; [exact Hall|].
    intros [k v] [Hk Hv]. cbn [fst snd] in *. rewrite contains_app.
    cbn [contains]. destruct Hk as [-> _], Hv as [-> _]. done. }
  assert (Hsemi : Forall (fun p => contains ";" p = false) pieces).
  { unfold pieces. apply Forall_map. eapply Forall_impl; [exact Hall|].
    intros [k v] [Hk Hv]. cbn [fst snd] in *. rewrite contains_app.
    cbn [contains]. destruct Hk as (_ & -> & _), Hv as (_ & -> & _). done. }
  rewrite contains_app. cbn [contains].
  rewrite Ascii.eqb_refl, orb_true_r.
  rewrite split_app_sep by done.
  rewrite split_one by (by apply contains_join).
  rewrite split_join by (done || by destruct kvs).
  unfold pieces. rewrite foldM_kwargs by done. done.
Qed.

Lemma parse_nnet_element_round_trip_witness :
  parse_nnet_element "Linear:in_features=10;out_features=20"
  = Return ("Linear"%string,
            kwargs_of [("in_features", "10"); ("out_features", "20")]%string).
Proof.
  apply (parse_nnet_element_round_trip "Linear"
           [("in_features", "10"); ("out_features", "20")]%string).
  - reflexivity.
  - done.
  - repeat constructor.
  - reflexivity.
Defined.

Lemma foldM_kwargs_bad (pieces : list string) (m : gmap string string) :
  Exists (fun p => count "=" p <> 1) pieces ->
  foldM (fun str_kwargs arg_and_val =>
           match split "=" arg_and_val with
           | [argname; str_argval] =>
               Return (<[argname := str_argval]> str_kwargs)
           | _ => Raise ValueError
           end) m pieces
  = Raise ValueError.
Proof.
  intros Hex. revert m.
  induction pieces as [|p pieces IH]; intros m;
    [by apply Exists_nil in Hex|].
  cbn [foldM].
  pose proof (length_split "=" p) as Hlen.
  destruct (split "=" p) as [|a [|b [|c rest]]] eqn:Es; try done.
  apply IH. apply Exists_cons in Hex as [Hbad|]; [|done].
  cbn [length] in Hlen. lia.
Qed.

(** X26.  How [parse_nnet_element] fails.  A string without a colon is
    returned as it is, blanks included, with no arguments.  A string with
    two colons or more raises [ValueError], and so does a string with one
    colon in which some [;]-separated argument does not hold exactly one
    [=]: an empty argument list after the colon, or the comma-separated
    arguments of the docstring's own example. *)
Theorem parse_nnet_element_rejects (strval : string) :
  (contains ":" strval = false ->
   parse_nnet_element strval = Return (strval, ∅))
  /\ (2 <= count ":" (strip strval) ->
      parse_nnet_element strval = Raise ValueError)
  /\ (forall name args,
        split ":" (strip strval) = [name; args] ->
        Exists (fun p => count "=" p <> 1) (split ";" args) ->
        parse_nnet_element strval = Raise ValueError).
Proof.
  assert (Hc : forall n, n <> 0 -> count ":" (strip strval) = n ->
             contains ":" strval = true).
  { intros n Hn Hcount. apply contains_lstrip, contains_rstrip.
    apply count_contains. fold (strip strval). lia. }
  split; [|split].
  - intros Hno. unfold parse_nnet_element. by rewrite Hno.
  - intros H2. unfold parse_nnet_element.
    rewrite (Hc (count ":" (strip strval))) by (lia || done).
    pose proof (length_split ":" (strip strval)) as Hlen.
    destruct (split ":" (strip strval)) as [|a [|b [|c rest]]];
      cbn [length] in Hlen; try done; lia.
  - intros name args Hs Hex. unfold parse_nnet_element.
    pose proof (length_split ":" (strip strval)) as Hlen.
    rewrite Hs in Hlen. cbn [length] in Hlen.
    rewrite (Hc 1) by lia. rewrite Hs.
    by rewrite foldM_kwargs_bad.
Qed.

Lemma parse_nnet_element_rejects_witness :
  parse_nnet_element "Linear:in_features=10,out_features=20"
  = Raise ValueError.
Proof.
  apply (proj2 (proj2 (parse_nnet_element_rejects
                         "Linear:in_features=10,out_features=20"))
           "Linear"%string "in_features=10,out_features=20"%string).
  - reflexivity.
  - apply Exists_cons_hd. simpl. lia.
Defined.

End ParseFacts.

(** ** beer/nnet/neuralnetwork.py: layers (X27, X28, X29) *)

Module LayerFacts.
Import TorchFacts ReduceFacts AxisFacts.
Local Open Scope R_scope.

Lemma iadd_same (a b : Tensor) sh :
  shape a = sh -> shape b = sh ->
  iadd a b = Return (tabulate sh (fun idx => item a idx + item b idx)).
Proof.
  intros Ha Hb. unfold iadd. rewrite Ha, Hb, broadcast_shapes_refl.
  cbn [bind]. rewrite bool_decide_eq_true_2 by done.
  unfold add. by apply map2_same.
Qed.

Lemma zip_take_min {A B} (l : list A) (k : list B) :
  zip (take (length k `min` length l) l) (take (length k `min` length l) k)
  = zip l k.
Proof.
  revert k. induction l as [|x l IH]; intros [|y k]; cbn [length].
  - done.
  - done.
  - rewrite Nat.min_0_l. done.
  - rewrite <- Nat.succ_min_distr. cbn [take zip zip_with]. f_equal.
    apply IH.
Qed.

Lemma tensor_of_Some (st : list (list R)) (x : TensorRef) (l : list R) :
  st !! cell x = Some l -> tensor_of st x = mkTensor (ref_shape x) l.
Proof. intros H. unfold tensor_of. by rewrite H. Qed.

Lemma tensor_of_app (st ext : list (list R)) (x : TensorRef) :
  (cell x < length st)%nat -> tensor_of (st ++ ext) x = tensor_of st x.
Proof. intros Hx. unfold tensor_of. by rewrite lookup_app_l. Qed.

Lemma tensor_of_new (st : list (list R)) (y : Tensor) :
  tensor_of (st ++ [storage y]) (mkRef (length st) (shape y)) = y.
Proof.
  rewrite (tensor_of_Some _ _ (storage y)).
  - by destruct y.
  - cbn [cell]. by rewrite lookup_app_r, Nat.sub_diag by lia.
Qed.

(** The loop of [MergeTransform.forward] over layers that return new
    tensors: the accumulator, which sits right after the store the call
    started from, receives every output; the outputs pile up behind it. *)
Lemma merge_loop (st : list (list R)) (sh : list nat) :
  forall (xs : list TensorRef) (fs : list (Tensor -> result Tensor))
         (ys : list Tensor) (a : list R) (junk : list (list R)),
    Forall (fun x => (cell x < length st)%nat) xs ->
    Forall2 (fun it y => it.2 (tensor_of st it.1) = Return y /\ shape y = sh)
            (zip xs fs) ys ->
    exists a' junk',
      forM_ (fun it => y <~ it.2 it.1 ;; iadd_ (mkRef (length st) sh) y)
            (zip xs (map fresh_layer fs)) (st ++ a :: junk)
      = (Return tt, st ++ a' :: junk')
      /\ forall idx, valid idx sh ->
           item (mkTensor sh a') idx
           = item (mkTensor sh a) idx + Rsum (map (fun y => item y idx) ys).
Proof.
  induction xs as [|x xs IH]; intros fs ys a junk Hlive Hall.
  { inversion Hall; subst. exists a, junk. split; [done|].
    intros idx _. simpl. lra. }
  destruct fs as [|f fs].
  { inversion Hall; subst. exists a, junk. split; [done|].
    intros idx _. simpl. lra. }
  cbn [zip zip_with map] in *.
  inversion Hall as [|it y its ys' [Hy Hsh] Hrest]; subst.
  apply Forall_cons in Hlive as [Hx Hlive]. cbn [fst snd] in Hy.
  cbn [forM_]. unfold bindM at 1 2. cbn [fst snd].
  unfold fresh_layer at 1.
  rewrite tensor_of_app by done. rewrite Hy. unfold new_tensor.
  set (store := st ++ a :: junk).
  unfold iadd_ at 1.
  rewrite tensor_of_new.
  assert (Hacc : tensor_of (store ++ [storage y]) (mkRef (length st) (shape y))
                 = mkTensor (shape y) a).
  { apply tensor_of_Some. unfold store. cbn [cell].
    by rewrite <- app_assoc, lookup_app_r, Nat.sub_diag by lia. }
  rewrite Hacc.
  rewrite (iadd_same (mkTensor (shape y) a) y (shape y)) by done.
  cbn [cell storage].
  set (r := tabulate (shape y) _).
  assert (Hst : <[length st := storage r]> (store ++ [storage y])
                = st ++ storage r :: (junk ++ [storage y])).
  { unfold store. rewrite <- app_assoc. cbn [app].
    rewrite insert_app_r_alt, Nat.sub_diag by lia. done. }
  rewrite Hst.
  destruct (IH fs ys' (storage r) (junk ++ [storage y]) Hlive Hrest)
    as (a' & junk' & -> & Hit).
  exists a', junk'. split; [done|].
  intros idx Hv. rewrite Hit by done.
  change (mkTensor (shape y) (storage r)) with r.
  unfold r. rewrite item_tabulate by done. simpl. lra.
Qed.

Lemma ravel_unravel (sh : list nat) (k : nat) :
  (k < numel sh)%nat -> ravel sh (unravel sh k) = k.
Proof.
  revert k. induction sh as [|d sh IH]; intros k Hk.
  - simpl in *. lia.
  - cbn [numel foldr] in Hk. fold (numel sh) in Hk.
    cbn [unravel ravel].
    assert (Hn : numel sh <> 0%nat) by (intros E; rewrite E in Hk; lia).
    rewrite IH by (by apply Nat.mod_upper_bound).
    rewrite (Nat.div_mod_eq k (numel sh)) at 3. lia.
Qed.

(** Adding a tensor to itself in place doubles its storage. *)
Lemma double_storage (sh : list nat) (l : list R) :
  length l = numel sh ->
  storage (tabulate sh (fun idx => item (mkTensor sh l) idx
                                   + item (mkTensor sh l) idx))
  = map (fun v => 2 * v) l.
Proof.
  intros Hl. cbn [storage tabulate].
  apply (nth_ext _ _ 0 0).
  { by rewrite !length_map, length_seq. }
  intros k Hk. rewrite length_map, length_seq in Hk.
  rewrite (nth_indep _ 0 ((fun k => item (mkTensor sh l) (unravel sh k)
                            + item (mkTensor sh l) (unravel sh k)) 0%nat))
    by (by rewrite length_map, length_seq).
  rewrite (map_nth (fun k => item (mkTensor sh l) (unravel sh k)
                             + item (mkTensor sh l) (unravel sh k))).
  rewrite seq_nth by done. cbn [Nat.add].
  unfold item. cbn [shape storage]. rewrite ravel_unravel by done.
  rewrite (nth_indep (map (fun v => 2 * v) l) 0 (2 * 0))
    by (rewrite length_map; lia).
  rewrite (map_nth (fun v => 2 * v)). lra.
Qed.

(** The loop of [MergeTransform.forward] when every transform is a view
    of one and the same input: each pass adds the accumulator to
    itself. *)
Lemma alias_loop (sh shx : list nat) (c : nat) :
  sh <> [] -> numel sh = numel shx ->
  forall (n : nat) (st : list (list R)) (l : list R),
    st !! c = Some l -> length l = numel sh ->
    forM_ (fun it => y <~ it.2 it.1 ;; iadd_ (mkRef c sh) y)
          (zip (replicate n (mkRef c shx))
               (replicate n (ReshapeLayer_layer sh))) st
    = (Return tt, <[c := map (fun v => 2 ^ n * v) l]> st).
Proof.
  intros Hsh Hnum. induction n as [|n IH]; intros st l Hc Hl.
  { cbn [replicate zip zip_with forM_]. unfold ret. f_equal.
    rewrite (map_ext _ id) by (intros v; unfold id; simpl; lra).
    rewrite map_id. by rewrite list_insert_id. }
  cbn [replicate zip zip_with forM_]. unfold bindM at 1 2. cbn [fst snd].
  assert (Hview : ReshapeLayer_layer sh (mkRef c shx) st
                  = (Return (mkRef c sh), st)).
  { unfold ReshapeLayer_layer, ReshapeLayer_forward.
    rewrite (tensor_of_Some st _ l) by done. cbn [cell ref_shape].
    destruct sh as [|d sh']; [done|]. cbn [view_star]. unfold view.
    cbn [shape]. by rewrite Hnum, Nat.eqb_refl. }
  rewrite Hview. unfold iadd_ at 1.
  rewrite (tensor_of_Some st _ l) by done. cbn [cell ref_shape].
  rewrite (iadd_same (mkTensor sh l) (mkTensor sh l) sh) by done.
  rewrite double_storage by done.
  assert (Hc' : <[c := map (fun v => 2 * v) l]> st !! c
                = Some (map (fun v => 2 * v) l)).
  { apply list_lookup_insert_eq. by apply lookup_lt_Some in Hc. }
  rewrite (IH _ _ Hc') by (by rewrite length_map).
  rewrite list_insert_insert_eq, map_map. do 2 f_equal.
  apply map_ext. intros v. simpl. lra.
Qed.

(** X27.  [MergeTransform.forward] needs a first transform and a first
    input ([IndexError] otherwise) and pairs the others with [zip]: a
    surplus of either is ignored without a word.  When the transforms
    return tensors of their own, all of one shape, the result is a new
    tensor of that shape, each entry the sum of the transforms' entries,
    and the inputs are left as they were.  The additions are in place on
    what the first transform returned: when the transforms are views of
    one and the same input, as [ReshapeLayer] returns them, the input
    itself is the accumulator, every pass doubles it, and [n + 1]
    branches multiply its entries by [2^n], not by [n + 1]. *)
Theorem MergeTransform_forward_sums
  (transforms : list (TensorRef -> M (list (list R)) TensorRef))
  (inputs : list TensorRef) (st : list (list R)) :
  (transforms = [] \/ inputs = [] ->
   MergeTransform_forward transforms inputs st = (Raise IndexError, st))
  /\ (let k := (length transforms `min` length inputs)%nat in
      MergeTransform_forward transforms inputs st
      = MergeTransform_forward (take k transforms) (take k inputs) st)
  /\ (forall fs ys sh,
        transforms = map fresh_layer fs ->
        Forall (fun x => (cell x < length st)%nat) inputs ->
        ys <> [] ->
        Forall2 (fun it y =>
                   it.2 (tensor_of st it.1) = Return y /\ shape y = sh)
                (zip inputs fs) ys ->
        exists st',
          MergeTransform_forward transforms inputs st
          = (Return (mkRef (length st) sh), st')
          /\ (forall idx, valid idx sh ->
                item (tensor_of st' (mkRef (length st) sh)) idx
                = Rsum (map (fun y => item y idx) ys))
          /\ (forall x, In x inputs -> tensor_of st' x = tensor_of st x))
  /\ (forall n x sh l,
        transforms = replicate (S n) (ReshapeLayer_layer sh) ->
        inputs = replicate (S n) x ->
        st !! cell x = Some l -> length l = numel sh ->
        numel sh = numel (ref_shape x) -> sh <> [] ->
        MergeTransform_forward transforms inputs st
        = (Return (mkRef (cell x) sh),
           <[cell x := map (fun v => 2 ^ n * v) l]> st)).
Proof.
  split; [|split; [|split]].
  - intros [-> | ->]; [done|]. by destruct transforms.
  - cbv zeta. destruct transforms as [|t0 ts]; [done|].
    destruct inputs as [|i0 ins].
    { cbn [length]. rewrite ?Nat.min_0_r. reflexivity. }
    cbn [length]. rewrite <- Nat.succ_min_distr. cbn [take].
    unfold MergeTransform_forward. by rewrite <- zip_take_min.
  - intros fs ys sh -> Hlive Hne Hall.
    destruct fs as [|f0 fs], inputs as [|x0 xs];
      try (inversion Hall; subst; done).
    cbn [zip zip_with map] in *.
    inversion Hall as [|it y its ys' [Hy Hsh] Hrest]; subst.
    apply Forall_cons in Hlive as [Hx0 Hlive]. cbn [fst snd] in Hy.
    unfold MergeTransform_forward, bindM at 1 2.
    unfold fresh_layer at 1. rewrite Hy. unfold new_tensor.
    destruct (merge_loop st (shape y) xs fs ys' (storage y) [] Hlive Hrest)
      as (a' & junk' & Hloop & Hit).
    rewrite Hloop. unfold ret.
    exists (st ++ a' :: junk'). split; [done|]. split.
    + intros idx Hv.
      rewrite (tensor_of_Some _ _ a')
        by (cbn [cell]; by rewrite lookup_app_r, Nat.sub_diag by lia).
      cbn [ref_shape]. by rewrite Hit by done.
    + intros x Hin. apply tensor_of_app.
      destruct Hin as [<-|Hin]; [done|].
      rewrite Forall_forall in Hlive. apply Hlive.
      by apply list_elem_of_In.
  - intros n [c shx] sh l -> -> Hc Hl Hnum Hsh.
    cbn [cell ref_shape] in *.
    cbn [replicate]. unfold MergeTransform_forward, bindM at 1 2.
    assert (Hview : ReshapeLayer_layer sh (mkRef c shx) st
                    = (Return (mkRef c sh), st)).
    { unfold ReshapeLayer_layer, ReshapeLayer_forward.
      rewrite (tensor_of_Some st _ l) by done.
      destruct sh as [|d sh']; [done|]. cbn [view_star]. unfold view.
      cbn [shape]. by rewrite Hnum, Nat.eqb_refl. }
    rewrite Hview.
    by rewrite (alias_loop sh shx c Hsh Hnum n st l Hc Hl).
Qed.

Lemma MergeTransform_forward_sums_witness :
  MergeTransform_forward
    (replicate 3 (ReshapeLayer_layer [2%nat]))
    (replicate 3 (mkRef 0 [2%nat])) [[1; 2]]
  = (Return (mkRef 0 [2%nat]),
     <[0%nat := map (fun v => 2 ^ 2 * v) [1; 2]]> [[1; 2]]).
Proof.
  destruct (MergeTransform_forward_sums
              (replicate 3 (ReshapeLayer_layer [2%nat]))
              (replicate 3 (mkRef 0 [2%nat])) [[1; 2]])
    as (_ & _ & _ & Halias).
  apply (Halias 2%nat (mkRef 0 [2%nat]) [2%nat] [1; 2]); done.
Defined.



(** X29.  [ReshapeLayer.forward] asks for at least one size: with an
    empty shape, [view] is called without an argument and raises
    [TypeError].  With sizes whose product is the number of entries it
    keeps the entries in their row-major order and only replaces the
    shape, so reshaping back to the shape of the input (when that shape
    has an axis) restores the input; a shape with another number of
    entries raises [RuntimeError]. *)
Theorem ReshapeLayer_round_trip (shape_ : list nat) (data : Tensor) :
  (shape_ = [] -> ReshapeLayer_forward shape_ data = Raise TypeError)
  /\ (shape_ <> [] -> numel shape_ = numel (shape data) ->
      exists r,
        ReshapeLayer_forward shape_ data = Return r
        /\ shape r = shape_
        /\ storage r = storage data
        /\ ReshapeLayer_forward (shape data) r
           = if decide (shape data = []) then Raise TypeError
             else Return data)
  /\ (shape_ <> [] -> numel shape_ <> numel (shape data) ->
      ReshapeLayer_forward shape_ data = Raise RuntimeError).
Proof.
  unfold ReshapeLayer_forward. split; [by intros ->|].
  split; intros Hne Hn.
  - destruct shape_ as [|d sh]; [done|]. cbn [view_star]. unfold view.
    rewrite Hn, Nat.eqb_refl. eexists. split; [done|].
    split; [done|]. split; [done|].
    destruct data as [shd std]. cbn [shape storage] in *.
    destruct shd as [|d' shd']; [done|].
    rewrite decide_False by done. cbn [view_star]. unfold view.
    cbn [shape storage]. by rewrite Hn, Nat.eqb_refl.
  - destruct shape_ as [|d sh]; [done|]. cbn [view_star]. unfold view.
    by destruct (Nat.eqb_spec (numel (d :: sh)) (numel (shape data))).
Qed.

Lemma ReshapeLayer_round_trip_witness :
  exists r,
    ReshapeLayer_forward [3; 2]%nat (mkTensor [2; 3]%nat [1; 2; 3; 4; 5; 6])
    = Return r
    /\ ReshapeLayer_forward [2; 3]%nat r
       = Return (mkTensor [2; 3]%nat [1; 2; 3; 4; 5; 6]).
Proof.
  destruct (proj1 (proj2 (ReshapeLayer_round_trip [3; 2]%nat
                     (mkTensor [2; 3]%nat [1; 2; 3; 4; 5; 6])))
              ltac:(done) eq_refl)
    as (r & Hr & _ & _ & Hback).
  exists r. split; [exact Hr|exact Hback].
Defined.

End LayerFacts.

(** ** beer/models/mixtureset.py: log_weights (X30) *)

Module LogWeightsFacts.
Import TorchFacts ReduceFacts AxisFacts.
Import BayesParams.
Local Open Scope R_scope.

Section MixtureSet.
Context {Stats Model : Type}.
Implicit Types self : MixtureSet Stats Model.

(** The loop of [log_weights] over the rows [k, k + n): each row receives
    the expected value of its weight parameter, the others stay. *)
Lemma log_weights_rows self (n k : nat) (t : Tensor) :
  let M := num_mix self in
  let C := num_comp self in
  shape t = [M; C] ->
  (k + n <= M)%nat ->
  length (mix_weights self) = M ->
  Forall (fun p => shape (exp_s_stats (posterior p)) = [C])
         (mix_weights self) ->
  exists t',
    foldM (fun weights i =>
             p <- param_getitem (mix_weights self) i ;;
             weight <- as_tensor (expected_value p true) ;;
             set_row weights i weight) t (seq k n) = Return t'
    /\ shape t' = [M; C]
    /\ forall m c, (m < M)%nat -> (c < C)%nat ->
         ((k <= m < k + n)%nat ->
          forall p, mix_weights self !! m = Some p ->
                    item t' [m; c] = item (exp_s_stats (posterior p)) [c])
         /\ (~ (k <= m < k + n)%nat -> item t' [m; c] = item t [m; c]).
Proof.
  intros M C. revert k t.
  induction n as [|n IH]; intros k t Ht Hk Hlen Hsh.
  - exists t. split; [done|]. split; [done|].
    intros m c Hm Hc. split; [lia|done].
  - destruct (mix_weights self !! k) as [pk|] eqn:Ek.
    2: { apply lookup_ge_None in Ek. lia. }
    pose proof (Forall_lookup_1 _ _ _ _ Hsh Ek) as Hv. cbn beta in Hv.
    set (t1 := tabulate [M; C]
                 (fun idx =>
                    match idx with
                    | j :: idx' =>
                        if (j =? k)%nat
                        then item (exp_s_stats (posterior pk)) (bidx [C] idx')
                        else item t idx
                    | [] => 0
                    end)).
    assert (Hstep : (p <- param_getitem (mix_weights self) k ;;
                     weight <- as_tensor (expected_value p true) ;;
                     set_row t k weight) = Return t1).
    { unfold param_getitem. rewrite Ek. cbn [bind expected_value as_tensor].
      unfold set_row. rewrite Ht.
      destruct (Nat.ltb_spec k M) as [_|]; [|lia].
      rewrite Hv, broadcast_shapes_refl. cbn [bind].
      by rewrite bool_decide_eq_true_2 by done. }
    cbn [seq foldM]. rewrite Hstep. cbn [bind].
    destruct (IH (S k) t1) as (t' & -> & Hsh' & Hit); [done|lia|done|done|].
    exists t'. split; [done|]. split; [done|].
    intros m c Hm Hc. destruct (Hit m c Hm Hc) as [Hin Hout].
    assert (H1 : item t1 [m; c]
                 = if (m =? k)%nat then item (exp_s_stats (posterior pk)) [c]
                   else item t [m; c]).
    { unfold t1. rewrite item_tabulate by (by apply valid2).
      destruct (m =? k)%nat; [|done].
      rewrite bidx_same; [done|]. repeat constructor. done. }
    split.
    + intros Hr p Hp.
      destruct (decide (m = k)) as [->|Hne].
      * rewrite Hout by lia. rewrite H1, Nat.eqb_refl.
        rewrite Ek in Hp. by injection Hp as <-.
      * apply Hin; [lia|done].
    + intros Hr. rewrite Hout by lia. rewrite H1.
      destruct (Nat.eqb_spec m k); [lia|done].
Qed.

(** X30.  [log_weights] stacks the expected values of the weight
    parameters: when the set has [num_mix] weights (at least one) whose
    posteriors have [num_comp] entries each, it returns a tensor of shape
    [(1, num_mix, num_comp)] whose entry [(0, m, c)] is entry [c] of the
    expected value of weight [m].  Without a weight, reading
    [mix_weights[0]] raises [IndexError]; a first weight with a number of
    entries that is neither [num_comp] nor 1 is refused by the row
    assignment with a [RuntimeError]. *)
Theorem log_weights_stacks_expected_values self :
  (mix_weights self = [] -> log_weights self = Raise IndexError)
  /\ (forall p ps K,
        mix_weights self = p :: ps ->
        num_mix self <> 0%nat ->
        shape (exp_s_stats (posterior p)) = [K] ->
        K <> num_comp self -> K <> 1%nat ->
        log_weights self = Raise RuntimeError)
  /\ (num_mix self <> 0%nat ->
      length (mix_weights self) = num_mix self ->
      Forall (fun p => shape (exp_s_stats (posterior p)) = [num_comp self])
             (mix_weights self) ->
      exists lw,
        log_weights self = Return lw
        /\ shape lw = [1%nat; num_mix self; num_comp self]
        /\ forall m c p,
             mix_weights self !! m = Some p -> (c < num_comp self)%nat ->
             item lw [0%nat; m; c] = item (exp_s_stats (posterior p)) [c]).
Proof.
  split; [|split].
  - intros Hnil. unfold log_weights. by rewrite Hnil.
  - intros p ps K Hmw HM Hp HK HK1. unfold log_weights. rewrite Hmw.
    cbn [param_getitem lookup list_lookup bind expected_value as_tensor].
    destruct (num_mix self) as [|M] eqn:EM; [done|].
    cbn [seq foldM].
    cbn [param_getitem lookup list_lookup bind expected_value as_tensor].
    unfold set_row at 1. cbn [shape zeros full tabulate].
    change (0 <? S M)%nat with true. cbv iota.
    rewrite Hp. set (C := num_comp self) in *.
    assert (Hb : (b <- broadcast_shapes [C] [K] ;;
                  if bool_decide (b = [C])
                  then Return (tabulate [S M; C]
                         (fun idx =>
                            match idx with
                            | j :: idx' =>
                                if (j =? 0)%nat
                                then item (exp_s_stats (posterior p))
                                       (bidx [K] idx')
                                else item (mkTensor [S M; C]
                                       (map (fun k => 0)
                                          (seq 0 (numel [S M; C])))) idx
                            | [] => 0
                            end))
                  else Raise RuntimeError) = Raise RuntimeError).
    { unfold broadcast_shapes. cbn [reverse rev_append bind].
      cbv [reverse rev_append broadcast_rev].
      destruct (Nat.eqb_spec C K) as [|_]; [lia|].
      destruct (Nat.eqb_spec C 1) as [HC|_].
      - cbn [bind]. rewrite bool_decide_eq_false_2; [done|].
        intros [= ?]. lia.
      - destruct (Nat.eqb_spec K 1) as [|_]; [lia|]. done. }
    unfold zeros, full, tabulate in *. cbn [shape] in *.
    by rewrite Hb.
  - intros HM Hlen Hsh.
    set (M := num_mix self) in *. set (C := num_comp self) in *.
    destruct (log_weights_rows self M 0 (zeros [M; C]))
      as (t' & Hfold & Hsh' & Hit); [done|lia|done|done|].
    fold M C in Hsh', Hit.
    unfold log_weights. fold M C.
    destruct (mix_weights self !! 0%nat) as [first|] eqn:E0.
    2: { apply lookup_ge_None in E0. lia. }
    unfold param_getitem at 1. rewrite E0. cbn [bind].
    unfold expected_value at 1, as_tensor at 1. cbn [bind].
    rewrite Hfold. cbn [bind]. unfold view. rewrite Hsh'.
    replace (numel [1%nat; M; C] =? numel [M; C])%nat with true
      by (symmetry; apply Nat.eqb_eq; simpl; lia).
    eexists. split; [reflexivity|]. split; [done|].
    intros m c p Hp Hc.
    assert (Hm : (m < M)%nat) by (rewrite <- Hlen; by eapply lookup_lt_Some).
    destruct (Hit m c Hm Hc) as [Hin _].
    rewrite <- (Hin ltac:(lia) p Hp).
    unfold item. rewrite Hsh'. cbn [shape storage ravel numel foldr].
    f_equal.
Qed.

End MixtureSet.

Import Samples.
#[local] Existing Instance plain_torch.

Lemma log_weights_stacks_expected_values_witness :
  exists lw,
    log_weights two_mixtures = Return lw
    /\ item lw [0; 1; 0]%nat = item (exp_s_stats one_component) [0%nat].
Proof.
  destruct (proj2 (proj2 (log_weights_stacks_expected_values two_mixtures)))
    as (lw & Hlw & _ & Hit).
  - done.
  - reflexivity.
  - repeat constructor.
  - exists lw. split; [exact Hlw|].
    apply (Hit 1%nat 0%nat (mkParam 1 one_component one_component
                              (zeros [1%nat]))); [reflexivity|].
    simpl. lia.
Defined.

End LogWeightsFacts.
